(** * Gazelle: package discovery walker and BUILD-file merger

    A shallow embedding of [go/tools/gazelle/packages/walk.go] and of the
    merger ([package merger]) of rules_go, together with the properties of
    the repository's specification that concern them.

    Conventions of the embedding:
    - a Go pointer or interface that may be [nil] is an [option];
    - a function returning [(T, error)] or able to panic returns an
      [outcome];
    - a Go [map[string]T] is a [gmap string T]; a loop over a slice is a
      [foldl] whose accumulator holds the variables the loop assigns;
    - [sort.Strings] is [merge_sort String.le]: strings are compared
      byte-wise, and as that order is total and antisymmetric the sorted
      list does not depend on the sorting algorithm. *)

From Stdlib Require Import Ascii.
From stdpp Require Import gmap strings list sorting fin_maps.

Set Default Proof Using "Type".

(** ** Outcomes of fallible code *)

Inductive outcome (A : Type) : Type :=
  | Return (a : A)
  | Error (msg : string)
  | Panic (msg : string).
Arguments Return {A} a.
Arguments Error {A} msg.
Arguments Panic {A} msg.

Definition obind {A B} (m : outcome A) (k : A → outcome B) : outcome B :=
  match m with
  | Return a => k a
  | Error e => Error e
  | Panic e => Panic e
  end.

#[global] Instance outcome_ret : MRet outcome := λ A a, Return a.
#[global] Instance outcome_bind : MBind outcome := λ A B k m, obind m k.

(** ** Go library functions on strings *)

(** [strings.HasPrefix(s, prefix)]. *)
Definition HasPrefix (s pre : string) : bool := String.prefix pre s.

(** [sort.Strings]. *)
Definition sort_Strings (l : list string) : list string :=
  merge_sort String.le l.

(** Strict byte-wise order on strings, [a < b] in Go. *)
Definition string_lt (a b : string) : Prop := String.le a b ∧ a ≠ b.

(** ** The build-file syntax tree (package [bzl] of buildtools)

    Only the node kinds and the fields the merger reads or writes are
    kept; positions are left out. [EOther] stands for every node kind
    that neither the merger nor [bzl.Rule] looks into. *)
Module bzl.

Record Comment : Type := mkComment { Token : string }.

Record Comments : Type := mkComments {
  Before : list Comment;
  Suffix : list Comment;
  After : list Comment
}.

(** The zero value of [Comments]. *)
Definition noComments : Comments := mkComments [] [] [].

Record StringExpr : Type := mkStringExpr {
  StringExpr_Comments : Comments;
  StringExpr_Value : string
}.

Record LiteralExpr : Type := mkLiteralExpr {
  LiteralExpr_Comments : Comments;
  LiteralExpr_Token : string
}.

Record ListExpr_ (E : Type) : Type := mkListExpr {
  ListExpr_Comments : Comments;
  ListExpr_List : list E;
  ListExpr_ForceMultiLine : bool
}.

Record DictExpr_ (E : Type) : Type := mkDictExpr {
  DictExpr_Comments : Comments;
  DictExpr_List : list E;
  DictExpr_ForceMultiLine : bool
}.

Record KeyValueExpr_ (E : Type) : Type := mkKeyValueExpr {
  KeyValueExpr_Comments : Comments;
  KeyValueExpr_Key : E;
  KeyValueExpr_Value : E
}.

Record CallExpr_ (E : Type) : Type := mkCallExpr {
  CallExpr_Comments : Comments;
  CallExpr_X : E;
  CallExpr_List : list E;
  CallExpr_ForceCompact : bool;
  CallExpr_ForceMultiLine : bool
}.

Record BinaryExpr_ (E : Type) : Type := mkBinaryExpr {
  BinaryExpr_Comments : Comments;
  BinaryExpr_X : E;
  BinaryExpr_Op : string;
  BinaryExpr_Y : E
}.

Arguments mkListExpr {E}.
Arguments ListExpr_Comments {E}.
Arguments ListExpr_List {E}.
Arguments ListExpr_ForceMultiLine {E}.
Arguments mkDictExpr {E}.
Arguments DictExpr_Comments {E}.
Arguments DictExpr_List {E}.
Arguments DictExpr_ForceMultiLine {E}.
Arguments mkKeyValueExpr {E}.
Arguments KeyValueExpr_Comments {E}.
Arguments KeyValueExpr_Key {E}.
Arguments KeyValueExpr_Value {E}.
Arguments mkCallExpr {E}.
Arguments CallExpr_Comments {E}.
Arguments CallExpr_X {E}.
Arguments CallExpr_List {E}.
Arguments CallExpr_ForceCompact {E}.
Arguments CallExpr_ForceMultiLine {E}.
Arguments mkBinaryExpr {E}.
Arguments BinaryExpr_Comments {E}.
Arguments BinaryExpr_X {E}.
Arguments BinaryExpr_Op {E}.
Arguments BinaryExpr_Y {E}.

(** The interface [bzl.Expr]: one constructor per dynamic type. *)
#[warnings="-register-all"]
Inductive Expr : Type :=
  | EString (s : StringExpr)
  | ELiteral (l : LiteralExpr)
  | EList (l : ListExpr_ Expr)
  | EDict (d : DictExpr_ Expr)
  | EKeyValue (kv : KeyValueExpr_ Expr)
  | ECall (c : CallExpr_ Expr)
  | EBinary (b : BinaryExpr_ Expr)
  | EDot (c : Comments) (X : Expr) (Name : string)
  | EOther (c : Comments).

Abbreviation ListExpr := (ListExpr_ Expr).
Abbreviation DictExpr := (DictExpr_ Expr).
Abbreviation KeyValueExpr := (KeyValueExpr_ Expr).
Abbreviation CallExpr := (CallExpr_ Expr).
Abbreviation BinaryExpr := (BinaryExpr_ Expr).

(** The method [Comment()] of [bzl.Expr]. *)
Definition Comment_ (e : Expr) : Comments :=
  match e with
  | EString s => StringExpr_Comments s
  | ELiteral l => LiteralExpr_Comments l
  | EList l => ListExpr_Comments l
  | EDict d => DictExpr_Comments d
  | EKeyValue kv => KeyValueExpr_Comments kv
  | ECall c => CallExpr_Comments c
  | EBinary b => BinaryExpr_Comments b
  | EDot c _ _ => c
  | EOther c => c
  end.

(** [bzl.File]: the top-level statements (the path is left out). *)
Record File : Type := mkFile { Stmt : list Expr }.

(** *** [bzl.Rule] and [bzl.File.Rules]

    These belong to the buildtools library. They are written after its
    documented behaviour: a rule is a call, its kind is the dotted name
    that is called (empty when the callee is not a name), its attributes
    are the arguments of the form [key = value]. *)

Fixpoint dottedName (e : Expr) : option string :=
  match e with
  | ELiteral l => Some (LiteralExpr_Token l)
  | EDot _ x name => (λ p, p +:+ "." +:+ name) <$> dottedName x
  | _ => None
  end.

Definition Rule_Kind (r : CallExpr) : string :=
  default "" (dottedName (CallExpr_X r)).

(** The test of [AttrDefn] and [AttrKeys] on one argument: an assignment
    whose left side is a literal gives that literal's token. *)
Definition attrKey (e : Expr) : option string :=
  match e with
  | EBinary b =>
    if decide (BinaryExpr_Op b = "=") then
      match BinaryExpr_X b with
      | ELiteral k => Some (LiteralExpr_Token k)
      | _ => None
      end
    else None
  | _ => None
  end.

Definition Rule_AttrKeys (r : CallExpr) : list string :=
  omap attrKey (CallExpr_List r).

Fixpoint attrDefnIn (l : list Expr) (key : string) : option BinaryExpr :=
  match l with
  | [] => None
  | e :: l =>
    match e with
    | EBinary b =>
      if decide (attrKey e = Some key) then Some b else attrDefnIn l key
    | _ => attrDefnIn l key
    end
  end.

Definition Rule_AttrDefn (r : CallExpr) (key : string) : option BinaryExpr :=
  attrDefnIn (CallExpr_List r) key.

Definition Rule_Attr (r : CallExpr) (key : string) : option Expr :=
  BinaryExpr_Y <$> Rule_AttrDefn r key.

Definition Rule_AttrString (r : CallExpr) (key : string) : string :=
  match Rule_Attr r key with
  | Some (EString s) => StringExpr_Value s
  | _ => ""
  end.

Definition Rule_Name (r : CallExpr) : string := Rule_AttrString r "name".

Definition setY (b : BinaryExpr) (y : Expr) : BinaryExpr :=
  mkBinaryExpr (BinaryExpr_Comments b) (BinaryExpr_X b) (BinaryExpr_Op b) y.

Definition setList (r : CallExpr) (l : list Expr) : CallExpr :=
  mkCallExpr (CallExpr_Comments r) (CallExpr_X r) l
    (CallExpr_ForceCompact r) (CallExpr_ForceMultiLine r).

(** [as.Y = val] on the first definition of [key]. *)
Fixpoint assignFirst (l : list Expr) (key : string) (val : Expr) : list Expr :=
  match l with
  | [] => []
  | e :: l =>
    match e with
    | EBinary b =>
      if decide (attrKey e = Some key) then EBinary (setY b val) :: l
      else e :: assignFirst l key val
    | _ => e :: assignFirst l key val
    end
  end.

Definition Rule_SetAttr (r : CallExpr) (key : string) (val : Expr) : CallExpr :=
  match Rule_AttrDefn r key with
  | Some _ => setList r (assignFirst (CallExpr_List r) key val)
  | None =>
    setList r (CallExpr_List r ++
      [EBinary (mkBinaryExpr noComments
                  (ELiteral (mkLiteralExpr noComments key)) "=" val)])
  end.

(** [File.Rules(kind)]: the top-level calls of that kind, all of them
    when [kind] is empty. *)
Definition File_Rules (f : File) (kind : string) : list CallExpr :=
  omap (λ stmt,
          match stmt with
          | ECall call =>
            if decide (kind ≠ "" ∧ Rule_Kind call ≠ kind) then None
            else Some call
          | _ => None
          end)
       (Stmt f).

(** Literals of the source language, for examples: a string without
    comments, and a string followed by a suffix comment. *)
Definition str (v : string) : Expr := EString (mkStringExpr noComments v).
Definition str_suffix (v c : string) : Expr :=
  EString (mkStringExpr (mkComments [] [mkComment c] []) v).
Definition lit (t : string) : Expr := ELiteral (mkLiteralExpr noComments t).
Definition list_of (l : list Expr) : ListExpr := mkListExpr noComments l false.

End bzl.
Import bzl.

(** ** The merger *)
Module merger.

Definition gazelleIgnore : string := "# gazelle:ignore".
Definition keep : string := "# keep".

Definition mergeableFields : gmap string bool :=
  {[ "srcs" := true; "deps" := true; "library" := true ]}.

(** Reading a Go [map[string]bool]: a missing key reads as [false]. *)
Definition index_bool (m : gmap string bool) (k : string) : bool :=
  default false (m !! k).

Definition stringValue (e : Expr) : string :=
  match e with
  | EString s => StringExpr_Value s
  | _ => ""
  end.

Definition shouldKeep (e : Expr) : bool :=
  let c := Comment_ e in
  match Suffix c with
  | [] => false
  | c0 :: _ => HasPrefix (Token c0) keep
  end.

(** The first loop of [mergeList]: the elements of the old list that
    carry a keep marker, and the set of their non-empty string values. *)
Definition keepLoop (old : list Expr) : list Expr * gmap string bool :=
  foldl (λ '(merged, kept) v,
           if shouldKeep v then
             (merged ++ [v],
              let s := stringValue v in
              if decide (s ≠ "") then <[s := true]> kept else kept)
           else (merged, kept))
        ([], ∅) old.

(** The second loop of [mergeList]. *)
Definition genLoop (kept : gmap string bool) (merged : list Expr)
    (gen : list Expr) : list Expr :=
  foldl (λ merged v,
           if index_bool kept (stringValue v) then merged
           else merged ++ [v])
        merged gen.

Definition mergeList (gen old : option ListExpr) : option ListExpr :=
  match old with
  | None => gen
  | Some old =>
    let gen := default (mkListExpr noComments [] false) gen in
    let '(merged, kept) := keepLoop (ListExpr_List old) in
    let merged := genLoop kept merged (ListExpr_List gen) in
    if decide (length merged = 0) then None
    else Some (mkListExpr noComments merged false)
  end.

(** The elements of a possibly absent list. *)
Definition elements_of (l : option ListExpr) : list Expr :=
  match l with
  | None => []
  | Some l => ListExpr_List l
  end.


(** [exprListAndDict]: the list part and the select-dictionary part of an
    expression. *)
Definition exprListAndDict (expr : option Expr)
    : outcome (option ListExpr * option DictExpr) :=
  match expr with
  | None => Return (None, None)
  | Some (EList l) => Return (Some l, None)
  | Some (ECall c) =>
    match CallExpr_X c, CallExpr_List c with
    | ELiteral x, [EDict d] =>
      if decide (LiteralExpr_Token x = "select") then Return (None, Some d)
      else Error "expression could not be matched"
    | _, _ => Error "expression could not be matched"
    end
  | Some (EBinary b) =>
    if decide (BinaryExpr_Op b ≠ "+") then
      Error ("expression could not be matched: unknown operator: "
             +:+ BinaryExpr_Op b)
    else
      match BinaryExpr_X b with
      | EList l =>
        match BinaryExpr_Y b with
        | ECall call =>
          match CallExpr_List call with
          | [arg] =>
            match CallExpr_X call with
            | ELiteral x =>
              if decide (LiteralExpr_Token x ≠ "select") then
                Error "expression could not be matched: right operand not a call to select"
              else
                match arg with
                | EDict d => Return (Some l, Some d)
                | _ =>
                  Error "expression could not be matched: argument to right operand not a dict"
                end
            | _ =>
              Error "expression could not be matched: right operand not a call to select"
            end
          | _ =>
            Error "expression could not be matched: right operand not a call with one argument"
          end
        | _ =>
          Error "expression could not be matched: right operand not a call with one argument"
        end
      | _ => Error "expression could not be matched: left operand not a list"
      end
  | Some _ => Error "expression could not be matched"
  end.

(** *** Dictionaries

    [mergeDict] keeps its entries in a slice and in a map that share the
    entry objects. Here the slice [entries] holds the objects and the map
    [entryMap] holds, for each key, the position of its object in the
    slice; an assignment to a field of an entry updates the slice. *)

Record dictEntry : Type := mkDictEntry {
  key : string;
  oldValue : option ListExpr;
  genValue : option ListExpr;
  mergedValue : option ListExpr
}.

Definition set_genValue (v : option ListExpr) (e : dictEntry) : dictEntry :=
  mkDictEntry (key e) (oldValue e) v (mergedValue e).

Definition set_mergedValue (v : option ListExpr) (e : dictEntry) : dictEntry :=
  mkDictEntry (key e) (oldValue e) (genValue e) v.

Definition dictEntryKeyValue (e : Expr) : outcome (string * ListExpr) :=
  match e with
  | EKeyValue kv =>
    match KeyValueExpr_Key kv with
    | EString k =>
      match KeyValueExpr_Value kv with
      | EList v => Return (StringExpr_Value k, v)
      | _ => Error "dict value was not list"
      end
    | _ => Error "dict key was not string"
    end
  | _ => Error "dict entry was not a key-value pair"
  end.

Definition defaultCase : string := "//conditions:default".

(** The loop over [old.List]. *)
Fixpoint oldEntries (l : list Expr) (entries : list dictEntry)
    (entryMap : gmap string nat)
    : outcome (list dictEntry * gmap string nat) :=
  match l with
  | [] => Return (entries, entryMap)
  | kv :: l =>
    '(k, v) ← dictEntryKeyValue kv;
    match entryMap !! k with
    | Some _ => Error ("old dict contains more than one case named " +:+ k)
    | None =>
      oldEntries l (entries ++ [mkDictEntry k (Some v) None None])
                 (<[k := length entries]> entryMap)
    end
  end.

(** The loop over [gen.List]. *)
Fixpoint genEntries (l : list Expr) (entries : list dictEntry)
    (entryMap : gmap string nat)
    : outcome (list dictEntry * gmap string nat) :=
  match l with
  | [] => Return (entries, entryMap)
  | kv :: l =>
    '(k, v) ← dictEntryKeyValue kv;
    match entryMap !! k with
    | Some e =>
      genEntries l (alter (set_genValue (Some v)) e entries) entryMap
    | None =>
      genEntries l (entries ++ [mkDictEntry k None (Some v) None])
                 (<[k := length entries]> entryMap)
    end
  end.

(** The body of the loop over [entries]: the entry receives its merged
    value; [done] holds the entries already visited. *)
Definition mergeEntry (st : list dictEntry * list string * bool)
    (e : dictEntry) : list dictEntry * list string * bool :=
  let '(done, keys, haveDefault) := st in
  let m := mergeList (genValue e) (oldValue e) in
  if decide (key e = defaultCase) then
    let m := match m with
             | None => Some (mkListExpr noComments [] false)
             | Some _ => m
             end in
    (done ++ [set_mergedValue m e], keys, true)
  else
    (done ++ [set_mergedValue m e],
     match m with Some _ => keys ++ [key e] | None => keys end,
     haveDefault).

(** The loop over [entries]; the result is the updated slice, [keys] and
    [haveDefault]. *)
Definition mergeEntries (entries : list dictEntry)
    : list dictEntry * list string * bool :=
  foldl mergeEntry ([], [], false) entries.

(** [entryMap[k]], a pointer to an entry. *)
Definition entryOf (entries : list dictEntry) (entryMap : gmap string nat)
    (k : string) : option dictEntry :=
  i ← entryMap !! k; entries !! i.

(** The last loop: one key-value pair per key. A key without an entry or
    without a merged value does not occur; such a key would crash. *)
Fixpoint mergedEntries (entries : list dictEntry) (entryMap : gmap string nat)
    (keys : list string) : outcome (list Expr) :=
  match keys with
  | [] => Return []
  | k :: keys =>
    match entryOf entries entryMap k with
    | Some e =>
      match mergedValue e with
      | Some v =>
        rest ← mergedEntries entries entryMap keys;
        Return (EKeyValue (mkKeyValueExpr noComments
                  (EString (mkStringExpr noComments (key e))) (EList v))
                :: rest)
      | None => Panic "nil merged value"
      end
    | None => Panic "nil pointer dereference"
    end
  end.

Definition mergeDict (gen old : option DictExpr) : outcome (option DictExpr) :=
  match old with
  | None => Return gen
  | Some old =>
    let gen := default (mkDictExpr noComments [] false) gen in
    '(entries, entryMap) ← oldEntries (DictExpr_List old) [] ∅;
    '(entries, entryMap) ← genEntries (DictExpr_List gen) entries entryMap;
    let '(entries, keys, haveDefault) := mergeEntries entries in
    collapse ←
      (if decide (length keys = 0) then
         if negb haveDefault then Return true
         else
           match entryOf entries entryMap defaultCase with
           | Some e =>
             match mergedValue e with
             | Some v => Return (bool_decide (length (ListExpr_List v) = 0))
             | None => Panic "nil pointer dereference"
             end
           | None => Panic "nil pointer dereference"
           end
       else Return false);
    if (collapse : bool) then Return None
    else
      let keys := sort_Strings keys in
      let keys := if haveDefault then keys ++ [defaultCase] else keys in
      mergedEntries ← mergedEntries entries entryMap keys;
      Return (Some (mkDictExpr noComments mergedEntries true))
  end.

Definition selectCall (d : DictExpr) : Expr :=
  ECall (mkCallExpr noComments (ELiteral (mkLiteralExpr noComments "select"))
           [EDict d] false false).

Definition forceMultiLine (l : ListExpr) : ListExpr :=
  mkListExpr (ListExpr_Comments l) (ListExpr_List l) true.

(** [mergeExpr]. With a string for [gen], [shouldKeep(old)] calls a method
    of [old], which crashes when [old] is nil. The assignment
    [mergedList.ForceMultiLine = true] writes to the list that [mergeList]
    returned, which is the generated list when there is no existing list;
    the merged expression, which is what is read afterwards, has the flag
    set. *)
Definition mergeExpr (gen old : option Expr) : outcome (option Expr) :=
  match gen with
  | Some (EString _) =>
    match old with
    | None => Panic "nil pointer dereference"
    | Some o => if shouldKeep o then Return old else Return gen
    end
  | _ =>
    '(genList, genDict) ← exprListAndDict gen;
    '(oldList, oldDict) ← exprListAndDict old;
    let mergedList := mergeList genList oldList in
    mergedDict ← mergeDict genDict oldDict;
    let mergedSelect := selectCall <$> mergedDict in
    match mergedList with
    | None => Return mergedSelect
    | Some l =>
      match mergedSelect with
      | None => Return (Some (EList l))
      | Some sel =>
        Return (Some (EBinary (mkBinaryExpr noComments
                                 (EList (forceMultiLine l)) "+" sel)))
      end
    end
  end.

(** *** Rules, load statements and files *)

Definition kind (c : CallExpr) : string := Rule_Kind c.

Definition name (c : CallExpr) : string := Rule_Name c.

Definition ruleUsed (rule : string) (oldfile : File) : bool :=
  bool_decide (length (File_Rules oldfile rule) ≠ 0).

(** [mergeLoad]. The slices [gen.List[1:]], [old.List[1:]] and
    [old.List[:1]] crash on an empty argument list. The keys of [vals] are
    collected in the order of a map traversal and then sorted. *)
Definition mergeLoad (gen old : CallExpr) (oldfile : File) : outcome CallExpr :=
  match CallExpr_List gen with
  | [] => Panic "slice bounds out of range"
  | _ :: genSymbols =>
    let vals : gmap string Expr :=
      foldl (λ vals v, <[stringValue v := v]> vals) ∅ genSymbols in
    match CallExpr_List old with
    | [] => Panic "slice bounds out of range"
    | path :: oldSymbols =>
      let vals :=
        foldl (λ vals v,
                 let rule := stringValue v in
                 match vals !! rule with
                 | None => if ruleUsed rule oldfile then <[rule := v]> vals
                           else vals
                 | Some _ => vals
                 end)
              vals oldSymbols in
      let keys := foldl (λ keys kv, keys ++ [kv.1]) [] (map_to_list vals) in
      let keys := sort_Strings keys in
      Return (setList old
                (foldl (λ l k, l ++ option_list (vals !! k)) [path] keys))
    end
  end.

Definition isIgnoreComment (c : Comment) : bool :=
  HasPrefix (Token c) gazelleIgnore.

Definition shouldIgnore (oldFile : File) : bool :=
  existsb (λ s, existsb isIgnoreComment (After (Comment_ s))
                || existsb isIgnoreComment (Before (Comment_ s)))
          (Stmt oldFile).

Inductive matcher : Type :=
  | nameMatcher (kind name : string)
  | loadMatcher (load : string).

Definition matcher_match (m : matcher) (c : CallExpr) : bool :=
  match m with
  | nameMatcher k n => bool_decide (k = kind c) && bool_decide (n = name c)
  | loadMatcher load =>
    bool_decide (kind c = "load") &&
    match CallExpr_List c with
    | [] => false
    | p :: _ => bool_decide (load = stringValue p)
    end
  end.

(** The search loop of [match], from position [i] on. *)
Fixpoint matchFrom (m : matcher) (i : nat) (stmts : list Expr)
    : option (nat * CallExpr) :=
  match stmts with
  | [] => None
  | s :: stmts =>
    match s with
    | ECall other =>
      if matcher_match m other then Some (i, other)
      else matchFrom m (S i) stmts
    | _ => matchFrom m (S i) stmts
    end
  end.

(** [match]; the result [(-1, nil)] is [None]. *)
Definition match_ (f : File) (c : CallExpr) : option (nat * CallExpr) :=
  if decide (kind c = "load") then
    match CallExpr_List c with
    | [] => None
    | p :: _ => matchFrom (loadMatcher (stringValue p)) 0 (Stmt f)
    end
  else matchFrom (nameMatcher (kind c) (name c)) 0 (Stmt f).

Definition isAssignment (a : Expr) : bool :=
  match a with
  | EBinary b => bool_decide (BinaryExpr_Op b = "=")
  | _ => false
  end.

(** The first loop of [mergeRule]: the arguments before the first
    assignment. *)
Fixpoint unnamedArguments (l : list Expr) : list Expr :=
  match l with
  | [] => []
  | a :: l => if isAssignment a then [] else a :: unnamedArguments l
  end.

(** One step of the loop of [mergeRule] over the attributes of the old
    rule; [mlist] is [merged.List]. *)
Definition mergeAttr (gen old : CallExpr) (mlist : list Expr) (k : string)
    : outcome (list Expr) :=
  match Rule_AttrDefn old k with
  | None => Panic "nil pointer dereference"
  | Some oldAttr =>
    if negb (index_bool mergeableFields k) then Return (mlist ++ [EBinary oldAttr])
    else
      let oldExpr := BinaryExpr_Y oldAttr in
      let genExpr := Rule_Attr gen k in
      mergedExpr ←
        match mergeExpr genExpr (Some oldExpr) with
        | Return m => Return m
        | Error _ => Return genExpr
        | Panic msg => Panic msg
        end;
      match mergedExpr with
      | Some m => Return (mlist ++ [EBinary (setY oldAttr m)])
      | None => Return mlist
      end
  end.

Fixpoint mergeAttrs (gen old : CallExpr) (mlist : list Expr) (ks : list string)
    : outcome (list Expr) :=
  match ks with
  | [] => Return mlist
  | k :: ks => mlist ← mergeAttr gen old mlist k; mergeAttrs gen old mlist ks
  end.

(** The last loop of [mergeRule]: the attributes of the generated rule
    that the merged rule does not have yet. *)
Definition addNewAttrs (gen merged : CallExpr) : CallExpr :=
  foldl (λ merged k,
           match Rule_Attr merged k with
           | None =>
             match Rule_Attr gen k with
             | Some v => Rule_SetAttr merged k v
             | None => merged
             end
           | Some _ => merged
           end)
        merged (Rule_AttrKeys gen).

Definition mergeRule (gen old : CallExpr) : outcome CallExpr :=
  mlist ← mergeAttrs gen old (unnamedArguments (CallExpr_List old))
                    (Rule_AttrKeys old);
  Return (addNewAttrs gen (setList old mlist)).

(** The loop of [MergeWithExisting] over the generated statements.
    [oldStmt] is the slice shared with [oldFile.Stmt]: [match] and
    [mergeLoad] see the statements already replaced. *)
Fixpoint mergeStmts (genStmt : list Expr) (oldStmt newStmt : list Expr)
    : outcome (list Expr * list Expr) :=
  match genStmt with
  | [] => Return (oldStmt, newStmt)
  | s :: genStmt =>
    match s with
    | ECall genRule =>
      match match_ (mkFile oldStmt) genRule with
      | None => mergeStmts genStmt oldStmt (newStmt ++ [s])
      | Some (i, oldRule) =>
        mergedRule ←
          (if decide (kind oldRule = "load") then
             mergeLoad genRule oldRule (mkFile oldStmt)
           else mergeRule genRule oldRule);
        mergeStmts genStmt (<[i := ECall mergedRule]> oldStmt) newStmt
      end
    | _ => Panic "expected only CallExpr"
    end
  end.

(** [MergeWithExisting] once the existing file is read and parsed. *)
Definition mergeFile (genFile oldFile : File) : outcome (option File) :=
  if shouldIgnore oldFile then Return None
  else
    '(oldStmt, newStmt) ← mergeStmts (Stmt genFile) (Stmt oldFile) [];
    Return (Some (mkFile (oldStmt ++ newStmt))).

(** The file system and the log, as far as the merger touches them. *)
Record world : Type := mkWorld {
  files : gmap string string;
  logged : list string
}.

Definition log_Print (msg : string) (w : world) : world :=
  mkWorld (files w) (logged w ++ [msg]).

(** [ioutil.ReadFile]. *)
Definition ReadFile (path : string) (w : world) : string + string :=
  match files w !! path with
  | Some data => inr data
  | None => inl ("open " +:+ path +:+ ": no such file or directory")
  end.

Section MergeWithExisting.

(** The parser of buildtools, [bzl.Parse]. *)
Variable Parse : string → string → string + File.

Definition MergeWithExisting (genFile : File) (existingFilePath : string)
    (w : world) : world * outcome (option File) :=
  match ReadFile existingFilePath w with
  | inl err => (log_Print err w, Return None)
  | inr oldData =>
    match Parse existingFilePath oldData with
    | inl err => (log_Print err w, Return None)
    | inr oldFile => (w, mergeFile genFile oldFile)
    end
  end.

End MergeWithExisting.

End merger.

(** ** The package walker *)
Module packages.

(** *** Go library functions on paths *)

(** [strings.HasSuffix(s, suffix)]. *)
Definition HasSuffix (s suffix : string) : bool :=
  bool_decide (String.length suffix ≤ String.length s) &&
  bool_decide (String.substring (String.length s - String.length suffix)
                 (String.length suffix) s = suffix).

Definition slash : ascii := "/"%char.

(** The loop of [path.Base] that strips trailing slashes. *)
Fixpoint stripTrailingSlashes (p : string) : string :=
  match p with
  | EmptyString => EmptyString
  | String c p =>
    match stripTrailingSlashes p with
    | EmptyString => if decide (c = slash) then EmptyString
                     else String c EmptyString
    | r => String c r
    end
  end.

(** [p[strings.LastIndex(p, "/")+1:]]; [cur] is what follows the last
    slash read so far. *)
Fixpoint afterLastSlash (cur p : string) : string :=
  match p with
  | EmptyString => cur
  | String c p =>
    if decide (c = slash) then afterLastSlash EmptyString p
    else afterLastSlash (cur +:+ String c EmptyString) p
  end.

(** [path.Base] of the Go library. *)
Definition path_Base (p : string) : string :=
  if decide (p = "") then "."
  else
    let p := stripTrailingSlashes p in
    let p := afterLastSlash "" p in
    if decide (p = "") then "/" else p.

(** [filepath.Base], on a system whose separator is the slash. *)
Definition filepath_Base (p : string) : string := path_Base p.

(** *** What [walk.go] uses and does not define

    The types [Package], [PlatformConstraints] and [fileInfo] with their
    methods are defined in other files of the package; reading a
    directory or a file depends on the file system. They are the fields
    of [PackageAPI]. Go visits the entries of a map in an unspecified
    order: [rangeMap] is that order, about which only [rangeMap_perm] is
    known. *)

Record DirEntry : Type := mkDirEntry { Name : string; IsDir : bool }.

Record packageReader (PlatformConstraints : Type) : Type := mkPackageReader {
  buildTags : gmap string bool;
  platforms : PlatformConstraints;
  repoRoot : string;
  goPrefix : string;
  dir : string
}.
Arguments mkPackageReader {PlatformConstraints}.
Arguments buildTags {PlatformConstraints}.
Arguments platforms {PlatformConstraints}.
Arguments repoRoot {PlatformConstraints}.
Arguments goPrefix {PlatformConstraints}.
Arguments dir {PlatformConstraints}.

Class PackageAPI : Type := {
  Package : Type;
  PlatformConstraints : Type;
  fileInfo : Type;
  (** [&Package{Name: name, Dir: dir}] *)
  newPackage : string → string → Package;
  HasGo : Package → bool;
  firstGoFile : Package → string;
  packageName : fileInfo → string;
  isCgo : fileInfo → bool;
  (** [p.addFile(info, cgo, buildTags, platforms)]: the updated package
      and the error, if any. *)
  addFile : Package → fileInfo → bool → gmap string bool →
            PlatformConstraints → Package * option string;
  goFileInfo : packageReader PlatformConstraints → string → string + fileInfo;
  otherFileInfo : packageReader PlatformConstraints → string → string + fileInfo;
  (** [ioutil.ReadDir] *)
  ReadDir : string → string + list DirEntry;
  (** [filepath.Join] of a directory and an entry name *)
  Join : string → string → string;
  rangeMap : gmap string Package → list (string * Package);
  rangeMap_perm : ∀ m, rangeMap m ≡ₚ map_to_list m
}.

(** The errors of [selectPackage], [build.NoGoError] and
    [build.MultiplePackageError]. *)
Inductive error : Type :=
  | NoGoError (Dir : string)
  | MultiplePackageError (Dir : string) (Packages Files : list string).

(** [err.Error()], for the log. *)
Definition Error_ (e : error) : string :=
  match e with
  | NoGoError d => "no buildable Go source files in " +:+ d
  | MultiplePackageError d ps fs =>
    "found packages " +:+ String.concat ", " ps +:+ " in " +:+ d
  end.

Section walk.

Context `{api : PackageAPI}.

Definition defaultPackageName (pr : packageReader PlatformConstraints) : string :=
  if decide (dir pr ≠ repoRoot pr) then filepath_Base (dir pr)
  else
    let name := path_Base (goPrefix pr) in
    if decide (name = "." ∨ name = "/") then "unnamed" else name.

(** The first loop of [selectPackage]. *)
Definition packagesWithGoOf (packageMap : gmap string Package)
    : gmap string Package :=
  foldl (λ m '(name, pkg), if HasGo pkg then <[name := pkg]> m else m)
        ∅ (rangeMap packageMap).

(** The last loop of [selectPackage]: the fields [Packages] and [Files] of
    the error. *)
Definition conflictLists (packagesWithGo : gmap string Package)
    : list string * list string :=
  foldl (λ '(ps, fs) '(name, pkg), (ps ++ [name], fs ++ [firstGoFile pkg]))
        ([], []) (rangeMap packagesWithGo).

Definition selectPackage (pr : packageReader PlatformConstraints)
    (packageMap : gmap string Package) : error + Package :=
  let packagesWithGo := packagesWithGoOf packageMap in
  if decide (size packagesWithGo = 0) then inl (NoGoError (dir pr))
  else
    match (if decide (size packagesWithGo = 1)
           then head (rangeMap packagesWithGo) else None) with
    | Some (_, pkg) => inr pkg
    | None =>
      match packagesWithGo !! defaultPackageName pr with
      | Some pkg => inr pkg
      | None =>
        let '(ps, fs) := conflictLists packagesWithGo in
        inl (MultiplePackageError (dir pr) ps fs)
      end
    end.

Definition firstByteIs (c : ascii) (s : string) : bool :=
  match s with
  | String c' _ => bool_decide (c' = c)
  | EmptyString => false
  end.

(** The first loop of [findPackage]: the names of the Go files and of the
    other files. *)
Definition splitFiles (files : list DirEntry) : list string * list string :=
  foldl (λ '(goFiles, otherFiles) file,
           if IsDir file then (goFiles, otherFiles)
           else
             let name := Name file in
             if bool_decide (name = "") || firstByteIs "." name
                || firstByteIs "_" name
             then (goFiles, otherFiles)
             else if HasSuffix name ".go" then (goFiles ++ [name], otherFiles)
             else (goFiles, otherFiles ++ [name]))
        ([], []) files.

(** The loop of [findPackage] over the Go files; the state is the log, the
    map of packages and [cgo]. *)
Definition addGoFiles (pr : packageReader PlatformConstraints)
    (goFiles : list string) : list string * gmap string Package * bool :=
  foldl (λ '(log, packageMap, cgo) goFile,
           match goFileInfo pr goFile with
           | inl err => (log ++ [err], packageMap, cgo)
           | inr info =>
             if decide (packageName info = "documentation")
             then (log, packageMap, cgo)
             else
               let cgo := cgo || isCgo info in
               let pkg := default (newPackage (packageName info) (dir pr))
                            (packageMap !! packageName info) in
               let '(pkg, err) :=
                 addFile pkg info false (buildTags pr) (platforms pr) in
               (log ++ option_list err,
                <[packageName info := pkg]> packageMap, cgo)
           end)
        ([], ∅, false) goFiles.

(** The loop of [findPackage] over the other files. *)
Definition addOtherFiles (pr : packageReader PlatformConstraints)
    (cgo : bool) (otherFiles : list string) (log : list string)
    (pkg : Package) : list string * Package :=
  foldl (λ '(log, pkg) file,
           match otherFileInfo pr file with
           | inl err => (log ++ [err], pkg)
           | inr info =>
             let '(pkg, err) :=
               addFile pkg info cgo (buildTags pr) (platforms pr) in
             (log ++ option_list err, pkg)
           end)
        (log, pkg) otherFiles.

(** [findPackage]: what it logs and what it returns. *)
Definition findPackage (pr : packageReader PlatformConstraints)
    : list string * option Package :=
  match ReadDir (dir pr) with
  | inl err => ([err], None)
  | inr files =>
    let '(goFiles, otherFiles) := splitFiles files in
    let '(log, packageMap, cgo) := addGoFiles pr goFiles in
    match selectPackage pr packageMap with
    | inl err =>
      (match err with
       | NoGoError _ => log
       | _ => log ++ [Error_ err]
       end, None)
    | inr pkg =>
      let '(log, pkg) := addOtherFiles pr cgo otherFiles log pkg in
      (log, Some pkg)
    end
  end.

Definition FindPackage (dir : string) (buildTags : gmap string bool)
    (platforms : PlatformConstraints) (repoRoot goPrefix : string)
    : list string * option Package :=
  findPackage (mkPackageReader buildTags platforms repoRoot goPrefix dir).

(** *** [filepath.Walk]

    A directory tree as [filepath.Walk] meets it: a file, a directory with
    the error of listing it (if any) and its entries in the order of
    their names, or a name whose [Lstat] fails. *)
#[warnings="-register-all"]
Inductive fsnode : Type :=
  | FsFile (name : string)
  | FsDir (name : string) (readErr : option string) (entries : list fsnode)
  | FsBroken (name : string) (lstatErr : string).

Definition nodeName (n : fsnode) : string :=
  match n with
  | FsFile name | FsDir name _ _ | FsBroken name _ => name
  end.

Definition nodeIsDir (n : fsnode) : bool :=
  match n with FsDir _ _ _ => true | _ => false end.

(** What a [filepath.WalkFunc] returns. *)
Inductive walkErr : Type :=
  | WalkNil
  | SkipDir
  | WalkError (msg : string).

(** What the walker does that can be observed: a line of the log, or a
    call of the callback [f]. *)
Inductive event : Type :=
  | Logged (msg : string)
  | Called (pkg : Package).

Definition WalkFunc : Type :=
  string → option DirEntry → option string → list event * walkErr.

(** The loop of [walk] over the entries of a directory, where [walk] is
    the recursive call: an error other than [SkipDir] stops the loop, and
    so does [SkipDir] returned for a file. *)
Definition walkEntries (walk : string → fsnode → list event * walkErr)
    (path : string) : list fsnode → list event * walkErr :=
  fix loop (entries : list fsnode) : list event * walkErr :=
    match entries with
    | [] => ([], WalkNil)
    | c :: entries =>
      let filename := Join path (nodeName c) in
      let '(evc, err) := walk filename c in
      let stop :=
        match err with
        | WalkNil => false
        | SkipDir =>
          match c with
          | FsFile _ => true
          | _ => false
          end
        | WalkError _ => true
        end in
      if stop then (evc, err)
      else let '(evs, err) := loop entries in (evc ++ evs, err)
    end.

(** [walk] of [path/filepath], after the library's documentation: the
    function is called for the directory itself with the error of listing
    it; the entries are visited unless that call or the listing failed; an
    error other than [SkipDir] stops the walk. *)
Fixpoint filepath_walk (walkFn : WalkFunc) (path : string) (n : fsnode)
    {struct n} : list event * walkErr :=
  match n with
  | FsFile name => walkFn path (Some (mkDirEntry name false)) None
  | FsBroken _ err => walkFn path None (Some err)
  | FsDir name readErr entries =>
    let '(evs, err1) := walkFn path (Some (mkDirEntry name true)) readErr in
    match readErr, err1 with
    | None, WalkNil =>
      let '(evs', err) := walkEntries (filepath_walk walkFn) path entries in
      (evs ++ evs', err)
    | _, _ => (evs, err1)
    end
  end.

(** [filepath.Walk]. *)
Definition filepath_Walk (root : string) (tree : fsnode) (walkFn : WalkFunc)
    : list event * option string :=
  let '(evs, err) := filepath_walk walkFn root tree in
  (evs, match err with
        | WalkError msg => Some msg
        | _ => None
        end).

Definition skippedName (base : string) : bool :=
  bool_decide (base = "") || firstByteIs "." base
  || bool_decide (base = "testdata").

(** The function literal that [Walk] passes to [filepath.Walk]. With an
    error the file information is not looked at; without one it is
    present. *)
Definition walkFunc (buildTags : gmap string bool)
    (platforms : PlatformConstraints) (repoRoot goPrefix : string)
    : WalkFunc :=
  λ path info err,
    match err with
    | Some err => ([], WalkError err)
    | None =>
      match info with
      | None => ([], WalkError "nil pointer dereference")
      | Some info =>
        if negb (IsDir info) then ([], WalkNil)
        else if skippedName (Name info) then ([], SkipDir)
        else
          let '(log, pkg) :=
            FindPackage path buildTags platforms repoRoot goPrefix in
          (map Logged log ++
           match pkg with
           | Some pkg => [Called pkg]
           | None => []
           end, WalkNil)
      end
    end.

(** [Walk], on the directory tree [tree] found at [dir]. The result is
    the sequence of log lines and callback calls. *)
Definition Walk (buildTags : gmap string bool)
    (platforms : PlatformConstraints) (repoRoot goPrefix dir : string)
    (tree : fsnode) : list event :=
  let '(evs, err) :=
    filepath_Walk dir tree (walkFunc buildTags platforms repoRoot goPrefix) in
  match err with
  | Some err => evs ++ [Logged err]
  | None => evs
  end.

End walk.

End packages.

(** * The specification's wording

    Definitions that follow the words of the specification, to be compared
    with the code. *)
Module specified.
Import merger.

(** The existing elements that carry a keep marker. *)
Definition keptElements (old : option ListExpr) : list Expr :=
  filter shouldKeep (elements_of old).

(** "Every existing element carrying a keep marker, in original order,
    first; then every generated element whose literal string value does
    not match a kept element's value." *)
Definition mergeList_specified (gen old : option ListExpr) : list Expr :=
  keptElements old ++
  filter (λ v, stringValue v ∉ stringValue <$> keptElements old)
         (elements_of gen).

(** "Some top-level statement carries a before-comment or after-comment
    beginning with the ignore sentinel." *)
Definition hasIgnoreComment (f : File) : Prop :=
  ∃ s c rest, s ∈ Stmt f ∧
    (c ∈ Before (Comment_ s) ∨ c ∈ After (Comment_ s)) ∧
    Token c = gazelleIgnore +:+ rest.

(** The key and the list of a dictionary entry of the form
    ["key": [...]]. *)
Definition entryOfExpr (e : Expr) : option (string * ListExpr) :=
  match e with
  | EKeyValue kv =>
    match KeyValueExpr_Key kv, KeyValueExpr_Value kv with
    | EString k, EList v => Some (StringExpr_Value k, v)
    | _, _ => None
    end
  | _ => None
  end.

(** The entries of a dictionary that may be absent. *)
Definition dictEntries (d : option DictExpr) : list (string * ListExpr) :=
  omap entryOfExpr (match d with Some d => DictExpr_List d | None => [] end).

Definition dictKeys (d : option DictExpr) : list string := (dictEntries d).*1.

(** The list that a sequence of entries gives to a key: that of the last
    entry with this key, nil when there is none. *)
Definition valueOf (kvs : list (string * ListExpr)) (k : string)
    : option ListExpr :=
  snd <$> last (filter (λ kv, kv.1 = k) kvs).

(** "For each key, the merged list-value is
    mergeList(generated-list-for-key, existing-list-for-key)." *)
Definition mergedValueOf (gen old : option DictExpr) (k : string)
    : option ListExpr :=
  mergeList (valueOf (dictEntries gen) k) (valueOf (dictEntries old) k).

Definition emptyList : ListExpr := mkListExpr noComments [] false.

(** The entry ["k": v] as the merger writes it. *)
Definition entryExpr (k : string) (v : ListExpr) : Expr :=
  EKeyValue (mkKeyValueExpr noComments (EString (mkStringExpr noComments k))
               (EList v)).

(** "Build the union of condition keys from both sides. For each key, the
    merged list-value is mergeList(...). The default-case key is always
    retained (even if empty, coerced to an empty list) and always sorted
    last; all other keys sorted lexicographically ascending. If after
    merging there are no non-default keys and (no default case or its
    merged list is empty), the whole dictionary collapses to nil." *)
Definition mergeDict_specified (gen : option DictExpr) (old : DictExpr)
    : option DictExpr :=
  let keys := remove_dups (dictKeys (Some old) ++ dictKeys gen) in
  let merged := mergedValueOf gen (Some old) in
  let others := filter (λ k, k ≠ defaultCase ∧ is_Some (merged k)) keys in
  let haveDefault := bool_decide (defaultCase ∈ keys) in
  if decide (others = [] ∧
             (haveDefault = false ∨ elements_of (merged defaultCase) = []))
  then None
  else
    Some (mkDictExpr noComments
            ((λ k, entryExpr k (default emptyList (merged k))) <$>
               (sort_Strings others ++
                if haveDefault then [defaultCase] else []))
            true).

(** The elements of the lists of a dictionary. *)
Definition dictElements (d : option DictExpr) : list Expr :=
  dictEntries d ≫= λ kv, ListExpr_List kv.2.

(** The list elements of an attribute value: those of its list part and
    those of the lists of its select dictionary. A value of another shape
    has none. *)
Definition listElements (e : Expr) : list Expr :=
  match exprListAndDict (Some e) with
  | Return (l, d) => elements_of l ++ dictElements d
  | _ => []
  end.

(** The attribute names that are merged. *)
Definition mergeable (k : string) : Prop := k ∈ ["srcs"; "deps"; "library"].

(** *** Idempotence

    "Merging a generated rule-set against its own previously-merged
    output produces byte-identical structure." *)
Definition idempotent (genFile oldFile : File) : Prop :=
  ∀ merged,
    mergeFile genFile oldFile = Return (Some merged) →
    mergeFile genFile merged = Return (Some merged).

(** The form in which the merger writes expressions. The merger assumes
    that generated attributes have no comments; a generated file in the
    form below is, in addition, written the way the merger would write
    it. *)
Definition keepFree (l : list Expr) : Prop :=
  Forall (λ x, shouldKeep x = false) l.

(** A list without comments or keep markers, not empty, on one line. *)
Definition listNormal (l : ListExpr) : Prop :=
  ListExpr_Comments l = noComments ∧
  ListExpr_ForceMultiLine l = false ∧
  ListExpr_List l ≠ [] ∧
  keepFree (ListExpr_List l).

(** A dictionary without comments, on several lines: the keys other than
    the default case in strictly ascending order with lists in normal
    form, then possibly the default case, whose list may be empty; some
    list is not empty. *)
Definition dictNormal (d : DictExpr) : Prop :=
  ∃ (others : list string) (value : string → ListExpr) (haveDefault : bool),
    d = mkDictExpr noComments
          ((λ k, entryExpr k (value k)) <$>
             (others ++ if haveDefault then [defaultCase] else []))
          true ∧
    StronglySorted string_lt others ∧
    (defaultCase ∉ others) ∧
    (∀ k, k ∈ others → listNormal (value k)) ∧
    (haveDefault = true →
       listNormal (value defaultCase) ∨ value defaultCase = emptyList) ∧
    (others ≠ [] ∨
     (haveDefault = true ∧ ListExpr_List (value defaultCase) ≠ [])).

(** The value of a mergeable attribute: a string, a list, a select of a
    dictionary, the sum of a list on several lines and a select; or an
    expression that the merger does not look into. *)
Definition valueNormal (v : Expr) : Prop :=
  (∃ s, v = EString s) ∨
  (∃ msg, exprListAndDict (Some v) = Error msg) ∨
  (∃ l, v = EList l ∧ listNormal l) ∨
  (∃ d, v = selectCall d ∧ dictNormal d) ∨
  (∃ l d, v = EBinary (mkBinaryExpr noComments (EList (forceMultiLine l)) "+"
                         (selectCall d)) ∧
          listNormal l ∧ dictNormal d).

(** A rule: unnamed arguments, then attributes with distinct names; the
    values of the mergeable attributes are in normal form. *)
Definition ruleNormal (c : CallExpr) : Prop :=
  ∃ attrs,
    CallExpr_List c = unnamedArguments (CallExpr_List c) ++ attrs ∧
    Forall (λ e, is_Some (attrKey e)) attrs ∧
    NoDup (omap attrKey attrs) ∧
    ∀ b k, EBinary b ∈ attrs → attrKey (EBinary b) = Some k →
           mergeable k → valueNormal (BinaryExpr_Y b).

(** A load statement: a path, then symbols with strictly ascending
    names. *)
Definition loadNormal (c : CallExpr) : Prop :=
  ∃ path symbols,
    CallExpr_List c = path :: symbols ∧
    StronglySorted string_lt (stringValue <$> symbols).

(** A generated file: no ignore marker; every statement is a rule or a
    load statement in normal form; no statement matches an earlier one
    (two rules of the same kind and name, two loads of the same path). *)
Definition generatedNormal (genFile : File) : Prop :=
  shouldIgnore genFile = false ∧
  (∀ s, s ∈ Stmt genFile →
     ∃ c, s = ECall c ∧
          if decide (kind c = "load") then loadNormal c else ruleNormal c) ∧
  (∀ i j ci cj, i < j →
     Stmt genFile !! i = Some (ECall ci) →
     Stmt genFile !! j = Some (ECall cj) →
     match_ (mkFile [ECall ci]) cj = None).

End specified.

Module walker_specified.
Import packages.

(** The last segment of a path: what follows the last slash once the
    trailing slashes are removed. *)
Definition lastSegment (p : string) : string :=
  afterLastSlash "" (stripTrailingSlashes p).

Fixpoint onlySlashes (s : string) : bool :=
  match s with
  | EmptyString => true
  | String c s => bool_decide (c = slash) && onlySlashes s
  end.

Section specified.

Context `{api : PackageAPI}.

(** "Directory base name, or, only when this directory is the repository
    root, the last path segment of the prefix, falling back to "unnamed"
    if that segment is empty or all-slash." *)
Definition defaultPackageName_specified
    (pr : packageReader PlatformConstraints) : string :=
  if decide (dir pr ≠ repoRoot pr) then filepath_Base (dir pr)
  else
    let segment := lastSegment (goPrefix pr) in
    if onlySlashes segment then "unnamed" else segment.

(** "The packages that contain at least one compiled Go source file". *)
Definition packagesWithGo (packageMap : gmap string Package)
    : gmap string Package :=
  filter (λ kv, HasGo kv.2 = true) packageMap.

(** The selection policy, for a default package name [default]: what a
    result must be. The error carries the conflicting names and one file
    of each, in some order. *)
Definition selection (default : string) (d : string)
    (packageMap : gmap string Package) (result : error + Package) : Prop :=
  let withGo := packagesWithGo packageMap in
  (size withGo = 0 → result = inl (NoGoError d)) ∧
  (size withGo = 1 →
     ∃ name pkg, withGo !! name = Some pkg ∧ result = inr pkg) ∧
  (1 < size withGo →
     match withGo !! default with
     | Some pkg => result = inr pkg
     | None =>
       ∃ names files,
         result = inl (MultiplePackageError d names files) ∧
         length names = length files ∧
         zip names files ≡ₚ
           (λ kv, (kv.1, firstGoFile kv.2)) <$> map_to_list withGo
     end).

(** The directories below [path] that [Walk] is to visit: all of them but
    those with a skipped name, which are not entered. *)
Fixpoint directories (path : string) (n : fsnode) : list string :=
  match n with
  | FsDir name _ entries =>
    if skippedName name then []
    else path :: (entries ≫= λ c, directories (Join path (nodeName c)) c)
  | _ => []
  end.

(** What the visit of one directory shows: the lines that [FindPackage]
    logs and the call of the callback, if a package is found. *)
Definition visit (buildTags : gmap string bool)
    (platforms : PlatformConstraints) (repoRoot goPrefix path : string)
    : list event :=
  let '(log, pkg) := FindPackage path buildTags platforms repoRoot goPrefix in
  (Logged <$> log) ++ match pkg with Some pkg => [Called pkg] | None => [] end.

(** "An error encountered in one directory does not abort the traversal:
    sibling directories are still visited and their packages still passed
    to the callback." *)
Definition Walk_continues (buildTags : gmap string bool)
    (platforms : PlatformConstraints) (repoRoot goPrefix dir : string)
    (tree : fsnode) : Prop :=
  ∀ path pkg,
    path ∈ directories dir tree →
    (FindPackage path buildTags platforms repoRoot goPrefix).2 = Some pkg →
    Called pkg ∈ Walk buildTags platforms repoRoot goPrefix dir tree.

(** The tree walk meets no error of its own: every directory can be
    listed and every entry can be examined. *)
Fixpoint walkable (n : fsnode) : bool :=
  match n with
  | FsFile _ => true
  | FsBroken _ _ => false
  | FsDir _ readErr entries =>
    bool_decide (readErr = None) && forallb walkable entries
  end.

End specified.

(** A small instance of what [walk.go] uses, for examples: a package is
    its name, its directory and its Go files; a file's package is read
    from a table. *)
Record examplePackage : Type := mkExamplePackage {
  exName : string;
  exDir : string;
  exGoFiles : list string
}.

Definition exampleAPI (table : gmap string string)
    (listing : gmap string (list DirEntry)) : PackageAPI := {|
  Package := examplePackage;
  PlatformConstraints := unit;
  fileInfo := string * string;
  newPackage n d := mkExamplePackage n d [];
  HasGo p := bool_decide (exGoFiles p ≠ []);
  firstGoFile p := default "" (head (exGoFiles p));
  packageName info := info.2;
  isCgo _ := false;
  addFile p info _ _ _ :=
    (if HasSuffix info.1 ".go"
     then mkExamplePackage (exName p) (exDir p) (exGoFiles p ++ [info.1])
     else p, None);
  goFileInfo pr f :=
    match table !! f with
    | Some p => inr (f, p)
    | None => inl ("cannot read " +:+ f)
    end;
  otherFileInfo pr f := inr (f, "");
  ReadDir d :=
    match listing !! d with
    | Some l => inr l
    | None => inl ("open " +:+ d +:+ ": permission denied")
    end;
  Join d f := d +:+ "/" +:+ f;
  rangeMap m := map_to_list m;
  rangeMap_perm m := reflexivity _
|}.

End walker_specified.

(** * Properties *)

(** ** Lists *)

Lemma filter_all {A} (P : A → Prop) `{!∀ x, Decision (P x)} (l : list A) :
  (∀ x, x ∈ l → P x) → filter P l = l.
Proof.
  induction l as [|x l IH]; intros HP; [done|].
  rewrite filter_cons_True by (apply HP; left).
  f_equal. apply IH. intros y Hy. apply HP. by right.
Qed.

Lemma filter_none {A} (P : A → Prop) `{!∀ x, Decision (P x)} (l : list A) :
  (∀ x, x ∈ l → ¬ P x) → filter P l = [].
Proof.
  induction l as [|x l IH]; intros HP; [done|].
  rewrite filter_cons_False by (apply HP; left).
  apply IH. intros y Hy. apply HP. by right.
Qed.

(** ** Strings *)

Lemma HasPrefix_iff (s pre : string) :
  HasPrefix s pre = true ↔ ∃ rest, s = pre +:+ rest.
Proof.
  unfold HasPrefix. revert s. induction pre as [|c pre IH]; intros s.
  - simpl. split; [|by destruct s]. intros _. by exists s.
  - destruct s as [|c' s]; simpl.
    + split; [done|]. by intros [? ?].
    + destruct (Ascii.ascii_dec c c') as [->|Hne].
      * rewrite IH. split; intros [rest Hr]; exists rest.
        -- by rewrite Hr.
        -- by injection Hr.
      * split; [done|]. intros [rest Hr]. by injection Hr.
Qed.

Lemma existsb_elem_of {A} (f : A → bool) (l : list A) :
  existsb f l = true ↔ ∃ x, x ∈ l ∧ f x = true.
Proof.
  rewrite existsb_exists. by setoid_rewrite list_elem_of_In.
Qed.

(** ** Sorting strings *)

Lemma sort_Strings_Sorted (l : list string) : Sorted String.le (sort_Strings l).
Proof. apply (Sorted_merge_sort String.le). Qed.

Lemma sort_Strings_Permutation (l : list string) : sort_Strings l ≡ₚ l.
Proof. apply (merge_sort_Permutation String.le). Qed.

(** The sorted list depends on the elements only, not on their order:
    the order in which a map is traversed does not show after sorting. *)
Lemma sort_Strings_perm (l1 l2 : list string) :
  l1 ≡ₚ l2 → sort_Strings l1 = sort_Strings l2.
Proof.
  intros Hp. apply (Sorted_unique String.le); try apply sort_Strings_Sorted.
  by rewrite !sort_Strings_Permutation.
Qed.

Lemma sort_Strings_elem_of (l : list string) (x : string) :
  x ∈ sort_Strings l ↔ x ∈ l.
Proof. by rewrite sort_Strings_Permutation. Qed.

Lemma sort_Strings_strict (l : list string) :
  NoDup l → StronglySorted string_lt (sort_Strings l).
Proof.
  intros Hnd.
  assert (NoDup (sort_Strings l)) as Hnd'
    by (by rewrite sort_Strings_Permutation).
  pose proof (StronglySorted_merge_sort String.le l) as Hs.
  fold (sort_Strings l) in Hs.
  induction Hs as [|x xs Hs IH Hall]; [constructor|].
  apply NoDup_cons in Hnd' as [Hx Hnd']. constructor; [by apply IH|].
  apply Forall_forall. intros y Hy. split.
  - by eapply Forall_forall in Hall.
  - intros ->. done.
Qed.

Lemma sort_Strings_sorted_id (l : list string) :
  Sorted String.le l → sort_Strings l = l.
Proof.
  intros Hs. apply (Sorted_unique String.le); [apply sort_Strings_Sorted|done|].
  apply sort_Strings_Permutation.
Qed.

Module merger_facts.
Import merger.

(** *** Properties of [mergeList] *)

Lemma keepLoop_acc (old : list Expr) (merged : list Expr) (kept : gmap string bool) :
  foldl (λ '(merged, kept) v,
           if shouldKeep v then
             (merged ++ [v],
              let s := stringValue v in
              if decide (s ≠ "") then <[s := true]> kept else kept)
           else (merged, kept))
        (merged, kept) old
  = (merged ++ filter shouldKeep old,
     foldl (λ kept v,
              let s := stringValue v in
              if decide (s ≠ "") then <[s := true]> kept else kept)
           kept (filter shouldKeep old)).
Proof.
  revert merged kept. induction old as [|v old IH]; intros merged kept; simpl.
  - by rewrite app_nil_r.
  - destruct (shouldKeep v) eqn:Hk.
    + rewrite filter_cons_True by (by apply Is_true_true_2). rewrite IH.
      simpl. by rewrite <- app_assoc.
    + rewrite filter_cons_False by (by apply Is_true_false_2). apply IH.
Qed.

Lemma keepLoop_fst (old : list Expr) :
  (keepLoop old).1 = filter shouldKeep old.
Proof. unfold keepLoop. by rewrite keepLoop_acc. Qed.

Lemma kept_index_acc (l : list Expr) (kept : gmap string bool) (s : string) :
  index_bool
    (foldl (λ kept v,
              let s := stringValue v in
              if decide (s ≠ "") then <[s := true]> kept else kept)
           kept l) s = true
  ↔ index_bool kept s = true ∨ (s ≠ "" ∧ s ∈ stringValue <$> l).
Proof.
  revert kept. induction l as [|v l IH]; intros kept; simpl.
  - rewrite elem_of_nil. tauto.
  - rewrite IH, elem_of_cons. unfold index_bool. case_decide as Hv.
    + destruct (decide (s = stringValue v)) as [->|Hne].
      * rewrite lookup_insert_eq. simpl. tauto.
      * rewrite lookup_insert_ne by done. tauto.
    + split; [tauto|]. intros [?|[? [->|?]]]; tauto.
Qed.

Lemma keepLoop_snd (old : list Expr) (s : string) :
  index_bool (keepLoop old).2 s = true
  ↔ s ≠ "" ∧ s ∈ stringValue <$> filter shouldKeep old.
Proof.
  unfold keepLoop. rewrite keepLoop_acc. simpl. rewrite kept_index_acc.
  unfold index_bool. rewrite lookup_empty. simpl. split; [|tauto].
  by intros [?|?].
Qed.

Lemma genLoop_filter (kept : gmap string bool) (merged gen : list Expr) :
  genLoop kept merged gen
  = merged ++ filter (λ v, index_bool kept (stringValue v) = false) gen.
Proof.
  unfold genLoop. revert merged.
  induction gen as [|v gen IH]; intros merged; simpl.
  - by rewrite app_nil_r.
  - destruct (index_bool kept (stringValue v)) eqn:Hk.
    + rewrite filter_cons_False by (by rewrite Hk). apply IH.
    + rewrite filter_cons_True by done. rewrite IH. by rewrite <- app_assoc.
Qed.

(** The value [mergeList] computes when the old list is present. *)
Lemma mergeList_Some (gen : option ListExpr) (old : ListExpr) :
  mergeList gen (Some old) =
    let merged :=
      filter shouldKeep (ListExpr_List old) ++
      filter (λ v, index_bool (keepLoop (ListExpr_List old)).2 (stringValue v) = false)
             (elements_of gen) in
    if decide (length merged = 0) then None
    else Some (mkListExpr noComments merged false).
Proof.
  unfold mergeList. pose proof (keepLoop_fst (ListExpr_List old)) as Hfst.
  destruct (keepLoop (ListExpr_List old)) as [merged kept]. simpl in *.
  rewrite genLoop_filter. subst merged. by destruct gen.
Qed.

Lemma index_kept_false (old : list Expr) (s : string) :
  index_bool (keepLoop old).2 s = false
  ↔ s = "" ∨ s ∉ stringValue <$> filter shouldKeep old.
Proof.
  rewrite <- not_true_iff_false, keepLoop_snd.
  destruct (decide (s = "")); destruct (decide (s ∈ stringValue <$> filter shouldKeep old));
    tauto.
Qed.

(** The elements of the merged list, for all arguments. *)
Lemma mergeList_elements (gen old : option ListExpr) :
  elements_of (mergeList gen old) =
    filter shouldKeep (elements_of old) ++
    filter (λ v, index_bool (keepLoop (elements_of old)).2 (stringValue v) = false)
           (elements_of gen).
Proof.
  destruct old as [old|].
  - rewrite mergeList_Some. simpl. case_decide as Hlen; [|done].
    simpl. by apply nil_length_inv in Hlen.
  - simpl. rewrite filter_all; [done|].
    intros v _. unfold index_bool. by rewrite lookup_empty.
Qed.

(** C1, as the code has it: the kept elements of the existing list in
    their order, then the generated elements in their order, leaving out
    those whose string value is not empty and is the string value of a
    kept element. An element that is not a string literal has the empty
    string value, and so has the literal [""]: such generated elements
    are never left out. Generated elements are not compared with each
    other. *)
Theorem mergeList_kept_then_generated (gen old : option ListExpr) :
  elements_of (mergeList gen old) =
    specified.keptElements old ++
    filter (λ v, stringValue v = "" ∨
                 stringValue v ∉ stringValue <$> specified.keptElements old)
           (elements_of gen).
Proof.
  rewrite mergeList_elements. unfold specified.keptElements. f_equal.
  apply list_filter_iff. intros v. apply index_kept_false.
Qed.

(** The scenario of the specification: existing ["//a:a", "//b:b" # keep],
    generated ["//a:a", "//c:c"]. *)
Example mergeList_scenario :
  elements_of
    (mergeList (Some (list_of [str "//a:a"; str "//c:c"]))
               (Some (list_of [str "//a:a"; str_suffix "//b:b" "# keep"])))
  = [str_suffix "//b:b" "# keep"; str "//a:a"; str "//c:c"].
Proof. vm_compute. reflexivity. Qed.

(** C1 as worded fails on the empty string: the kept element [""] does
    not remove the generated element [""]. *)
Lemma mergeList_specified_fails :
  elements_of (mergeList (Some (list_of [str ""]))
                         (Some (list_of [str_suffix "" "# keep"])))
  ≠ specified.mergeList_specified (Some (list_of [str ""]))
                                  (Some (list_of [str_suffix "" "# keep"])).
Proof. vm_compute. discriminate. Qed.

(** C5, as the code has it: when there is an existing list, a merged list
    without elements is nil. *)
Theorem mergeList_empty_is_nil (gen : option ListExpr) (old : ListExpr) :
  elements_of (mergeList gen (Some old)) = [] →
  mergeList gen (Some old) = None.
Proof.
  rewrite mergeList_Some. simpl. case_decide as Hlen; [done|].
  simpl. intros Hnil. by rewrite Hnil in Hlen.
Qed.

Lemma mergeList_empty_is_nil_witness :
  mergeList None (Some (list_of [str "a.go"])) = None.
Proof. apply mergeList_empty_is_nil. vm_compute. reflexivity. Defined.

(** Without an existing list the generated list is returned as it is. *)
Lemma mergeList_nil_old (gen : option ListExpr) : mergeList gen None = gen.
Proof. reflexivity. Qed.

(** C5 as worded fails when there is no existing list and the generated
    list is empty: the result is that empty list, not nil. *)
Lemma mergeList_empty_not_nil :
  ¬ (∀ gen old : option ListExpr,
       elements_of (mergeList gen old) = [] → mergeList gen old = None).
Proof.
  intros H. specialize (H (Some (list_of [])) None). simpl in H.
  by specialize (H eq_refl).
Qed.


(** *** The ignore marker *)

Lemma shouldIgnore_iff (f : File) :
  shouldIgnore f = true ↔ specified.hasIgnoreComment f.
Proof.
  unfold shouldIgnore, specified.hasIgnoreComment.
  rewrite existsb_elem_of. split.
  - intros (s & Hs & Hc). apply orb_true_iff in Hc as [Hc|Hc];
      apply existsb_elem_of in Hc as (c & Hc & Hp);
      apply HasPrefix_iff in Hp as [rest Hp]; exists s, c, rest; auto.
  - intros (s & c & rest & Hs & Hc & Hp). exists s. split; [done|].
    assert (isIgnoreComment c = true) as Hi.
    { apply HasPrefix_iff. by exists rest. }
    apply orb_true_iff. destruct Hc as [Hc|Hc]; [right|left];
      apply existsb_elem_of; by exists c.
Qed.

(** C9: when a top-level statement of the existing file carries a before
    or after comment that begins with the ignore marker,
    [MergeWithExisting] returns nil; nothing is written and nothing is
    logged. *)
Theorem MergeWithExisting_ignored (Parse : string → string → string + File)
    (genFile oldFile : File) (existingFilePath oldData : string) (w : world) :
  files w !! existingFilePath = Some oldData →
  Parse existingFilePath oldData = inr oldFile →
  specified.hasIgnoreComment oldFile →
  MergeWithExisting Parse genFile existingFilePath w = (w, Return None).
Proof.
  intros Hread Hparse Hign%shouldIgnore_iff.
  unfold MergeWithExisting, ReadFile. rewrite Hread, Hparse.
  unfold mergeFile. by rewrite Hign.
Qed.

(** The scenario of the specification: the ignore marker stands before the
    first statement. *)
Lemma MergeWithExisting_ignored_witness :
  let oldFile :=
    mkFile [ECall (mkCallExpr (mkComments [mkComment "# gazelle:ignore"] [] [])
                     (lit "go_library") [] false false)] in
  let w := mkWorld {[ "BUILD" := "# gazelle:ignore" ]} [] in
  MergeWithExisting (λ _ _, inr oldFile)
    (mkFile [ECall (mkCallExpr noComments (lit "go_library") [] false false)])
    "BUILD" w
  = (w, Return None).
Proof.
  intros oldFile w.
  apply (MergeWithExisting_ignored (λ _ _, inr oldFile) _ oldFile "BUILD"
           "# gazelle:ignore" w).
  - reflexivity.
  - reflexivity.
  - eexists _, (mkComment "# gazelle:ignore"), "".
    split; [apply list_elem_of_here|].
    split; [left; apply list_elem_of_here|reflexivity].
Defined.

(** *** Load statements *)

Lemma ruleUsed_iff (rule : string) (f : File) :
  ruleUsed rule f = true
  ↔ ∃ call, ECall call ∈ Stmt f ∧ (rule = "" ∨ Rule_Kind call = rule).
Proof.
  unfold ruleUsed, File_Rules. rewrite bool_decide_eq_true. split.
  - intros Hlen.
    destruct (omap _ (Stmt f)) as [|call rules] eqn:Hrules; [done|].
    assert (call ∈ call :: rules) as Hin by left.
    rewrite <- Hrules in Hin. apply list_elem_of_omap in Hin as (s & Hs & Hc).
    destruct s as [| | | | |c| | |]; try done. case_decide as Hk; [done|].
    injection Hc as ->. exists call. split; [done|].
    destruct (decide (rule = "")); [by left|right].
    destruct (decide (Rule_Kind call = rule)); [done|]. by destruct Hk.
  - intros (call & Hin & Hk) Hlen. apply nil_length_inv in Hlen.
    assert (call ∈ omap (λ stmt, match stmt with
                                  | ECall call =>
                                    if decide (rule ≠ "" ∧ Rule_Kind call ≠ rule)
                                    then None else Some call
                                  | _ => None
                                  end) (Stmt f)) as Hc.
    { apply list_elem_of_omap. exists (ECall call). split; [done|].
      rewrite decide_False; [done|]. intros [? ?]. by destruct Hk. }
    rewrite Hlen in Hc. by apply elem_of_nil in Hc.
Qed.

(** The loop over the generated symbols. *)
Lemma genVals_lookup (l : list Expr) (m : gmap string Expr) (s : string) (v : Expr) :
  foldl (λ vals v, <[stringValue v := v]> vals) m l !! s = Some v →
  m !! s = Some v ∨ (v ∈ l ∧ stringValue v = s).
Proof.
  revert m. induction l as [|x l IH]; intros m; simpl; [by left|].
  intros [Hm|[Hin Hs]]%IH.
  - destruct (decide (stringValue x = s)) as [<-|Hne].
    + rewrite lookup_insert_eq in Hm. injection Hm as ->. right. split; [left|done].
    + rewrite lookup_insert_ne in Hm by done. by left.
  - right. split; [by right|done].
Qed.

Lemma genVals_dom (l : list Expr) (m : gmap string Expr) (s : string) :
  is_Some (foldl (λ vals v, <[stringValue v := v]> vals) m l !! s)
  ↔ is_Some (m !! s) ∨ s ∈ stringValue <$> l.
Proof.
  revert m. induction l as [|x l IH]; intros m; simpl.
  - rewrite elem_of_nil. tauto.
  - rewrite IH, elem_of_cons, lookup_insert_is_Some. 
    destruct (decide (stringValue x = s)); naive_solver.
Qed.

(** The loop over the existing symbols. *)
Lemma oldVals_lookup (f : File) (l : list Expr) (m : gmap string Expr)
    (s : string) (v : Expr) :
  foldl (λ vals v,
           let rule := stringValue v in
           match vals !! rule with
           | None => if ruleUsed rule f then <[rule := v]> vals else vals
           | Some _ => vals
           end) m l !! s = Some v →
  m !! s = Some v ∨ (v ∈ l ∧ stringValue v = s ∧ m !! s = None).
Proof.
  revert m. induction l as [|x l IH]; intros m; simpl; [by left|].
  intros [Hm|(Hin & Hs & Hm)]%IH.
  - destruct (m !! stringValue x) eqn:Hx; [by left|].
    destruct (ruleUsed (stringValue x) f); [|by left].
    destruct (decide (stringValue x = s)) as [<-|Hne].
    + rewrite lookup_insert_eq in Hm. injection Hm as ->. right.
      split; [left|done].
    + rewrite lookup_insert_ne in Hm by done. by left.
  - right. split; [by right|]. split; [done|].
    destruct (m !! stringValue x) eqn:Hx; [done|].
    destruct (ruleUsed (stringValue x) f); [|done].
    apply lookup_insert_None in Hm. tauto.
Qed.

Lemma oldVals_dom (f : File) (l : list Expr) (m : gmap string Expr) (s : string) :
  is_Some (foldl (λ vals v,
                    let rule := stringValue v in
                    match vals !! rule with
                    | None => if ruleUsed rule f then <[rule := v]> vals else vals
                    | Some _ => vals
                    end) m l !! s)
  ↔ is_Some (m !! s) ∨ (s ∈ stringValue <$> l ∧ ruleUsed s f = true).
Proof.
  revert m. induction l as [|x l IH]; intros m; simpl.
  - rewrite elem_of_nil. tauto.
  - rewrite IH, elem_of_cons. clear IH.
    destruct (m !! stringValue x) eqn:Hx.
    + split; [tauto|]. intros [?|[[->|?] ?]]; eauto.
    + destruct (ruleUsed (stringValue x) f) eqn:Hu.
      * rewrite lookup_insert_is_Some.
        destruct (decide (stringValue x = s)) as [<-|?]; naive_solver.
      * split; [tauto|]. intros [?|[[->|?] ?]]; eauto. congruence.
Qed.

Lemma collect_keys {A} (l : list (string * A)) (keys : list string) :
  foldl (λ keys kv, keys ++ [kv.1]) keys l = keys ++ l.*1.
Proof.
  revert keys. induction l as [|kv l IH]; intros keys; simpl.
  - by rewrite app_nil_r.
  - rewrite IH. by rewrite <- app_assoc.
Qed.

Lemma append_vals (vals : gmap string Expr) (keys : list string) (l : list Expr) :
  foldl (λ l k, l ++ option_list (vals !! k)) l keys
  = l ++ omap (λ k, vals !! k) keys.
Proof.
  revert l. induction keys as [|k keys IH]; intros l; simpl.
  - by rewrite app_nil_r.
  - rewrite IH, <- app_assoc. by destruct (vals !! k).
Qed.

Lemma omap_lookup_names (vals : gmap string Expr) (keys : list string) :
  (∀ s v, vals !! s = Some v → stringValue v = s) →
  (∀ k, k ∈ keys → is_Some (vals !! k)) →
  stringValue <$> omap (λ k, vals !! k) keys = keys.
Proof.
  intros Hname. induction keys as [|k keys IH]; intros Hdom; [done|].
  simpl. destruct (Hdom k) as [v Hv]; [left|]. rewrite Hv. simpl.
  rewrite (Hname _ _ Hv). f_equal. apply IH. intros k' Hk'. apply Hdom.
  by right.
Qed.


(** *** Dictionaries: the entries and their map *)

Import specified.

Lemma dictEntryKeyValue_Return (e : Expr) (k : string) (v : ListExpr) :
  dictEntryKeyValue e = Return (k, v) ↔ entryOfExpr e = Some (k, v).
Proof.
  unfold dictEntryKeyValue, entryOfExpr.
  destruct e as [| | | |kv| | | |]; try (split; discriminate).
  destruct (KeyValueExpr_Key kv); try (split; discriminate).
  destruct (KeyValueExpr_Value kv); try (split; discriminate).
  split; intros [= -> ->]; done.
Qed.

Lemma dictEntryKeyValue_Error (e : Expr) :
  entryOfExpr e = None → ∃ msg, dictEntryKeyValue e = Error msg.
Proof.
  unfold dictEntryKeyValue, entryOfExpr.
  destruct e as [| | | |kv| | | |]; try (intros _; eexists; reflexivity).
  destruct (KeyValueExpr_Key kv); try (intros _; eexists; reflexivity).
  destruct (KeyValueExpr_Value kv); try (intros _; eexists; reflexivity).
  discriminate.
Qed.

Lemma valueOf_nil (k : string) : valueOf [] k = None.
Proof. reflexivity. Qed.

Lemma valueOf_snoc (kvs : list (string * ListExpr)) (k k' : string) (v : ListExpr) :
  valueOf (kvs ++ [(k, v)]) k' =
    if decide (k = k') then Some v else valueOf kvs k'.
Proof.
  unfold valueOf. rewrite filter_app. case_decide as Hk.
  - rewrite filter_cons_True by done. rewrite filter_nil. by rewrite last_snoc.
  - rewrite filter_cons_False by done. by rewrite filter_nil, app_nil_r.
Qed.

Lemma valueOf_is_Some (kvs : list (string * ListExpr)) (k : string) :
  is_Some (valueOf kvs k) ↔ k ∈ kvs.*1.
Proof.
  unfold valueOf. rewrite fmap_is_Some, last_is_Some. split.
  - intros Hne. destruct (filter _ kvs) as [|[k' v] l] eqn:Hf; [done|].
    assert ((k', v) ∈ filter (λ kv, kv.1 = k) kvs) as Hin
      by (rewrite Hf; left).
    apply list_elem_of_filter in Hin as [Hk Hin]. simpl in Hk. subst k'.
    apply list_elem_of_fmap. by exists (k, v).
  - intros ([k' v] & -> & Hin)%list_elem_of_fmap Hnil.
    exact (filter_nil_not_elem_of _ _ (k', v) Hnil eq_refl Hin).
Qed.

Lemma valueOf_None (kvs : list (string * ListExpr)) (k : string) :
  k ∉ kvs.*1 → valueOf kvs k = None.
Proof.
  intros Hk. apply eq_None_not_Some. by rewrite valueOf_is_Some.
Qed.

(** The map gives the position of the entry of each key. *)
Definition consistent (entries : list dictEntry) (entryMap : gmap string nat)
    : Prop :=
  ∀ k i, entryMap !! k = Some i ↔ (key <$> entries) !! i = Some k.

Lemma consistent_nil : consistent [] ∅.
Proof. intros k i. by rewrite lookup_empty. Qed.

Lemma consistent_NoDup (entries : list dictEntry) (entryMap : gmap string nat) :
  consistent entries entryMap → NoDup (key <$> entries).
Proof.
  intros Hc. apply NoDup_alt. intros i j k Hi%Hc Hj%Hc. congruence.
Qed.

Lemma consistent_fresh (entries : list dictEntry) (entryMap : gmap string nat)
    (k : string) :
  consistent entries entryMap → entryMap !! k = None ↔ k ∉ key <$> entries.
Proof.
  intros Hc. split.
  - intros Hnone (i & Hi)%list_elem_of_lookup. apply Hc in Hi. congruence.
  - intros Hk. apply eq_None_not_Some. intros [i Hi%Hc].
    apply Hk. by eapply list_elem_of_lookup_2.
Qed.

Lemma consistent_snoc (entries : list dictEntry) (entryMap : gmap string nat)
    (e : dictEntry) :
  consistent entries entryMap → entryMap !! key e = None →
  consistent (entries ++ [e]) (<[key e := length entries]> entryMap).
Proof.
  intros Hc Hnone k i. rewrite fmap_app. simpl.
  rewrite lookup_insert_Some, lookup_snoc_Some, length_fmap.
  split.
  - intros [[<- <-]|[? Hi%Hc]]; [by right|left]. split; [|done].
    apply lookup_lt_Some in Hi. by rewrite length_fmap in Hi.
  - intros [[Hi Hk%Hc]|[-> ->]]; [right|by left]. split; [|done].
    intros <-. congruence.
Qed.

Lemma consistent_alter (entries : list dictEntry) (entryMap : gmap string nat)
    (f : dictEntry → dictEntry) (i : nat) :
  consistent entries entryMap → (∀ e, key (f e) = key e) →
  consistent (alter f i entries) entryMap.
Proof.
  intros Hc Hf k j. rewrite (Hc k j).
  rewrite (list_fmap_alter key f id)
    by (apply Forall_forall; intros; apply Hf).
  by rewrite list_alter_id.
Qed.

Lemma consistent_fmap (entries : list dictEntry) (entryMap : gmap string nat)
    (f : dictEntry → dictEntry) :
  consistent entries entryMap → (∀ e, key (f e) = key e) →
  consistent (f <$> entries) entryMap.
Proof.
  intros Hc Hf k j. rewrite (Hc k j), <- list_fmap_compose.
  by rewrite (list_fmap_ext (key ∘ f) key entries) by (intros; apply Hf).
Qed.

(** [entryMap[k]] is the entry with key [k]. *)
Lemma entryOf_Some (entries : list dictEntry) (entryMap : gmap string nat)
    (k : string) (e : dictEntry) :
  consistent entries entryMap →
  entryOf entries entryMap k = Some e ↔ e ∈ entries ∧ key e = k.
Proof.
  intros Hc. unfold entryOf. split.
  - destruct (entryMap !! k) as [i|] eqn:Hi; [simpl|done]. intros He.
    split; [by eapply list_elem_of_lookup_2|].
    apply Hc in Hi. rewrite list_lookup_fmap, He in Hi. by injection Hi.
  - intros [(i & Hi)%list_elem_of_lookup <-].
    assert (entryMap !! key e = Some i) as ->; [|done].
    apply Hc. by rewrite list_lookup_fmap, Hi.
Qed.

Lemma entryOf_fmap (entries : list dictEntry) (entryMap : gmap string nat)
    (f : dictEntry → dictEntry) (k : string) :
  entryOf (f <$> entries) entryMap k = f <$> entryOf entries entryMap k.
Proof.
  unfold entryOf. destruct (entryMap !! k); [simpl|done].
  apply list_lookup_fmap.
Qed.

(** What the entries stand for once the existing entries [O] and the
    generated entries [G] are read. *)
Record represents (entries : list dictEntry) (entryMap : gmap string nat)
    (O G : list (string * ListExpr)) : Prop := mkRepresents {
  rep_consistent : consistent entries entryMap;
  rep_keys : ∀ k, k ∈ key <$> entries ↔ k ∈ O.*1 ∨ k ∈ G.*1;
  rep_values : ∀ e, e ∈ entries →
    oldValue e = valueOf O (key e) ∧ genValue e = valueOf G (key e)
}.

Lemma represents_nil : represents [] ∅ [] [].
Proof.
  split; [apply consistent_nil| |].
  - intros k. simpl. rewrite elem_of_nil. tauto.
  - intros e Hin. by apply elem_of_nil in Hin.
Qed.

Lemma oldEntries_represents (l : list Expr) :
  ∀ entries entryMap O entries' entryMap',
    represents entries entryMap O [] →
    oldEntries l entries entryMap = Return (entries', entryMap') →
    represents entries' entryMap' (O ++ omap entryOfExpr l) [].
Proof.
  induction l as [|kv l IH]; intros entries entryMap O entries' entryMap' Hrep.
  - simpl. intros [= <- <-]. by rewrite app_nil_r.
  - simpl.
    destruct (dictEntryKeyValue kv) as [[k v]| |] eqn:Hkv; simpl; try done.
    apply dictEntryKeyValue_Return in Hkv. rewrite Hkv.
    destruct (entryMap !! k) as [i|] eqn:Hk; [done|].
    intros Hold. rewrite cons_middle, (assoc_L (++)). eapply IH; [|done].
    destruct Hrep as [Hc Hkeys Hvals].
    pose proof (proj1 (consistent_fresh _ _ k Hc) Hk) as Hfresh.
    split.
    + by apply (consistent_snoc entries entryMap (mkDictEntry k (Some v) None None)).
    + intros k'. rewrite !fmap_app, !elem_of_app, Hkeys. simpl.
      rewrite !list_elem_of_singleton, elem_of_nil. tauto.
    + intros e [He|He%list_elem_of_singleton]%elem_of_app; [|subst e].
      * destruct (Hvals e He) as [-> ->]. rewrite valueOf_snoc.
        rewrite decide_False; [done|]. intros ->. apply Hfresh.
        by apply list_elem_of_fmap_2.
      * simpl. rewrite valueOf_snoc. by rewrite decide_True.
Qed.

Lemma genEntries_represents (l : list Expr) :
  ∀ entries entryMap O G entries' entryMap',
    represents entries entryMap O G →
    genEntries l entries entryMap = Return (entries', entryMap') →
    represents entries' entryMap' O (G ++ omap entryOfExpr l).
Proof.
  induction l as [|kv l IH]; intros entries entryMap O G entries' entryMap' Hrep.
  - simpl. intros [= <- <-]. by rewrite app_nil_r.
  - simpl.
    destruct (dictEntryKeyValue kv) as [[k v]| |] eqn:Hkv; simpl; try done.
    apply dictEntryKeyValue_Return in Hkv. rewrite Hkv.
    destruct Hrep as [Hc Hkeys Hvals].
    destruct (entryMap !! k) as [i|] eqn:Hk.
    + intros Hgen. rewrite cons_middle, (assoc_L (++)). eapply IH; [|done].
      pose proof (proj1 (Hc k i) Hk) as Hi.
      assert (key <$> alter (set_genValue (Some v)) i entries = key <$> entries)
        as Hkeys'.
      { rewrite (list_fmap_alter key _ id) by (by apply Forall_forall).
        by rewrite list_alter_id. }
      split.
      * by apply consistent_alter.
      * intros k'. rewrite Hkeys', Hkeys, fmap_app, elem_of_app. simpl.
        rewrite list_elem_of_singleton. split; [tauto|].
        intros [?|[?| ->]]; [tauto..|].
        apply Hkeys. by eapply list_elem_of_lookup_2.
      * intros e' (j & Hj)%list_elem_of_lookup.
        rewrite list_lookup_alter in Hj. case_decide as Hij.
        -- subst j. rewrite list_lookup_fmap in Hi.
           destruct (entries !! i) as [e|] eqn:He; [|done].
           injection Hi as Hi. injection Hj as <-. simpl.
           destruct (Hvals e) as [-> _]; [by eapply list_elem_of_lookup_2|].
           rewrite valueOf_snoc, Hi. by rewrite decide_True.
        -- destruct (Hvals e') as [-> ->]; [by eapply list_elem_of_lookup_2|].
           rewrite valueOf_snoc. rewrite decide_False; [done|].
           intros ->. apply Hij.
           assert (entryMap !! key e' = Some j) as Hj'
             by (apply Hc; by rewrite list_lookup_fmap, Hj).
           congruence.
    + intros Hgen. rewrite cons_middle, (assoc_L (++)). eapply IH; [|done].
      pose proof (proj1 (consistent_fresh _ _ k Hc) Hk) as Hfresh.
      split.
      * by apply (consistent_snoc entries entryMap (mkDictEntry k None (Some v) None)).
      * intros k'. rewrite !fmap_app, !elem_of_app, Hkeys. simpl.
        rewrite !list_elem_of_singleton. tauto.
      * intros e [He|He%list_elem_of_singleton]%elem_of_app; [|subst e].
        -- destruct (Hvals e He) as [-> ->]. rewrite valueOf_snoc.
           rewrite decide_False; [done|]. intros ->. apply Hfresh.
           by apply list_elem_of_fmap_2.
        -- simpl. rewrite valueOf_snoc. rewrite decide_True by done.
           split; [|done]. symmetry. apply valueOf_None.
           intros HO. apply Hfresh, Hkeys. by left.
Qed.

(** The merged value that the loop of [mergeDict] gives to an entry. *)
Definition mergedOf (e : dictEntry) : option ListExpr :=
  let m := mergeList (genValue e) (oldValue e) in
  if decide (key e = defaultCase) then Some (default emptyList m) else m.

Definition mergeOne (e : dictEntry) : dictEntry :=
  set_mergedValue (mergedOf e) e.

(** The entries whose key goes into [keys]. *)
Definition live (e : dictEntry) : Prop :=
  key e ≠ defaultCase ∧ is_Some (mergeList (genValue e) (oldValue e)).

#[local] Instance live_dec (e : dictEntry) : Decision (live e).
Proof. unfold live. apply _. Defined.

Lemma mergeEntry_eq (e : dictEntry) (done : list dictEntry)
    (keys : list string) (haveDefault : bool) :
  mergeEntry (done, keys, haveDefault) e
  = (done ++ [mergeOne e],
     keys ++ (key <$> filter live [e]),
     haveDefault || bool_decide (key e = defaultCase)).
Proof.
  unfold mergeEntry, mergeOne, mergedOf.
  destruct (decide (key e = defaultCase)) as [Hk|Hk].
  - rewrite filter_cons_False by (intros [? _]; done).
    rewrite bool_decide_eq_true_2, orb_true_r by done. simpl.
    rewrite app_nil_r. by destruct (mergeList (genValue e) (oldValue e)).
  - rewrite bool_decide_eq_false_2, orb_false_r by done.
    destruct (mergeList (genValue e) (oldValue e)) as [m|] eqn:Hm.
    + by rewrite filter_cons_True by (split; [done|by rewrite Hm]).
    + rewrite filter_cons_False by (intros [_ []]; congruence).
      simpl. by rewrite app_nil_r.
Qed.

Lemma mergeEntries_acc (entries done : list dictEntry) (keys : list string)
    (haveDefault : bool) :
  foldl mergeEntry (done, keys, haveDefault) entries
  = (done ++ (mergeOne <$> entries),
     keys ++ (key <$> filter live entries),
     haveDefault || bool_decide (defaultCase ∈ key <$> entries)).
Proof.
  revert done keys haveDefault.
  induction entries as [|e entries IH]; intros done keys haveDefault.
  - simpl. by rewrite !app_nil_r, orb_false_r.
  - cbn [foldl]. rewrite mergeEntry_eq, IH. clear IH.
    rewrite <- !(assoc_L (++)), <- fmap_app, <- filter_app. simpl.
    f_equal. rewrite <- orb_assoc. f_equal.
    rewrite <- bool_decide_or. apply bool_decide_ext.
    rewrite elem_of_cons. naive_solver.
Qed.

Lemma mergeEntries_eq (entries : list dictEntry) :
  mergeEntries entries
  = (mergeOne <$> entries, key <$> filter live entries,
     bool_decide (defaultCase ∈ key <$> entries)).
Proof. unfold mergeEntries. by rewrite mergeEntries_acc. Qed.

Lemma mergedEntries_Return (entries : list dictEntry)
    (entryMap : gmap string nat) (value : string → ListExpr)
    (keys : list string) :
  (∀ k, k ∈ keys → ∃ e, entryOf entries entryMap k = Some e ∧ key e = k ∧
                        mergedValue e = Some (value k)) →
  mergedEntries entries entryMap keys
  = Return ((λ k, entryExpr k (value k)) <$> keys).
Proof.
  induction keys as [|k keys IH]; intros Hkeys; [done|].
  simpl. destruct (Hkeys k) as (e & -> & Hk & ->); [left|].
  rewrite IH by (intros k' Hk'; apply Hkeys; by right). simpl.
  by rewrite Hk.
Qed.

(** The entries that represent the two dictionaries give to each key the
    merged value of the specification. *)
Lemma represents_merged (entries : list dictEntry) (entryMap : gmap string nat)
    (gen old : option DictExpr) (e : dictEntry) :
  represents entries entryMap (dictEntries old) (dictEntries gen) →
  e ∈ entries →
  mergeList (genValue e) (oldValue e) = mergedValueOf gen old (key e).
Proof.
  intros [_ _ Hvals] He. unfold mergedValueOf.
  by destruct (Hvals e He) as [-> ->].
Qed.

Lemma represents_live_keys (entries : list dictEntry)
    (entryMap : gmap string nat) (gen old : option DictExpr) :
  represents entries entryMap (dictEntries old) (dictEntries gen) →
  key <$> filter live entries ≡ₚ
  filter (λ k, k ≠ defaultCase ∧ is_Some (mergedValueOf gen old k))
         (remove_dups (dictKeys old ++ dictKeys gen)).
Proof.
  intros Hrep. apply NoDup_Permutation.
  - apply (sublist_NoDup _ (key <$> entries)).
    + apply (consistent_NoDup entries entryMap), Hrep.
    + apply fmap_sublist, sublist_filter.
  - apply NoDup_filter, NoDup_remove_dups.
  - intros k. rewrite list_elem_of_filter, elem_of_remove_dups, elem_of_app.
    unfold dictKeys. rewrite <- (rep_keys _ _ _ _ Hrep).
    rewrite !list_elem_of_fmap. split.
    + intros (e & -> & [[Hk Hm] He]%list_elem_of_filter).
      rewrite <- (represents_merged _ _ _ _ _ Hrep He). eauto.
    + intros [[Hk Hm] (e & -> & He)]. exists e. split; [done|].
      apply list_elem_of_filter. split; [|done]. split; [done|].
      by rewrite (represents_merged _ _ _ _ _ Hrep He).
Qed.

(** Once the two loops over the entries have succeeded, [mergeDict]
    returns the dictionary of the specification. *)
Lemma mergeDict_after_loops (gen : option DictExpr) (old : DictExpr)
    (es1 entries : list dictEntry) (m1 entryMap : gmap string nat) :
  oldEntries (DictExpr_List old) [] ∅ = Return (es1, m1) →
  genEntries (DictExpr_List (default (mkDictExpr noComments [] false) gen))
             es1 m1 = Return (entries, entryMap) →
  mergeDict gen (Some old) = Return (mergeDict_specified gen old).
Proof.
  intros Hold Hgen. unfold mergeDict. rewrite Hold. simpl.
  rewrite Hgen. simpl.
  assert (represents entries entryMap (dictEntries (Some old)) (dictEntries gen))
    as Hrep.
  { eapply oldEntries_represents in Hold; [|apply represents_nil].
    eapply genEntries_represents in Hgen; [|done].
    simpl in Hgen. unfold dictEntries. by destruct gen. }
  rewrite mergeEntries_eq.
  pose proof (represents_live_keys _ _ _ _ Hrep) as Hlive.
  pose proof (rep_consistent _ _ _ _ Hrep) as Hc.
  assert (consistent (mergeOne <$> entries) entryMap) as Hc'
    by (by apply consistent_fmap).
  assert (bool_decide (defaultCase ∈ key <$> entries)
          = bool_decide (defaultCase ∈
              remove_dups (dictKeys (Some old) ++ dictKeys gen))) as Hhave.
  { apply bool_decide_ext.
    rewrite elem_of_remove_dups, elem_of_app. apply (rep_keys _ _ _ _ Hrep). }
  assert (∀ k e, e ∈ entries → key e = k →
            entryOf (mergeOne <$> entries) entryMap k = Some (mergeOne e) ∧
            mergedValue (mergeOne e) =
              if decide (k = defaultCase)
              then Some (default emptyList (mergedValueOf gen (Some old) k))
              else mergedValueOf gen (Some old) k) as Hentry.
  { intros k e He <-. split.
    - apply entryOf_Some; [done|]. split; [by apply list_elem_of_fmap_2|done].
    - simpl. unfold mergedOf.
      by rewrite (represents_merged _ _ _ _ _ Hrep He). }
  unfold mergeDict_specified. rewrite <- Hhave.
  set (others := filter _ (remove_dups _)) in *.
  set (keys := key <$> filter live entries) in *.
  set (have := bool_decide (defaultCase ∈ key <$> entries)) in *.
  assert (keys = [] ↔ others = []) as Hnil.
  { split; intros Hn; rewrite Hn in Hlive.
    - by apply Permutation_nil_l in Hlive.
    - by apply Permutation_nil_r in Hlive. }
  (* the test for the collapse *)
  assert ((if decide (length keys = 0) then
             if negb have then Return true
             else
               match entryOf (mergeOne <$> entries) entryMap defaultCase with
               | Some e =>
                 match mergedValue e with
                 | Some v => Return (bool_decide (length (ListExpr_List v) = 0))
                 | None => Panic "nil pointer dereference"
                 end
               | None => Panic "nil pointer dereference"
               end
           else Return false)
          = Return (bool_decide
              (others = [] ∧
               (have = false ∨
                elements_of (mergedValueOf gen (Some old) defaultCase) = []))))
    as ->.
  { destruct (decide (length keys = 0)) as [Hlen|Hlen].
    - apply nil_length_inv in Hlen. apply Hnil in Hlen.
      destruct have eqn:Hh; simpl.
      + apply bool_decide_eq_true in Hh.
        apply list_elem_of_fmap in Hh as (e & Hk & He).
        destruct (Hentry defaultCase e He) as [-> ->]; [done|].
        rewrite decide_True by done. f_equal. apply bool_decide_ext.
        destruct (mergedValueOf gen (Some old) defaultCase) as [v|]; simpl.
        * rewrite length_zero_iff_nil. naive_solver.
        * naive_solver.
      + f_equal. symmetry. apply bool_decide_eq_true. auto.
    - f_equal. symmetry. apply bool_decide_eq_false. intros [Ho _].
      apply Hnil in Ho. by rewrite Ho in Hlen. }
  simpl.
  destruct (decide (others = [] ∧
              (have = false ∨
               elements_of (mergedValueOf gen (Some old) defaultCase) = [])))
    as [Hcollapse|Hcollapse].
  - by rewrite bool_decide_eq_true_2 by done.
  - rewrite bool_decide_eq_false_2 by done.
    replace (if have then sort_Strings keys ++ [defaultCase]
             else sort_Strings keys)
      with (sort_Strings others ++ if have then [defaultCase] else [])
      by (rewrite (sort_Strings_perm keys others Hlive);
          destruct have; [done|by rewrite app_nil_r]).
    rewrite (mergedEntries_Return _ _
               (λ k, default emptyList (mergedValueOf gen (Some old) k))).
    + done.
    + intros k Hk.
      assert (k ∈ key <$> entries ∧
              (k ≠ defaultCase → is_Some (mergedValueOf gen (Some old) k)))
        as [(e & -> & He)%list_elem_of_fmap Hsome].
      { apply elem_of_app in Hk as [Hk|Hk].
        - rewrite sort_Strings_elem_of in Hk. unfold others in Hk.
          apply list_elem_of_filter in Hk as [[Hne Hm] Hk].
          apply elem_of_remove_dups, elem_of_app, (rep_keys _ _ _ _ Hrep) in Hk.
          done.
        - destruct have eqn:Hh; [|by apply elem_of_nil in Hk].
          apply list_elem_of_singleton in Hk as ->. split; [|done].
          by apply bool_decide_eq_true in Hh. }
      exists (mergeOne e). destruct (Hentry (key e) e He eq_refl) as [-> ->].
      split; [done|]. split; [done|].
      destruct (decide (key e = defaultCase)) as [Hd|Hd]; [done|].
      by destruct (Hsome Hd) as [v ->].
Qed.


Lemma oldEntries_not_Panic (l : list Expr) (entries : list dictEntry)
    (entryMap : gmap string nat) (msg : string) :
  oldEntries l entries entryMap ≠ Panic msg.
Proof.
  revert entries entryMap. induction l as [|kv l IH]; intros entries entryMap;
    [done|].
  simpl. destruct (entryOfExpr kv) as [[k v]|] eqn:Hkv.
  - apply dictEntryKeyValue_Return in Hkv. rewrite Hkv. simpl.
    destruct (entryMap !! k); [done|apply IH].
  - apply dictEntryKeyValue_Error in Hkv as [msg' ->]. done.
Qed.

Lemma genEntries_not_Panic (l : list Expr) (entries : list dictEntry)
    (entryMap : gmap string nat) (msg : string) :
  genEntries l entries entryMap ≠ Panic msg.
Proof.
  revert entries entryMap. induction l as [|kv l IH]; intros entries entryMap;
    [done|].
  simpl. destruct (entryOfExpr kv) as [[k v]|] eqn:Hkv.
  - apply dictEntryKeyValue_Return in Hkv. rewrite Hkv. simpl.
    destruct (entryMap !! k); apply IH.
  - apply dictEntryKeyValue_Error in Hkv as [msg' ->]. done.
Qed.

(** [mergeDict] with an existing dictionary: a result is the dictionary of
    the specification. *)
Lemma mergeDict_Return (gen : option DictExpr) (old : DictExpr)
    (r : option DictExpr) :
  mergeDict gen (Some old) = Return r → r = mergeDict_specified gen old.
Proof.
  intros Hr.
  destruct (oldEntries (DictExpr_List old) [] ∅) as [[es1 m1]| |] eqn:Hold;
    [|unfold mergeDict in Hr; by rewrite Hold in Hr..].
  destruct (genEntries
              (DictExpr_List (default (mkDictExpr noComments [] false) gen))
              es1 m1) as [[entries entryMap]| |] eqn:Hgen;
    [|unfold mergeDict in Hr; rewrite Hold in Hr; simpl in Hr;
      by rewrite Hgen in Hr..].
  rewrite (mergeDict_after_loops _ _ _ _ _ _ Hold Hgen) in Hr. congruence.
Qed.

(** [mergeDict] does not crash. *)
Lemma mergeDict_not_Panic (gen old : option DictExpr) (msg : string) :
  mergeDict gen old ≠ Panic msg.
Proof.
  destruct old as [old|]; [|done]. intros Hr.
  destruct (oldEntries (DictExpr_List old) [] ∅) as [[es1 m1]| |] eqn:Hold.
  - destruct (genEntries
                (DictExpr_List (default (mkDictExpr noComments [] false) gen))
                es1 m1) as [[entries entryMap]| |] eqn:Hgen.
    + by rewrite (mergeDict_after_loops _ _ _ _ _ _ Hold Hgen) in Hr.
    + unfold mergeDict in Hr. rewrite Hold in Hr. simpl in Hr.
      by rewrite Hgen in Hr.
    + by apply genEntries_not_Panic in Hgen.
  - unfold mergeDict in Hr. by rewrite Hold in Hr.
  - by apply oldEntries_not_Panic in Hold.
Qed.

Lemma filter_nil_iff {A} (P : A → Prop) `{!∀ x, Decision (P x)} (l : list A) :
  filter P l = [] ↔ ∀ x, x ∈ l → ¬ P x.
Proof.
  split.
  - intros Hnil x Hx HP. by eapply filter_nil_not_elem_of.
  - apply filter_none.
Qed.

(** C2: when [mergeDict] accepts a generated and an existing dictionary,
    - the result is nil exactly when no key other than the default case
      has a merged value and the default case is absent or its merged
      list is empty;
    - otherwise the result lists the keys other than the default case
      that have a merged value, in strictly ascending order and each with
      its merged value, and then, when either dictionary had it, the
      default case with its merged list, an empty list if that is nil. *)
Theorem mergeDict_default_last (gen : option DictExpr) (old : DictExpr)
    (r : option DictExpr) :
  mergeDict gen (Some old) = Return r →
  let keys := dictKeys (Some old) ++ dictKeys gen in
  let merged := mergedValueOf gen (Some old) in
  (r = None ↔
     (∀ k, k ∈ keys → k ≠ defaultCase → merged k = None) ∧
     (defaultCase ∉ keys ∨ elements_of (merged defaultCase) = [])) ∧
  (∀ d, r = Some d →
     ∃ others,
       DictExpr_List d =
         (λ k, entryExpr k (default emptyList (merged k))) <$>
           (others ++ if bool_decide (defaultCase ∈ keys)
                      then [defaultCase] else []) ∧
       StronglySorted string_lt others ∧
       (∀ k, k ∈ others ↔ k ∈ keys ∧ k ≠ defaultCase ∧ is_Some (merged k))).
Proof.
  intros Hr%mergeDict_Return keys merged. subst r.
  unfold mergeDict_specified. fold keys. fold merged.
  set (others := filter _ (remove_dups keys)).
  assert (bool_decide (defaultCase ∈ remove_dups keys)
          = bool_decide (defaultCase ∈ keys)) as ->
    by (apply bool_decide_ext, elem_of_remove_dups).
  assert (others = [] ↔ ∀ k, k ∈ keys → k ≠ defaultCase → merged k = None)
    as Hothers.
  { unfold others. rewrite filter_nil_iff.
    setoid_rewrite elem_of_remove_dups. split.
    - intros H k Hk Hne. apply eq_None_not_Some. intros Hs. by apply (H k).
    - intros H k Hk [Hne Hs]. rewrite (H k Hk Hne) in Hs. by destruct Hs. }
  assert (bool_decide (defaultCase ∈ keys) = false ↔ defaultCase ∉ keys)
    as Hhave by apply bool_decide_eq_false.
  destruct (decide (others = [] ∧
              (bool_decide (defaultCase ∈ keys) = false ∨
               elements_of (merged defaultCase) = []))) as [Hc|Hc].
  { split; [|done]. split; [|done]. intros _.
    by rewrite <- Hothers, <- Hhave. }
  split.
  - split; [done|]. intros Hc'. destruct Hc. by rewrite Hothers, Hhave.
  - intros d Hd. injection Hd as <-. simpl.
    exists (sort_Strings others). split; [done|]. split.
    + apply sort_Strings_strict, NoDup_filter, NoDup_remove_dups.
    + intros k. rewrite sort_Strings_elem_of. unfold others.
      rewrite list_elem_of_filter, elem_of_remove_dups. tauto.
Qed.

Lemma mergeDict_default_last_witness :
  let kv k l := EKeyValue (mkKeyValueExpr noComments (str k) (EList (list_of l))) in
  let gen : DictExpr :=
    mkDictExpr noComments
      [kv "linux" [str "b.go"]; kv defaultCase []; kv "darwin" [str "a.go"]]
      true in
  let old : DictExpr :=
    mkDictExpr noComments [kv "windows" [str_suffix "c.go" "# keep"]] true in
  ∃ d, mergeDict (Some gen) (Some old) = Return (Some d) ∧
       ∃ others,
         DictExpr_List d =
           (λ k, entryExpr k (default emptyList
                                (mergedValueOf (Some gen) (Some old) k))) <$>
             (others ++ [defaultCase]) ∧
         StronglySorted string_lt others.
Proof.
  intros kv gen old. eexists. split; [vm_compute; reflexivity|].
  edestruct (mergeDict_default_last (Some gen) old) as [_ Hd];
    [vm_compute; reflexivity|].
  destruct (Hd _ eq_refl) as (others & Hlist & Hsorted & _).
  exists others. split; [exact Hlist|exact Hsorted].
Defined.

(** *** Rules *)

Lemma exprListAndDict_not_Panic (e : option Expr) (msg : string) :
  exprListAndDict e ≠ Panic msg.
Proof.
  unfold exprListAndDict.
  repeat (first [done | case_match]).
Qed.

Lemma mergeExpr_not_Panic (gen : option Expr) (old : Expr) (msg : string) :
  mergeExpr gen (Some old) ≠ Panic msg.
Proof.
  assert (∀ gen',
    (exprListAndDict gen' ≫= λ '(genList, genDict),
       exprListAndDict (Some old) ≫= λ '(oldList, oldDict),
         let mergedList := mergeList genList oldList in
         mergeDict genDict oldDict ≫= λ mergedDict,
           let mergedSelect := selectCall <$> mergedDict in
           match mergedList with
           | None => Return mergedSelect
           | Some l =>
             match mergedSelect with
             | None => Return (Some (EList l))
             | Some sel =>
               Return (Some (EBinary (mkBinaryExpr noComments
                                        (EList (forceMultiLine l)) "+" sel)))
             end
           end) ≠ Panic msg) as Hgeneral.
  { intros gen'.
    destruct (exprListAndDict gen') as [[genList genDict]| |] eqn:Hg; cbn [mbind outcome_bind obind];
      [|done|by apply exprListAndDict_not_Panic in Hg].
    destruct (exprListAndDict (Some old)) as [[oldList oldDict]| |] eqn:Ho;
      cbn [mbind outcome_bind obind]; [|done|by apply exprListAndDict_not_Panic in Ho].
    destruct (mergeDict genDict oldDict) as [d| |] eqn:Hd; cbn [mbind outcome_bind obind];
      [|done|by apply mergeDict_not_Panic in Hd].
    destruct (mergeList genList oldList); [|done]. by destruct d. }
  unfold mergeExpr. destruct gen as [[]|]; try apply Hgeneral.
  by destruct (shouldKeep old).
Qed.

(** The value that [mergeRule] gives to a mergeable attribute: the result
    of [mergeExpr], the generated value when [mergeExpr] fails. *)
Definition mergedAttrValue (genExpr : option Expr) (oldExpr : Expr)
    : option Expr :=
  match mergeExpr genExpr (Some oldExpr) with
  | Return m => m
  | Error _ => genExpr
  | Panic _ => None
  end.

(** What one attribute of the old rule contributes to the merged rule. *)
Definition attrPiece (gen old : CallExpr) (k : string) : list Expr :=
  match Rule_AttrDefn old k with
  | None => []
  | Some oldAttr =>
    if negb (index_bool mergeableFields k) then [EBinary oldAttr]
    else
      match mergedAttrValue (Rule_Attr gen k) (BinaryExpr_Y oldAttr) with
      | Some m => [EBinary (setY oldAttr m)]
      | None => []
      end
  end.

Lemma attrDefnIn_Some (l : list Expr) (k : string) (b : BinaryExpr) :
  attrDefnIn l k = Some b → attrKey (EBinary b) = Some k ∧ EBinary b ∈ l.
Proof.
  induction l as [|e l IH]; [done|]. simpl.
  destruct e as [| | | | | |b'| |];
    try (intros [? ?]%IH; split; [done|by right]).
  case_decide as Hk.
  - intros [= <-]. split; [done|left].
  - intros [? ?]%IH; split; [done|by right].
Qed.

Lemma attrDefnIn_is_Some (l : list Expr) (k : string) :
  is_Some (attrDefnIn l k) ↔ k ∈ omap attrKey l.
Proof.
  induction l as [|e l IH]; simpl.
  - rewrite elem_of_nil. split; [by intros [? ?]|done].
  - destruct (attrKey e) as [k'|] eqn:Hk.
    + rewrite elem_of_cons, <- IH.
      destruct e as [| | | | | |b| |]; try done.
      destruct (decide (Some k' = Some k)) as [Hkk|Hkk].
      * injection Hkk as ->. split; [by left|by eexists].
      * split; [by right|]. intros [->|?]; done.
    + rewrite <- IH. by destruct e as [| | | | | |b| |].
Qed.

Lemma attrDefnIn_None (l : list Expr) (k : string) :
  (∀ e, e ∈ l → attrKey e ≠ Some k) → attrDefnIn l k = None.
Proof.
  intros Hl. apply eq_None_not_Some. rewrite attrDefnIn_is_Some.
  intros (e & He & Hk)%list_elem_of_omap. by apply (Hl e).
Qed.

Lemma attrDefnIn_app (l1 l2 : list Expr) (k : string) :
  attrDefnIn (l1 ++ l2) k =
    match attrDefnIn l1 k with
    | Some b => Some b
    | None => attrDefnIn l2 k
    end.
Proof.
  induction l1 as [|e l1 IH]; [done|]. simpl.
  destruct e; try apply IH. by case_decide.
Qed.

Lemma attrKey_setY (b : BinaryExpr) (y : Expr) :
  attrKey (EBinary (setY b y)) = attrKey (EBinary b).
Proof. reflexivity. Qed.

Lemma attrKey_isAssignment (e : Expr) :
  isAssignment e = false → attrKey e = None.
Proof.
  destruct e as [| | | | | |b| |]; try done. simpl.
  intros Hb%bool_decide_eq_false. by rewrite decide_False.
Qed.

Lemma unnamedArguments_attrKey (l : list Expr) (e : Expr) :
  e ∈ unnamedArguments l → attrKey e = None.
Proof.
  induction l as [|a l IH]; simpl; [by intros ?%elem_of_nil|].
  destruct (isAssignment a) eqn:Ha; [by intros ?%elem_of_nil|].
  intros [->|?]%elem_of_cons; [by apply attrKey_isAssignment|by apply IH].
Qed.

Lemma attrPiece_key (gen old : CallExpr) (k : string) (e : Expr) :
  e ∈ attrPiece gen old k → attrKey e = Some k.
Proof.
  unfold attrPiece.
  destruct (Rule_AttrDefn old k) as [oldAttr|] eqn:Hdef;
    [|by intros ?%elem_of_nil].
  apply attrDefnIn_Some in Hdef as [Hk _].
  destruct (negb _).
  - by intros ->%list_elem_of_singleton.
  - destruct (mergedAttrValue _ _); [|by intros ?%elem_of_nil].
    by intros ->%list_elem_of_singleton.
Qed.

Lemma mergeAttr_Return (gen old : CallExpr) (mlist : list Expr) (k : string) :
  k ∈ Rule_AttrKeys old →
  mergeAttr gen old mlist k = Return (mlist ++ attrPiece gen old k).
Proof.
  intros Hk%attrDefnIn_is_Some. unfold mergeAttr, attrPiece, Rule_AttrDefn.
  destruct Hk as [oldAttr ->]. destruct (negb _); [done|].
  unfold mergedAttrValue.
  destruct (mergeExpr _ _) as [[m|]|msg|msg] eqn:Hm; simpl;
    try by rewrite ?app_nil_r.
  - by destruct (Rule_Attr gen k); simpl; rewrite ?app_nil_r.
  - by apply mergeExpr_not_Panic in Hm.
Qed.

Lemma mergeAttrs_Return (gen old : CallExpr) (ks : list string) :
  ∀ mlist, (∀ k, k ∈ ks → k ∈ Rule_AttrKeys old) →
  mergeAttrs gen old mlist ks = Return (mlist ++ (ks ≫= attrPiece gen old)).
Proof.
  induction ks as [|k ks IH]; intros mlist Hks; simpl.
  - by rewrite app_nil_r.
  - rewrite mergeAttr_Return by (apply Hks; left). simpl.
    rewrite IH by (intros k' Hk'; apply Hks; by right).
    by rewrite (assoc_L (++)).
Qed.

(** The arguments of the merged rule before the new attributes are added. *)
Definition mergedArguments (gen old : CallExpr) : list Expr :=
  unnamedArguments (CallExpr_List old) ++
  (Rule_AttrKeys old ≫= attrPiece gen old).

(** [mergeRule] returns. *)
Lemma mergeRule_Return (gen old : CallExpr) :
  mergeRule gen old
  = Return (addNewAttrs gen (setList old (mergedArguments gen old))).
Proof. unfold mergeRule. by rewrite mergeAttrs_Return. Qed.

Lemma mergeable_iff (k : string) :
  index_bool mergeableFields k = true ↔ mergeable k.
Proof.
  unfold mergeable, index_bool, mergeableFields.
  rewrite !elem_of_cons, elem_of_nil.
  destruct (decide (k = "srcs")) as [->|?]; [split; [by left|done]|].
  rewrite lookup_insert_ne by done.
  destruct (decide (k = "deps")) as [->|?]; [split; [by right; left|done]|].
  rewrite lookup_insert_ne by done.
  destruct (decide (k = "library")) as [->|?];
    [split; [by right; right; left|done]|].
  rewrite lookup_singleton_ne by done. simpl. naive_solver.
Qed.

Lemma attrDefnIn_pieces (gen old : CallExpr) (ks : list string) (k : string) :
  attrDefnIn (ks ≫= attrPiece gen old) k =
    if decide (k ∈ ks) then attrDefnIn (attrPiece gen old k) k else None.
Proof.
  induction ks as [|k' ks IH]; [done|].
  rewrite bind_cons, attrDefnIn_app, IH. clear IH.
  destruct (decide (k' = k)) as [->|Hne].
  - rewrite (decide_True (P := k ∈ k :: ks)) by left.
    destruct (attrDefnIn (attrPiece gen old k) k); [done|]. by case_decide.
  - rewrite attrDefnIn_None.
    + apply decide_ext. rewrite elem_of_cons. naive_solver.
    + intros e He%attrPiece_key. congruence.
Qed.

Lemma mergedArguments_AttrDefn (gen old : CallExpr) (k : string) :
  attrDefnIn (mergedArguments gen old) k =
    if decide (k ∈ Rule_AttrKeys old) then attrDefnIn (attrPiece gen old k) k
    else None.
Proof.
  unfold mergedArguments. rewrite attrDefnIn_app, attrDefnIn_None.
  - apply attrDefnIn_pieces.
  - intros e He%unnamedArguments_attrKey. congruence.
Qed.

Lemma Rule_Attr_None (r : CallExpr) (k : string) :
  Rule_Attr r k = None ↔ k ∉ Rule_AttrKeys r.
Proof.
  unfold Rule_Attr, Rule_AttrDefn, Rule_AttrKeys.
  rewrite fmap_None, <- attrDefnIn_is_Some, eq_None_not_Some. done.
Qed.

(** The new attributes of the generated rule do not touch the attributes
    that the generated rule does not have. *)
Lemma addNewAttrs_other (gen merged : CallExpr) (k : string) :
  k ∉ Rule_AttrKeys gen →
  Rule_AttrDefn (addNewAttrs gen merged) k = Rule_AttrDefn merged k.
Proof.
  unfold addNewAttrs. generalize (Rule_AttrKeys gen). intros ks.
  revert merged. induction ks as [|k' ks IH]; intros merged Hk; [done|].
  apply not_elem_of_cons in Hk as [Hne Hk]. simpl. rewrite IH by done.
  destruct (Rule_Attr merged k') as [?|] eqn:Hk'; [done|].
  destruct (Rule_Attr gen k') as [v|]; [|done].
  unfold Rule_SetAttr. apply fmap_None in Hk'. rewrite Hk'.
  unfold Rule_AttrDefn. simpl. rewrite attrDefnIn_app.
  destruct (attrDefnIn (CallExpr_List merged) k); [done|].
  apply attrDefnIn_None. intros e He. apply list_elem_of_singleton in He.
  subst e. cbn. by intros [= ?].
Qed.

(** The elements of the list that [mergeList] makes of an existing list
    alone are its kept elements. *)
Lemma mergeList_nil_gen_elements (old : option ListExpr) :
  elements_of (mergeList None old) = keptElements old.
Proof. rewrite mergeList_elements. simpl. by rewrite app_nil_r. Qed.

Lemma mergeList_nil_gen (old : ListExpr) :
  mergeList None (Some old) =
    if decide (keptElements (Some old) = []) then None
    else Some (mkListExpr noComments (keptElements (Some old)) false).
Proof.
  rewrite mergeList_Some. simpl. rewrite app_nil_r.
  unfold keptElements. simpl.
  destruct (filter shouldKeep (ListExpr_List old)); by repeat case_decide.
Qed.

Lemma mergeList_Some_nonempty (gen old : option ListExpr) (l : ListExpr) :
  is_Some old → mergeList gen old = Some l → ListExpr_List l ≠ [].
Proof.
  intros [o ->]. rewrite mergeList_Some. simpl.
  case_decide as Hlen; [done|]. intros [= <-] Hnil. simpl in Hnil.
  by rewrite Hnil in Hlen.
Qed.

Lemma dictEntries_entryExpr (value : string → ListExpr) (keys : list string)
    (fml : bool) :
  dictEntries (Some (mkDictExpr noComments
                       ((λ k, entryExpr k (value k)) <$> keys) fml))
  = (λ k, (k, value k)) <$> keys.
Proof.
  unfold dictEntries. simpl. induction keys as [|k keys IH]; [done|].
  simpl. f_equal. apply IH.
Qed.

Lemma valueOf_Some_elem_of (kvs : list (string * ListExpr)) (k : string)
    (v : ListExpr) :
  valueOf kvs k = Some v → (k, v) ∈ kvs.
Proof.
  unfold valueOf. intros Hv. apply fmap_Some in Hv as ([k' v'] & Hlast & ->).
  apply last_Some_elem_of, list_elem_of_filter in Hlast as [Hk Hin].
  simpl in Hk. by subst k'.
Qed.

(** The dictionary that [mergeDict] makes of an existing dictionary alone:
    its elements are kept elements of the existing dictionary, and there
    is at least one. *)
Lemma mergeDict_nil_gen_elements (old d : DictExpr) :
  mergeDict_specified None old = Some d →
  dictElements (Some d) ≠ [] ∧
  ∀ x, x ∈ dictElements (Some d) →
       shouldKeep x = true ∧ x ∈ dictElements (Some old).
Proof.
  unfold mergeDict_specified.
  set (keys := remove_dups _). set (merged := mergedValueOf None (Some old)).
  set (others := filter _ keys). set (have := bool_decide _).
  assert (∀ k, elements_of (merged k)
               = keptElements (valueOf (dictEntries (Some old)) k)) as Hmerged.
  { intros k. unfold merged, mergedValueOf. simpl.
    apply mergeList_nil_gen_elements. }
  assert (∀ k, ListExpr_List (default emptyList (merged k))
               = elements_of (merged k)) as Hdefault.
  { intros k. by destruct (merged k). }
  case_decide as Hc; [done|]. intros [= <-].
  unfold dictElements. rewrite dictEntries_entryExpr. split.
  - intros Hnil. apply Hc.
    assert (∀ k, k ∈ sort_Strings others ++ (if have then [defaultCase] else [])
                 → elements_of (merged k) = []) as Hall.
    { intros k Hk. rewrite <- Hdefault.
      assert (ListExpr_List (default emptyList (merged k)) ⊆ []) as Hsub.
      { rewrite <- Hnil. intros x Hx. apply list_elem_of_bind.
        exists (k, default emptyList (merged k)). split; [done|].
        apply list_elem_of_fmap. by exists k. }
      destruct (ListExpr_List (default emptyList (merged k))) as [|x l];
        [done|]. specialize (Hsub x). rewrite elem_of_nil in Hsub.
      destruct Hsub. left. }
    split.
    + apply filter_nil_iff. intros k Hk [Hne [l Hl]].
      assert (k ∈ others) as Hko.
      { apply list_elem_of_filter. split; [|done]. split; [done|by exists l]. }
      assert (valueOf (dictEntries (Some old)) k ≠ None) as Hv.
      { intros Hv. unfold merged, mergedValueOf in Hl. simpl in Hl.
        by rewrite Hv in Hl. }
      eapply (mergeList_Some_nonempty None _ l); [|exact Hl|].
      * by apply not_eq_None_Some.
      * specialize (Hall k). fold merged in Hl. rewrite Hl in Hall.
        apply Hall. apply elem_of_app. left. by rewrite sort_Strings_elem_of.
    + destruct have; [right|by left]. apply Hall.
      apply elem_of_app. right. left.
  - intros x (kv & Hx & (k & -> & Hk)%list_elem_of_fmap)%list_elem_of_bind.
    simpl in Hx. rewrite Hdefault, Hmerged in Hx.
    apply list_elem_of_filter in Hx as [Hkeep Hx].
    split; [by apply Is_true_true_1|].
    destruct (valueOf (dictEntries (Some old)) k) as [l|] eqn:Hv;
      [|by apply elem_of_nil in Hx].
    apply list_elem_of_bind. exists (k, l). split; [done|].
    by apply valueOf_Some_elem_of.
Qed.

(** How [mergeExpr] puts the merged list and the merged dictionary
    together. *)
Definition recombine (mergedList : option ListExpr)
    (mergedDict : option DictExpr) : option Expr :=
  match mergedList with
  | None => selectCall <$> mergedDict
  | Some l =>
    match mergedDict with
    | None => Some (EList l)
    | Some d =>
      Some (EBinary (mkBinaryExpr noComments (EList (forceMultiLine l)) "+"
                       (selectCall d)))
    end
  end.

(** [mergeExpr] when the generated expression is not a string. *)
Lemma mergeExpr_parts (gen old : option Expr) :
  (∀ s, gen ≠ Some (EString s)) →
  mergeExpr gen old =
    '(genList, genDict) ← exprListAndDict gen;
    '(oldList, oldDict) ← exprListAndDict old;
    mergedDict ← mergeDict genDict oldDict;
    Return (recombine (mergeList genList oldList) mergedDict).
Proof.
  intros Hns. unfold mergeExpr, recombine.
  destruct gen as [[s| | | | | | | |]|]; [by destruct (Hns s)|..];
    unfold mbind, outcome_bind, obind;
    repeat case_match; simplify_eq/=; done.
Qed.

Lemma listElements_recombine (ml : option ListExpr) (md : option DictExpr)
    (v : Expr) :
  recombine ml md = Some v →
  listElements v = elements_of ml ++ dictElements md.
Proof.
  unfold recombine, listElements.
  destruct ml as [l|], md as [d|]; intros [= <-]; try done.
Qed.

Lemma mergedAttrValue_nil_gen_list (l : ListExpr) :
  mergedAttrValue None (EList l) = EList <$> mergeList None (Some l).
Proof.
  unfold mergedAttrValue. rewrite mergeExpr_parts by done. simpl.
  by destruct (mergeList None (Some l)).
Qed.

Lemma mergedAttrValue_nil_gen (e v : Expr) :
  mergedAttrValue None e = Some v →
  listElements v ≠ [] ∧
  ∀ x, x ∈ listElements v → shouldKeep x = true ∧ x ∈ listElements e.
Proof.
  unfold mergedAttrValue. rewrite mergeExpr_parts by done.
  unfold listElements at 3.
  change (exprListAndDict None) with
    (Return (None : option ListExpr, None : option DictExpr)).
  cbn [mbind outcome_bind obind].
  destruct (exprListAndDict (Some e)) as [[ol od]| |] eqn:He;
    cbn [mbind outcome_bind obind]; [|done..].
  destruct (mergeDict None od) as [md| |] eqn:Hmd;
    cbn [mbind outcome_bind obind]; [|done..].
  intros Hv. rewrite (listElements_recombine _ _ _ Hv).
  rewrite mergeList_nil_gen_elements.
  assert (dictElements md ≠ [] ∨ md = None) as Hmd_ne.
  { destruct md as [d|]; [left|by right]. destruct od as [od|]; [|done].
    apply mergeDict_Return in Hmd. symmetry in Hmd.
    by apply mergeDict_nil_gen_elements in Hmd as [? _]. }
  assert (∀ x, x ∈ dictElements md →
               shouldKeep x = true ∧ x ∈ dictElements od) as Hmd_in.
  { destruct md as [d|]; [|by intros x ?%elem_of_nil].
    destruct od as [od|]; [|done].
    apply mergeDict_Return in Hmd. symmetry in Hmd.
    by apply mergeDict_nil_gen_elements in Hmd as [_ ?]. }
  split.
  - intros [Hk Hd]%app_eq_nil. destruct Hmd_ne as [?|Hnone]; [done|].
    subst md.
    destruct (mergeList None ol) as [l|] eqn:Hl; [|done].
    pose proof (mergeList_nil_gen_elements ol) as Hel.
    rewrite Hl, Hk in Hel. simpl in Hel.
    eapply mergeList_Some_nonempty; [|exact Hl|exact Hel].
    destruct ol; [done|]. by simpl in Hl.
  - intros x [Hx|Hx]%elem_of_app; rewrite elem_of_app.
    + apply list_elem_of_filter in Hx as [Hkeep Hx].
      split; [by apply Is_true_true_1|by left].
    + destruct (Hmd_in x Hx). auto.
Qed.

(** C10: a mergeable attribute that the existing rule has and the
    generated rule has not.
    - When its value is a list, the merged rule has the attribute with
      the kept elements of that list, in their order, and does not have
      the attribute when no element is kept.
    - Whatever its value, when the merged rule has the attribute its
      value has list elements, and each of them is an element of the
      existing value that carries a keep marker. *)
Theorem mergeRule_absent_attribute (gen old : CallExpr) (k : string)
    (oldAttr : BinaryExpr) :
  mergeable k →
  Rule_AttrDefn old k = Some oldAttr →
  Rule_Attr gen k = None →
  ∃ merged,
    mergeRule gen old = Return merged ∧
    (∀ l, BinaryExpr_Y oldAttr = EList l →
       Rule_Attr merged k =
         if decide (keptElements (Some l) = []) then None
         else Some (EList (mkListExpr noComments (keptElements (Some l)) false))) ∧
    (∀ v, Rule_Attr merged k = Some v →
       listElements v ≠ [] ∧
       ∀ x, x ∈ listElements v →
            shouldKeep x = true ∧ x ∈ listElements (BinaryExpr_Y oldAttr)).
Proof.
  intros Hm%mergeable_iff Hold Hgen. eexists. split; [apply mergeRule_Return|].
  assert (Rule_Attr (addNewAttrs gen (setList old (mergedArguments gen old))) k
          = mergedAttrValue None (BinaryExpr_Y oldAttr)) as ->.
  { unfold Rule_Attr at 1. rewrite addNewAttrs_other by (by apply Rule_Attr_None).
    unfold Rule_AttrDefn at 1. simpl. rewrite mergedArguments_AttrDefn.
    rewrite decide_True
      by (apply attrDefnIn_is_Some; unfold Rule_AttrDefn in Hold;
          by rewrite Hold).
    unfold attrPiece. rewrite Hold, Hm, Hgen. simpl.
    destruct (mergedAttrValue None (BinaryExpr_Y oldAttr)) as [m|]; [|done].
    apply attrDefnIn_Some in Hold as [Hk _]. cbn [attrDefnIn].
    by rewrite decide_True by (by rewrite attrKey_setY). }
  split.
  - intros l ->. rewrite mergedAttrValue_nil_gen_list, mergeList_nil_gen.
    by case_decide.
  - apply mergedAttrValue_nil_gen.
Qed.

Lemma mergeRule_absent_attribute_witness :
  let attr k v :=
    EBinary (mkBinaryExpr noComments (lit k) "=" v) in
  let old : CallExpr :=
    mkCallExpr noComments (lit "go_library")
      [attr "name" (str "go_default_library");
       attr "deps" (EList (list_of [str "//a:a"; str_suffix "//b:b" "# keep"]))]
      false false in
  let gen : CallExpr :=
    mkCallExpr noComments (lit "go_library")
      [attr "name" (str "go_default_library")] false false in
  ∃ merged,
    mergeRule gen old = Return merged ∧
    Rule_Attr merged "deps"
    = Some (EList (list_of [str_suffix "//b:b" "# keep"])).
Proof.
  intros attr old gen.
  destruct (mergeRule_absent_attribute gen old "deps"
              (mkBinaryExpr noComments (lit "deps") "="
                 (EList (list_of [str "//a:a"; str_suffix "//b:b" "# keep"]))))
    as (merged & Hmerged & Hlist & _).
  - unfold mergeable. do 1 apply list_elem_of_further. apply list_elem_of_here.
  - vm_compute. reflexivity.
  - vm_compute. reflexivity.
  - exists merged. split; [exact Hmerged|]. apply (Hlist _ eq_refl).
Defined.
End merger_facts.


(** ** Idempotence of the merger *)
Module idempotence.
Import merger specified merger_facts.

Definition attribute (k : string) (v : Expr) : Expr :=
  EBinary (mkBinaryExpr noComments (lit k) "=" v).


(** *** Lists *)

Lemma keepFree_filter (l : list Expr) :
  keepFree l → filter shouldKeep l = [].
Proof.
  intros Hfree. apply filter_none. intros x Hx Hkeep.
  eapply Forall_forall in Hfree; [|done]. apply Is_true_true_1 in Hkeep.
  congruence.
Qed.

Lemma keepFree_filter_sub (P : Expr → Prop) `{!∀ x, Decision (P x)}
    (l : list Expr) :
  keepFree l → filter shouldKeep (filter P l) = [].
Proof.
  intros Hfree. apply keepFree_filter. unfold keepFree in *.
  rewrite Forall_forall in *. intros x [_ Hx]%list_elem_of_filter. auto.
Qed.

Lemma filter_filter_same {A} (P : A → Prop) `{!∀ x, Decision (P x)}
    (l : list A) :
  filter P (filter P l) = filter P l.
Proof. apply filter_all. by intros x [? _]%list_elem_of_filter. Qed.

(** The merged list depends on the elements of the existing list only. *)
Lemma mergeList_same_List (gen : option ListExpr) (o o' : ListExpr) :
  ListExpr_List o = ListExpr_List o' →
  mergeList gen (Some o) = mergeList gen (Some o').
Proof. intros Heq. rewrite !mergeList_Some. by rewrite Heq. Qed.

Lemma index_kept_same (l l' : list Expr) (s : string) :
  filter shouldKeep l = filter shouldKeep l' →
  index_bool (keepLoop l).2 s = index_bool (keepLoop l').2 s.
Proof.
  intros Heq.
  destruct (index_bool (keepLoop l).2 s) eqn:Hl; symmetry.
  - apply keepLoop_snd. rewrite <- Heq. by apply keepLoop_snd.
  - apply index_kept_false. rewrite <- Heq. by apply index_kept_false.
Qed.

(** Merging the generated list into the list merged before changes
    nothing. *)
Lemma mergeList_idem (gl : option ListExpr) (o m : ListExpr) :
  keepFree (elements_of gl) →
  mergeList gl (Some o) = Some m →
  mergeList gl (Some m) = Some m.
Proof.
  intros Hfree. rewrite !mergeList_Some. cbn zeta.
  set (merged := filter shouldKeep (ListExpr_List o) ++ _).
  case_decide as Hlen; [done|]. intros [= <-]. simpl.
  assert (filter shouldKeep merged = filter shouldKeep (ListExpr_List o))
    as Hkept.
  { unfold merged. rewrite filter_app, filter_filter_same.
    by rewrite keepFree_filter_sub, app_nil_r. }
  rewrite Hkept.
  rewrite (list_filter_iff
             (λ v, index_bool (keepLoop merged).2 (stringValue v) = false)
             (λ v, index_bool (keepLoop (ListExpr_List o)).2 (stringValue v)
                   = false)).
  - fold merged. by rewrite decide_False.
  - intros v. by rewrite (index_kept_same merged (ListExpr_List o)).
Qed.

(** A list in normal form merged into a list with the same elements. *)
Lemma mergeList_self (l l' : ListExpr) :
  listNormal l → ListExpr_List l' = ListExpr_List l →
  mergeList (Some l) (Some l') = Some l.
Proof.
  intros (Hcomments & Hfml & Hne & Hfree) Heq.
  rewrite mergeList_Some. cbn zeta. rewrite Heq. simpl.
  rewrite keepFree_filter by done. simpl.
  rewrite filter_all.
  - rewrite decide_False by (by intros ?%nil_length_inv).
    destruct l. simpl in *. by subst.
  - intros v _. apply index_kept_false. right.
    rewrite keepFree_filter by done. apply not_elem_of_nil.
Qed.

(** A generated list in normal form always gives a merged list. *)
Lemma mergeList_normal_is_Some (l : ListExpr) (ol : option ListExpr) :
  listNormal l → is_Some (mergeList (Some l) ol).
Proof.
  intros (_ & _ & Hne & _). destruct ol as [o|]; [|by eexists].
  rewrite mergeList_Some. cbn zeta. simpl.
  rewrite decide_False; [by eexists|]. intros Hlen%nil_length_inv.
  apply app_eq_nil in Hlen as [Hkept Hgen].
  rewrite filter_all in Hgen; [done|].
  intros v _. apply index_kept_false. right. rewrite Hkept.
  apply not_elem_of_nil.
Qed.

(** When nothing is merged, nothing is kept and nothing is generated. *)
Lemma mergeList_None_inv (gl : option ListExpr) (o : ListExpr) :
  mergeList gl (Some o) = None →
  filter shouldKeep (ListExpr_List o) = [] ∧ elements_of gl = [].
Proof.
  rewrite mergeList_Some. cbn zeta. case_decide as Hlen; [|done]. intros _.
  apply nil_length_inv, app_eq_nil in Hlen as [Hkept Hgen].
  split; [done|]. rewrite filter_all in Hgen; [done|].
  intros v _. apply index_kept_false. right. rewrite Hkept.
  apply not_elem_of_nil.
Qed.

Lemma mergeList_elements_nil (gl : option ListExpr) (o : ListExpr) :
  filter shouldKeep (ListExpr_List o) = [] → elements_of gl = [] →
  mergeList gl (Some o) = None.
Proof.
  intros Hkept Hgen. rewrite mergeList_Some. cbn zeta.
  by rewrite Hkept, Hgen.
Qed.

(** *** Dictionaries *)

Definition decodable (e : Expr) : Prop := is_Some (entryOfExpr e).

Lemma oldEntries_success (l : list Expr) :
  ∀ entries entryMap O,
    represents entries entryMap O [] →
    Forall decodable l →
    NoDup (O.*1 ++ (omap entryOfExpr l).*1) →
    ∃ r, oldEntries l entries entryMap = Return r.
Proof.
  induction l as [|kv l IH]; intros entries entryMap O Hrep Hdec Hnd.
  - by eexists.
  - apply Forall_cons in Hdec as [[[k v] Hkv] Hdec].
    simpl in Hnd. rewrite Hkv in Hnd. simpl in Hnd.
    assert (entryMap !! k = None) as Hfresh.
    { apply (consistent_fresh entries entryMap k (rep_consistent _ _ _ _ Hrep)).
      rewrite (rep_keys _ _ _ _ Hrep).
      intros [Hk|Hk]; [|by apply elem_of_nil in Hk].
      apply NoDup_app in Hnd as (_ & Hnd & _). apply (Hnd k Hk). left. }
    assert (oldEntries [kv] entries entryMap
            = Return (entries ++ [mkDictEntry k (Some v) None None],
                      <[k := length entries]> entryMap)) as Hstep.
    { simpl. apply dictEntryKeyValue_Return in Hkv. rewrite Hkv. simpl.
      by rewrite Hfresh. }
    apply (oldEntries_represents _ _ _ O) in Hstep; [|done].
    simpl in Hstep. rewrite Hkv in Hstep.
    simpl. apply dictEntryKeyValue_Return in Hkv. rewrite Hkv. simpl.
    rewrite Hfresh. eapply IH; [exact Hstep|done|].
    by rewrite fmap_app, <- (assoc_L (++)).
Qed.

Lemma genEntries_success (l : list Expr) :
  ∀ entries entryMap,
    Forall decodable l → ∃ r, genEntries l entries entryMap = Return r.
Proof.
  induction l as [|kv l IH]; intros entries entryMap Hdec; [by eexists|].
  apply Forall_cons in Hdec as [[[k v] Hkv] Hdec].
  simpl. apply dictEntryKeyValue_Return in Hkv. rewrite Hkv. simpl.
  destruct (entryMap !! k); by apply IH.
Qed.

(** [mergeDict] accepts an existing dictionary whose entries have the
    accepted form and distinct keys, and a generated dictionary whose
    entries have the accepted form. *)
Lemma mergeDict_success (gen : option DictExpr) (old : DictExpr) :
  Forall decodable (DictExpr_List old) →
  NoDup (dictKeys (Some old)) →
  Forall decodable
    (DictExpr_List (default (mkDictExpr noComments [] false) gen)) →
  mergeDict gen (Some old) = Return (mergeDict_specified gen old).
Proof.
  intros Hold Hnd Hgen.
  destruct (oldEntries_success (DictExpr_List old) [] ∅ [])
    as [[es1 m1] Hes1]; [apply represents_nil|done|done|].
  destruct (genEntries_success _ es1 m1 Hgen) as [[entries entryMap] Hes].
  by eapply mergeDict_after_loops.
Qed.

(** The entries of a dictionary written by the merger. *)
Definition writtenDict (keys : list string) (value : string → ListExpr)
    : DictExpr :=
  mkDictExpr noComments ((λ k, entryExpr k (value k)) <$> keys) true.

Lemma writtenDict_entries (keys : list string) (value : string → ListExpr) :
  dictEntries (Some (writtenDict keys value)) = (λ k, (k, value k)) <$> keys.
Proof. apply dictEntries_entryExpr. Qed.

Lemma writtenDict_keys (keys : list string) (value : string → ListExpr) :
  dictKeys (Some (writtenDict keys value)) = keys.
Proof.
  unfold dictKeys. rewrite writtenDict_entries, <- list_fmap_compose.
  apply list_fmap_id.
Qed.

Lemma writtenDict_decodable (keys : list string) (value : string → ListExpr) :
  Forall decodable (DictExpr_List (writtenDict keys value)).
Proof.
  simpl. apply Forall_fmap, Forall_forall. intros k _. by eexists.
Qed.

Lemma writtenDict_valueOf (keys : list string) (value : string → ListExpr)
    (k : string) :
  valueOf (dictEntries (Some (writtenDict keys value))) k =
    if decide (k ∈ keys) then Some (value k) else None.
Proof.
  rewrite writtenDict_entries. case_decide as Hk.
  - destruct (valueOf ((λ k, (k, value k)) <$> keys) k) as [v|] eqn:Hv.
    + apply valueOf_Some_elem_of, list_elem_of_fmap in Hv as (k' & [= -> ->] & _).
      done.
    + apply eq_None_not_Some in Hv. destruct Hv. apply valueOf_is_Some.
      by rewrite <- list_fmap_compose, list_fmap_id.
  - apply valueOf_None. by rewrite <- list_fmap_compose, list_fmap_id.
Qed.

Lemma string_lt_NoDup (l : list string) :
  StronglySorted string_lt l → NoDup l.
Proof.
  induction 1 as [|x l _ IH Hall]; constructor; [|done].
  intros Hx. eapply Forall_forall in Hall; [|done]. by destruct Hall.
Qed.

Lemma string_lt_Sorted (l : list string) :
  StronglySorted string_lt l → Sorted String.le l.
Proof.
  intros Hs. apply StronglySorted_Sorted.
  induction Hs as [|x l _ IH Hall]; constructor; [done|].
  eapply Forall_impl; [done|]. by intros y [? _].
Qed.

Lemma default_emptyList_elements (m : option ListExpr) :
  ListExpr_List (default emptyList m) = elements_of m.
Proof. by destruct m. Qed.

(** A dictionary written by the merger is what merging the generated
    dictionary into it gives, when each of its lists is what merging the
    generated list into it gives and every generated key is in it. *)
Lemma mergeDict_specified_fixpoint (gd : option DictExpr)
    (others : list string) (value : string → ListExpr) (have : bool) :
  let keys := others ++ (if have then [defaultCase] else []) in
  StronglySorted string_lt others →
  defaultCase ∉ others →
  (∀ k, k ∈ others →
     mergeList (valueOf (dictEntries gd) k) (Some (value k)) = Some (value k)) →
  (have = true →
     default emptyList
       (mergeList (valueOf (dictEntries gd) defaultCase)
                  (Some (value defaultCase))) = value defaultCase) →
  (∀ k, k ∈ dictKeys gd → k ∈ keys) →
  (others ≠ [] ∨ (have = true ∧ ListExpr_List (value defaultCase) ≠ [])) →
  mergeDict_specified gd (writtenDict keys value)
  = Some (writtenDict keys value).
Proof.
  intros keys Hsorted Hdefault Hothers Hhave Hgen Hlive.
  unfold mergeDict_specified. rewrite writtenDict_keys.
  set (merged := mergedValueOf gd (Some (writtenDict keys value))).
  assert (∀ k, k ∈ keys →
            merged k = mergeList (valueOf (dictEntries gd) k) (Some (value k)))
    as Hmerged.
  { intros k Hk. unfold merged, mergedValueOf.
    by rewrite writtenDict_valueOf, decide_True. }
  assert (∀ k, k ∈ keys ↔ k ∈ others ∨ (k = defaultCase ∧ have = true))
    as Hkeys.
  { intros k. unfold keys. rewrite elem_of_app. destruct have.
    - rewrite list_elem_of_singleton. naive_solver.
    - rewrite elem_of_nil. naive_solver. }
  assert (∀ k, k ∈ remove_dups (keys ++ dictKeys gd) ↔ k ∈ keys) as Hall.
  { intros k. rewrite elem_of_remove_dups, elem_of_app. naive_solver. }
  set (others' := filter _ (remove_dups (keys ++ dictKeys gd))).
  assert (others' ≡ₚ others) as Hperm.
  { apply NoDup_Permutation.
    - apply NoDup_filter, NoDup_remove_dups.
    - by apply string_lt_NoDup.
    - intros k. unfold others'. rewrite list_elem_of_filter, Hall, Hkeys.
      split.
      + intros [[Hne _] [?|[? _]]]; done.
      + intros Hk. split; [|by left]. split; [by intros ->|].
        rewrite Hmerged by (apply Hkeys; by left). by rewrite Hothers. }
  assert (bool_decide (defaultCase ∈ remove_dups (keys ++ dictKeys gd)) = have)
    as ->.
  { destruct have.
    - apply bool_decide_eq_true, Hall, Hkeys. by right.
    - apply bool_decide_eq_false. rewrite Hall, Hkeys. naive_solver. }
  rewrite decide_False.
  - f_equal. unfold writtenDict. f_equal.
    rewrite (sort_Strings_perm _ _ Hperm).
    rewrite sort_Strings_sorted_id by (by apply string_lt_Sorted).
    fold keys. apply list_fmap_ext. intros i k Hk. f_equal.
    apply list_elem_of_lookup_2 in Hk. rewrite Hmerged by done.
    apply Hkeys in Hk as [Hk|[-> Hk]].
    + by rewrite Hothers.
    + by apply Hhave.
  - intros [Hnil Hempty]. destruct Hlive as [Hne|[Hh Hne]].
    + rewrite Hnil in Hperm. by apply Permutation_nil_l in Hperm.
    + destruct Hempty as [Hfalse|Hempty]; [congruence|].
      apply Hne. rewrite <- (Hhave Hh), default_emptyList_elements.
      rewrite <- Hmerged; [done|]. apply Hkeys. by right.
Qed.

(** A generated dictionary, when there is one, is in normal form. *)
Definition genDictNormal (gd : option DictExpr) : Prop :=
  ∀ d, gd = Some d → dictNormal d.

Lemma genDictNormal_decodable (gd : option DictExpr) :
  genDictNormal gd →
  Forall decodable (DictExpr_List (default (mkDictExpr noComments [] false) gd)).
Proof.
  intros Hn. destruct gd as [d|]; [|constructor].
  destruct (Hn d eq_refl) as (others & value & have & -> & _).
  apply writtenDict_decodable.
Qed.

(** The lists of a generated dictionary. *)
Lemma genDictNormal_value (gd : option DictExpr) (k : string) (v : ListExpr) :
  genDictNormal gd →
  valueOf (dictEntries gd) k = Some v →
  (k ≠ defaultCase ∧ listNormal v) ∨
  (k = defaultCase ∧ (listNormal v ∨ v = emptyList)).
Proof.
  intros Hn Hv. destruct gd as [d|]; [|done].
  destruct (Hn d eq_refl)
    as (others & value & have & -> & _ & Hd & Hothers & Hhave & _).
  fold (writtenDict (others ++ (if have then [defaultCase] else [])) value)
    in Hv.
  rewrite writtenDict_valueOf in Hv. case_decide as Hk; [|done].
  injection Hv as <-. apply elem_of_app in Hk as [Hk|Hk].
  - left. split; [by intros ->|by apply Hothers].
  - destruct have; [|by apply elem_of_nil in Hk].
    apply list_elem_of_singleton in Hk as ->. right. split; [done|].
    by apply Hhave.
Qed.

Lemma genDictNormal_keepFree (gd : option DictExpr) (k : string) :
  genDictNormal gd → keepFree (elements_of (valueOf (dictEntries gd) k)).
Proof.
  intros Hn. destruct (valueOf (dictEntries gd) k) as [v|] eqn:Hv;
    [|constructor].
  destruct (genDictNormal_value gd k v Hn Hv)
    as [[_ Hv']|[_ [Hv'| ->]]]; [apply Hv'..|constructor].
Qed.

(** A generated dictionary has a list that is not empty. *)
Lemma genDictNormal_nonempty (d : DictExpr) :
  dictNormal d →
  ∃ k v, valueOf (dictEntries (Some d)) k = Some v ∧ ListExpr_List v ≠ [].
Proof.
  intros (others & value & have & -> & _ & _ & Hothers & _ & Hlive).
  fold (writtenDict (others ++ (if have then [defaultCase] else [])) value).
  destruct Hlive as [Hne|[-> Hne]].
  - destruct others as [|k others]; [done|]. exists k, (value k).
    rewrite writtenDict_valueOf, decide_True by left. split; [done|].
    apply (Hothers k). left.
  - exists defaultCase, (value defaultCase).
    rewrite writtenDict_valueOf, decide_True; [done|].
    apply elem_of_app. right. left.
Qed.

Lemma mergeList_nonempty_gen (l : ListExpr) (ol : option ListExpr) :
  ListExpr_List l ≠ [] →
  ∃ m, mergeList (Some l) ol = Some m ∧ ListExpr_List m ≠ [].
Proof.
  intros Hne. destruct ol as [o|]; [|by exists l].
  destruct (mergeList (Some l) (Some o)) as [m|] eqn:Hm.
  - exists m. split; [done|].
    by apply (mergeList_Some_nonempty (Some l) (Some o)).
  - apply mergeList_None_inv in Hm as [_ Hnil]. by destruct Hne.
Qed.

(** Merging a dictionary in normal form into itself changes nothing. *)
Lemma mergeDict_self (d : DictExpr) :
  dictNormal d → mergeDict (Some d) (Some d) = Return (Some d).
Proof.
  intros (others & value & have & -> & Hsorted & Hd & Hothers & Hhave & Hlive).
  fold (writtenDict (others ++ (if have then [defaultCase] else [])) value).
  set (keys := others ++ (if have then [defaultCase] else [])).
  assert (NoDup keys) as Hnd.
  { apply NoDup_app. split; [by apply string_lt_NoDup|]. split.
    - intros k Hk Hk'. destruct have; [|by apply elem_of_nil in Hk'].
      by apply list_elem_of_singleton in Hk' as ->.
    - destruct have; [apply NoDup_singleton|constructor]. }
  rewrite mergeDict_success;
    [|apply writtenDict_decodable|by rewrite writtenDict_keys
     |apply writtenDict_decodable].
  f_equal. apply mergeDict_specified_fixpoint; try done.
  - intros k Hk. rewrite writtenDict_valueOf.
    rewrite decide_True by (apply elem_of_app; by left).
    apply mergeList_self; [by apply Hothers|done].
  - intros ->. rewrite writtenDict_valueOf.
    rewrite decide_True by (apply elem_of_app; right; left).
    destruct (Hhave eq_refl) as [Hn|Hempty].
    + by rewrite mergeList_self.
    + rewrite Hempty. by rewrite mergeList_elements_nil.
  - intros k. by rewrite writtenDict_keys.
Qed.

(** Merging the generated dictionary into the dictionary merged before
    changes nothing. *)
Lemma mergeDict_idem (gd od md : option DictExpr) :
  genDictNormal gd →
  mergeDict gd od = Return md →
  mergeDict gd md = Return md.
Proof.
  intros Hn Hmd. destruct od as [o|].
  2: { injection Hmd as <-. destruct gd as [d|]; [|done].
       by apply mergeDict_self, Hn. }
  apply mergeDict_Return in Hmd. subst md. unfold mergeDict_specified.
  set (merged := mergedValueOf gd (Some o)).
  set (all := remove_dups (dictKeys (Some o) ++ dictKeys gd)).
  set (others := filter _ all). set (have := bool_decide _).
  assert (∀ k, k ∈ dictKeys gd → k ∈ all) as Hgen_all.
  { intros k Hk. apply elem_of_remove_dups, elem_of_app. by right. }
  assert (∀ k v, valueOf (dictEntries gd) k = Some v → ListExpr_List v ≠ [] →
            ∃ m, merged k = Some m ∧ ListExpr_List m ≠ []) as Hmerged_ne.
  { intros k v Hv Hne. unfold merged, mergedValueOf. rewrite Hv.
    by apply mergeList_nonempty_gen. }
  destruct (decide (others = [] ∧
              (have = false ∨ elements_of (merged defaultCase) = [])))
    as [[Hnil Hdef]|Hlive].
  - (* nothing is left: there was no generated dictionary *)
    destruct gd as [d|]; [|done]. exfalso.
    destruct (genDictNormal_nonempty d (Hn d eq_refl)) as (k & v & Hv & Hne).
    destruct (Hmerged_ne k v Hv Hne) as (m & Hm & Hmne).
    assert (k ∈ all) as Hk
      by (apply Hgen_all, valueOf_is_Some; by rewrite Hv).
    destruct (decide (k = defaultCase)) as [->|Hkd].
    + destruct Hdef as [Hfalse|Hempty].
      * by apply bool_decide_eq_false in Hfalse.
      * rewrite Hm in Hempty. done.
    + assert (k ∈ others) as Hin.
      { apply list_elem_of_filter. split; [|done]. split; [done|].
        by rewrite Hm. }
      rewrite Hnil in Hin. by apply elem_of_nil in Hin.
  - set (value := λ k, default emptyList (merged k)).
    set (keys := sort_Strings others ++ (if have then [defaultCase] else [])).
    change (mergeDict gd (Some (writtenDict keys value)) =
            Return (Some (writtenDict keys value))).
    assert (NoDup others) as Hnd_others
      by apply NoDup_filter, NoDup_remove_dups.
    assert (∀ k, k ∈ sort_Strings others ↔
                 k ∈ all ∧ k ≠ defaultCase ∧ is_Some (merged k)) as Hothers.
    { intros k. rewrite sort_Strings_elem_of. unfold others.
      rewrite list_elem_of_filter. tauto. }
    assert (defaultCase ∉ sort_Strings others) as Hd
      by (rewrite Hothers; tauto).
    assert (NoDup keys) as Hnd.
    { apply NoDup_app. split.
      - by rewrite sort_Strings_Permutation.
      - split.
        + intros k Hk Hk'. destruct have; [|by apply elem_of_nil in Hk'].
          by apply list_elem_of_singleton in Hk' as ->.
        + destruct have; [apply NoDup_singleton|constructor]. }
    rewrite mergeDict_success;
      [|apply writtenDict_decodable|by rewrite writtenDict_keys
       |by apply genDictNormal_decodable].
    f_equal. apply mergeDict_specified_fixpoint.
    + by apply sort_Strings_strict.
    + done.
    + intros k (Hk & Hkd & [m Hm])%Hothers. unfold value. rewrite Hm.
      cbn [from_option id].
      unfold merged, mergedValueOf in Hm.
      destruct (valueOf (dictEntries (Some o)) k) as [o'|] eqn:Ho.
      * eapply mergeList_idem; [by apply genDictNormal_keepFree|done].
      * simpl in Hm. rewrite Hm.
        destruct (genDictNormal_value gd k m Hn Hm) as [[_ Hnm]|[? _]];
          [|done].
        by apply mergeList_self.
    + intros Hhave. unfold value.
      destruct (merged defaultCase) as [m|] eqn:Hm; cbn [from_option id];
        unfold merged, mergedValueOf in Hm.
      * destruct (valueOf (dictEntries (Some o)) defaultCase) as [o'|] eqn:Ho.
        -- erewrite mergeList_idem;
             [done|by apply genDictNormal_keepFree|done].
        -- simpl in Hm. rewrite Hm.
           destruct (genDictNormal_value gd _ m Hn Hm)
             as [[? _]|[_ [Hnm| ->]]]; [done| |].
           ++ by rewrite mergeList_self.
           ++ by rewrite mergeList_elements_nil.
      * destruct (valueOf (dictEntries (Some o)) defaultCase) as [o'|] eqn:Ho.
        -- apply mergeList_None_inv in Hm as [_ Hgen].
           by rewrite mergeList_elements_nil.
        -- simpl in Hm. rewrite Hm. by rewrite mergeList_elements_nil.
    + intros k Hk. unfold keys. apply elem_of_app.
      destruct (decide (k = defaultCase)) as [->|Hkd].
      * right. assert (have = true) as ->; [|left].
        apply bool_decide_eq_true. by apply Hgen_all.
      * left. apply Hothers. split; [by apply Hgen_all|]. split; [done|].
        apply valueOf_is_Some in Hk as [v Hv].
        destruct (genDictNormal_value gd k v Hn Hv) as [[_ Hnv]|[? _]];
          [|done].
        destruct (Hmerged_ne k v Hv) as (m & -> & _); [apply Hnv|done].
    + destruct (decide (others = [])) as [Hnil|Hne].
      * right. destruct have; [|destruct Hlive; by auto].
        split; [done|]. unfold value. rewrite default_emptyList_elements.
        intros Hempty. apply Hlive. auto.
      * left. intros Hnil. apply Hne.
        apply Permutation_nil_r. rewrite <- Hnil. symmetry.
        apply sort_Strings_Permutation.
Qed.

(** A generated dictionary in normal form always gives a merged
    dictionary. *)
Lemma mergeDict_normal_is_Some (d : DictExpr) (od md : option DictExpr) :
  dictNormal d → mergeDict (Some d) od = Return md → is_Some md.
Proof.
  intros Hn Hmd. destruct od as [o|]; [|injection Hmd as <-; by eexists].
  apply mergeDict_Return in Hmd. subst md. unfold mergeDict_specified.
  set (merged := mergedValueOf (Some d) (Some o)).
  set (all := remove_dups (dictKeys (Some o) ++ dictKeys (Some d))).
  set (others := filter _ all). set (have := bool_decide _).
  destruct (decide (others = [] ∧
              (have = false ∨ elements_of (merged defaultCase) = [])))
    as [[Hnil Hdef]|Hlive]; [exfalso|by eexists].
  destruct (genDictNormal_nonempty d Hn) as (k & v & Hv & Hne).
  destruct (mergeList_nonempty_gen v (valueOf (dictEntries (Some o)) k) Hne)
    as (m & Hm & Hmne).
  assert (merged k = Some m) as Hmk
    by (unfold merged, mergedValueOf; by rewrite Hv).
  assert (k ∈ all) as Hk.
  { apply elem_of_remove_dups, elem_of_app. right.
    apply valueOf_is_Some. by rewrite Hv. }
  destruct (decide (k = defaultCase)) as [->|Hkd].
  - destruct Hdef as [Hfalse|Hempty].
    + by apply bool_decide_eq_false in Hfalse.
    + rewrite Hmk in Hempty. done.
  - assert (k ∈ others) as Hin.
    { apply list_elem_of_filter. split; [|done]. split; [done|].
      by rewrite Hmk. }
    rewrite Hnil in Hin. by apply elem_of_nil in Hin.
Qed.

(** *** Attribute values *)

(** The list part of a generated value: without comments, not empty and
    without keep markers. *)
Definition genListNormal (gl : option ListExpr) : Prop :=
  ∀ l, gl = Some l →
    ListExpr_Comments l = noComments ∧ ListExpr_List l ≠ [] ∧
    keepFree (ListExpr_List l).

Lemma mergeList_self_elements (l l' : ListExpr) :
  genListNormal (Some l) → ListExpr_List l' = ListExpr_List l →
  mergeList (Some l) (Some l') =
    Some (mkListExpr noComments (ListExpr_List l) false).
Proof.
  intros Hn Heq. destruct (Hn l eq_refl) as (Hcomments & Hne & Hfree).
  transitivity
    (mergeList (Some (mkListExpr noComments (ListExpr_List l) false)) (Some l')).
  - by rewrite !mergeList_Some.
  - by apply mergeList_self.
Qed.

Lemma forceMultiLine_same (l l' : ListExpr) :
  ListExpr_Comments l = ListExpr_Comments l' →
  ListExpr_List l = ListExpr_List l' →
  forceMultiLine l = forceMultiLine l'.
Proof. unfold forceMultiLine. by intros -> ->. Qed.

Lemma mergeList_Some_Comments (gl : option ListExpr) (o m : ListExpr) :
  mergeList gl (Some o) = Some m → ListExpr_Comments m = noComments.
Proof.
  rewrite mergeList_Some. cbn zeta. case_decide; [done|]. by intros [= <-].
Qed.

(** What [exprListAndDict] reads from an expression put together by
    [mergeExpr]. *)
Lemma exprListAndDict_recombine (ml : option ListExpr) (md : option DictExpr)
    (v : Expr) :
  recombine ml md = Some v →
  exprListAndDict (Some v) =
    Return (if md is Some _ then forceMultiLine <$> ml else ml, md).
Proof.
  unfold recombine. destruct ml as [l|], md as [d|]; intros [= <-]; done.
Qed.

(** Merging the parts of a generated value into the value merged before
    gives that value again. *)
Lemma mergeParts_idem (gl : option ListExpr) (gd : option DictExpr)
    (ol : option ListExpr) (od md : option DictExpr) (v : Expr) :
  genListNormal gl → genDictNormal gd →
  (gd = None → ∀ l, gl = Some l → ListExpr_ForceMultiLine l = false) →
  mergeDict gd od = Return md →
  recombine (mergeList gl ol) md = Some v →
  ∃ ol', exprListAndDict (Some v) = Return (ol', md) ∧
         mergeDict gd md = Return md ∧
         recombine (mergeList gl ol') md = Some v.
Proof.
  intros Hgl Hgd Hfml Hmd Hv.
  eexists. split; [by apply exprListAndDict_recombine|].
  split; [by eapply mergeDict_idem|].
  destruct (mergeList gl ol) as [m|] eqn:Hm.
  - assert (∀ m', ListExpr_List m' = ListExpr_List m →
              ∃ m2, mergeList gl (Some m') = Some m2 ∧
                    ListExpr_Comments m2 = ListExpr_Comments m ∧
                    ListExpr_List m2 = ListExpr_List m ∧
                    (gd = None → m2 = m)) as Hagain.
    { intros m' Heq. destruct ol as [o|].
      - exists m. rewrite (mergeList_same_List gl m' m Heq). split; [|done].
        eapply mergeList_idem; [|done].
        destruct gl as [l|]; [apply (Hgl l eq_refl)|constructor].
      - simpl in Hm. subst gl.
        destruct (Hgl m eq_refl) as (Hcomments & Hne & Hfree).
        eexists. split; [by apply mergeList_self_elements|].
        split; [done|]. split; [done|]. intros Hnone.
        specialize (Hfml Hnone m eq_refl). destruct m. simpl in *.
        by subst. }
    destruct md as [d|]; cbn [fmap option_fmap option_map].
    + destruct (Hagain (forceMultiLine m) eq_refl)
        as (m2 & -> & Hcomments & Hlist & _).
      simpl in Hv. injection Hv as <-. simpl.
      by rewrite (forceMultiLine_same m2 m).
    + destruct (Hagain m eq_refl) as (m2 & -> & _ & _ & Hsame).
      rewrite Hsame; [done|]. destruct gd as [d|]; [|done].
      by destruct (mergeDict_normal_is_Some d od None (Hgd d eq_refl) Hmd).
  - assert (gl = None) as ->.
    { destruct ol as [o|]; [|done].
      apply mergeList_None_inv in Hm as [_ Hgen].
      destruct gl as [l|]; [|done]. by destruct (Hgl l eq_refl) as (_ & ? & _). }
    destruct md as [d|]; [|done]. done.
Qed.

(** A generated value, when there is one, is in normal form. *)
Definition genValueNormal (ge : option Expr) : Prop :=
  ∀ v, ge = Some v → valueNormal v.

(** The parts of a generated value in normal form that is neither a
    string nor of a shape [exprListAndDict] rejects. *)
Lemma valueNormal_parts (v : Expr) :
  valueNormal v →
  (∃ s, v = EString s) ∨
  (∃ msg, exprListAndDict (Some v) = Error msg) ∨
  ∃ gl gd, exprListAndDict (Some v) = Return (gl, gd) ∧
           genListNormal gl ∧ genDictNormal gd ∧
           (gd = None → ∀ l, gl = Some l → ListExpr_ForceMultiLine l = false) ∧
           recombine gl gd = Some v.
Proof.
  intros [Hs|[Herr|[(l & -> & Hl)|[(d & -> & Hd)|(l & d & -> & Hl & Hd)]]]];
    [by left|by right; left|right; right..].
  - exists (Some l), None. split; [done|].
    destruct Hl as (Hcomments & Hfml & Hne & Hfree).
    split; [by intros ? [= <-]|]. split; [done|]. split; [|done].
    by intros _ ? [= <-].
  - exists None, (Some d). split; [done|]. split; [done|].
    split; [by intros ? [= <-]|]. done.
  - exists (Some (forceMultiLine l)), (Some d). split; [done|].
    destruct Hl as (Hcomments & Hfml & Hne & Hfree).
    split; [by intros ? [= <-]|]. split; [by intros ? [= <-]|]. done.
Qed.

Lemma string_or_not (v : Expr) :
  (∃ s, v = EString s) ∨ (∀ s, v ≠ EString s).
Proof. destruct v; first [by left; eexists|by right]. Qed.

Lemma mergeExpr_gen_Error (gen : Expr) (old : option Expr) (msg : string) :
  (∀ s, gen ≠ EString s) →
  exprListAndDict (Some gen) = Error msg →
  mergeExpr (Some gen) old = Error msg.
Proof.
  intros Hns Herr. rewrite mergeExpr_parts by (intros s [= ?]; by eapply Hns).
  by rewrite Herr.
Qed.

(** Merging a generated value in normal form into itself changes
    nothing. *)
Lemma mergedAttrValue_self (v : Expr) :
  valueNormal v → mergedAttrValue (Some v) v = Some v.
Proof.
  intros Hn. unfold mergedAttrValue.
  destruct (valueNormal_parts v Hn)
    as [[s ->]|[[msg Herr]|(gl & gd & Hparts & Hgl & Hgd & Hfml & Hv)]].
  - simpl. by destruct (shouldKeep (EString s)).
  - destruct (string_or_not v) as [[s ->]|Hns].
    + simpl. by destruct (shouldKeep (EString s)).
    + by rewrite (mergeExpr_gen_Error v (Some v) msg).
  - destruct (string_or_not v) as [[s ->]|Hns]; [done|].
    rewrite mergeExpr_parts by (intros s [= ->]; by eapply Hns).
    destruct (mergeParts_idem gl gd None None gd v Hgl Hgd Hfml eq_refl Hv)
      as (ol' & Hparts' & Hmd & Hre).
    rewrite Hparts' in Hparts. injection Hparts as ->.
    rewrite Hparts'. cbn [mbind outcome_bind obind]. rewrite Hmd.
    cbn [mbind outcome_bind obind]. by rewrite Hre.
Qed.

(** Merging the generated value into the value merged before changes
    nothing. *)
Lemma mergedAttrValue_idem (ge : option Expr) (ov mv : Expr) :
  genValueNormal ge →
  mergedAttrValue ge ov = Some mv →
  mergedAttrValue ge mv = Some mv.
Proof.
  intros Hn Hmv.
  assert (ge = Some mv → mergedAttrValue ge mv = Some mv) as Hself.
  { intros ->. apply mergedAttrValue_self. by apply Hn. }
  assert (∀ gl gd,
    (∀ s, ge ≠ Some (EString s)) →
    exprListAndDict ge = Return (gl, gd) →
    genListNormal gl → genDictNormal gd →
    (gd = None → ∀ l, gl = Some l → ListExpr_ForceMultiLine l = false) →
    mergedAttrValue ge mv = Some mv) as Hparts.
  { intros gl gd Hns Hge Hgl Hgd Hfml.
    assert (mergeExpr ge (Some ov) = Return (Some mv) ∨ ge = Some mv) as Hov.
    { unfold mergedAttrValue in Hmv.
      destruct (mergeExpr ge (Some ov)); simpl in Hmv;
        [left; by subst|by right|done]. }
    destruct Hov as [Hov|Hov]; [|by apply Hself].
    unfold mergedAttrValue. rewrite mergeExpr_parts in Hov |- * by done.
    rewrite Hge in Hov |- *. cbn [mbind outcome_bind obind] in Hov |- *.
    destruct (exprListAndDict (Some ov)) as [[ol od]|msg|msg];
      cbn [mbind outcome_bind obind] in Hov; [|done..].
    destruct (mergeDict gd od) as [md|msg|msg] eqn:Hmd;
      cbn [mbind outcome_bind obind] in Hov; [|done..].
    injection Hov as Hov.
    destruct (mergeParts_idem gl gd ol od md mv Hgl Hgd Hfml Hmd Hov)
      as (ol' & Hparts' & Hmd' & Hre).
    rewrite Hparts'. cbn [mbind outcome_bind obind]. rewrite Hmd'.
    cbn [mbind outcome_bind obind]. by rewrite Hre. }
  destruct ge as [v|].
  - destruct (valueNormal_parts v (Hn v eq_refl))
      as [[s ->]|[[msg Herr]|(gl & gd & Hv & Hgl & Hgd & Hfml & _)]].
    + unfold mergedAttrValue in *. simpl in *.
      destruct (shouldKeep ov) eqn:Hkeep.
      * injection Hmv as <-. by rewrite Hkeep.
      * injection Hmv as <-. by destruct (shouldKeep (EString s)).
    + destruct (string_or_not v) as [[s ->]|Hns].
      * unfold mergedAttrValue in *. simpl in *.
        destruct (shouldKeep ov) eqn:Hkeep.
        -- injection Hmv as <-. by rewrite Hkeep.
        -- injection Hmv as <-. by destruct (shouldKeep (EString s)).
      * unfold mergedAttrValue in *.
        rewrite (mergeExpr_gen_Error v (Some ov) msg) in Hmv by done.
        by rewrite (mergeExpr_gen_Error v (Some mv) msg).
    + destruct (string_or_not v) as [[s ->]|Hns]; [done|].
      apply (Hparts gl gd); try done.
      intros s [= ->]. by eapply Hns.
  - apply (Hparts None None); try done.
Qed.

(** *** Rules *)

Lemma attrKey_Some_isAssignment (e : Expr) (k : string) :
  attrKey e = Some k → isAssignment e = true.
Proof.
  intros Hk. destruct (isAssignment e) eqn:He; [done|].
  apply attrKey_isAssignment in He. congruence.
Qed.

Lemma attrKey_Some_EBinary (e : Expr) (k : string) :
  attrKey e = Some k → ∃ b, e = EBinary b.
Proof. destruct e; try done. by eexists. Qed.

Lemma attrKey_attribute (k : string) (v : Expr) :
  attrKey (attribute k v) = Some k.
Proof. done. Qed.

Lemma setY_same (b : BinaryExpr) : setY b (BinaryExpr_Y b) = b.
Proof. by destruct b. Qed.

Lemma setList_same (c : CallExpr) : setList c (CallExpr_List c) = c.
Proof. by destruct c. Qed.

Lemma unnamedArguments_isAssignment (l : list Expr) (e : Expr) :
  e ∈ unnamedArguments l → isAssignment e = false.
Proof.
  induction l as [|a l IH]; simpl; [by intros ?%elem_of_nil|].
  destruct (isAssignment a) eqn:Ha; [by intros ?%elem_of_nil|].
  intros [->|He]%elem_of_cons; auto.
Qed.

(** The unnamed arguments followed by assignments are the unnamed
    arguments of the whole. *)
Lemma unnamedArguments_app (l attrs : list Expr) :
  (∀ e, e ∈ attrs → isAssignment e = true) →
  unnamedArguments (unnamedArguments l ++ attrs) = unnamedArguments l.
Proof.
  intros Hattrs. induction l as [|a l IH]; simpl.
  - destruct attrs as [|e attrs]; [done|]. simpl.
    by rewrite (Hattrs e) by left.
  - destruct (isAssignment a) eqn:Ha; simpl.
    + destruct attrs as [|e attrs]; [done|]. simpl.
      by rewrite (Hattrs e) by left.
    + by rewrite Ha, IH.
Qed.

Lemma omap_attrKey_unnamed (l attrs : list Expr) :
  omap attrKey (unnamedArguments l ++ attrs) = omap attrKey attrs.
Proof.
  rewrite omap_app.
  assert (omap attrKey (unnamedArguments l) = []) as ->; [|done].
  apply elem_of_nil_inv. intros k (e & He & Hk)%list_elem_of_omap.
  apply unnamedArguments_attrKey in He. congruence.
Qed.

Lemma attrDefnIn_unnamed (l attrs : list Expr) (k : string) :
  attrDefnIn (unnamedArguments l ++ attrs) k = attrDefnIn attrs k.
Proof.
  rewrite attrDefnIn_app. rewrite attrDefnIn_None; [done|].
  intros e He. apply unnamedArguments_attrKey in He. congruence.
Qed.

(** Among attributes with distinct keys, each is the definition of its
    key. *)
Lemma attrDefnIn_NoDup (attrs : list Expr) (b : BinaryExpr) (k : string) :
  NoDup (omap attrKey attrs) → EBinary b ∈ attrs →
  attrKey (EBinary b) = Some k →
  attrDefnIn attrs k = Some b.
Proof.
  intros Hnd Hin Hk. induction attrs as [|e attrs IH];
    [by apply elem_of_nil in Hin|].
  apply elem_of_cons in Hin as [<-|Hin].
  - cbn [attrDefnIn]. by rewrite decide_True.
  - cbn [omap list_omap] in Hnd. fold (omap attrKey attrs) in Hnd.
    assert (k ∈ omap attrKey attrs) as Hkin
      by (apply list_elem_of_omap; by exists (EBinary b)).
    destruct (attrKey e) as [k'|] eqn:He.
    + apply NoDup_cons in Hnd as [Hk' Hnd].
      destruct (attrKey_Some_EBinary e k' He) as [b' ->].
      cbn [attrDefnIn]. rewrite decide_False; [by apply IH|].
      rewrite He. intros [= ->]. done.
    + destruct e; cbn [attrDefnIn]; try by apply IH.
      rewrite decide_False; [by apply IH|]. by rewrite He.
Qed.

(** The pieces of attributes that each are the piece of their key. *)
Lemma pieces_fixed (f : string → list Expr) (attrs : list Expr) :
  (∀ e, e ∈ attrs → ∃ k, attrKey e = Some k ∧ f k = [e]) →
  omap attrKey attrs ≫= f = attrs.
Proof.
  induction attrs as [|e attrs IH]; intros Hattrs; [done|].
  destruct (Hattrs e) as (k & Hk & Hf); [left|].
  cbn [omap list_omap]. rewrite Hk. fold (omap attrKey attrs).
  cbn [mbind list_bind]. rewrite Hf. simpl. f_equal.
  apply IH. intros e' He'. apply Hattrs. by right.
Qed.

(** [addNewAttrs] changes nothing in a rule that has every attribute of
    the generated rule. *)
Lemma addNewAttrs_fixed (gen c : CallExpr) :
  (∀ k, k ∈ Rule_AttrKeys gen → k ∈ Rule_AttrKeys c) →
  addNewAttrs gen c = c.
Proof.
  unfold addNewAttrs. generalize (Rule_AttrKeys gen). intros ks Hks.
  induction ks as [|k ks IH]; [done|]. cbn [foldl].
  destruct (Rule_Attr c k) as [v|] eqn:Hk.
  - apply IH. intros k' Hk'. apply Hks. by right.
  - apply Rule_Attr_None in Hk. destruct Hk. apply Hks. left.
Qed.

(** [mergeRule] changes nothing in a rule whose arguments are unnamed
    arguments followed by attributes that each are the piece of their
    key, and that has every attribute of the generated rule. *)
Lemma mergeRule_fixed (gen c : CallExpr) (attrs : list Expr) :
  CallExpr_List c = unnamedArguments (CallExpr_List c) ++ attrs →
  (∀ e, e ∈ attrs → ∃ k, attrKey e = Some k ∧ attrPiece gen c k = [e]) →
  (∀ k, k ∈ Rule_AttrKeys gen → k ∈ Rule_AttrKeys c) →
  mergeRule gen c = Return c.
Proof.
  intros Hlist Hattrs Hkeys. rewrite mergeRule_Return. f_equal.
  assert (mergedArguments gen c = CallExpr_List c) as ->.
  { unfold mergedArguments, Rule_AttrKeys. rewrite Hlist at 2 3.
    rewrite omap_attrKey_unnamed. by rewrite pieces_fixed. }
  rewrite setList_same. by apply addNewAttrs_fixed.
Qed.

(** The attributes of a generated rule in normal form that can be merged
    have values in normal form. *)
Lemma ruleNormal_value (gen : CallExpr) (k : string) :
  ruleNormal gen → mergeable k → genValueNormal (Rule_Attr gen k).
Proof.
  intros (attrs & Hlist & _ & _ & Hvalues) Hk v Hv.
  apply fmap_Some in Hv as (b & Hb & ->). unfold Rule_AttrDefn in Hb.
  rewrite Hlist, attrDefnIn_unnamed in Hb.
  apply attrDefnIn_Some in Hb as [Hkey Hin]. by apply (Hvalues b k).
Qed.

(** A generated rule in normal form merged into itself. *)
Lemma mergeRule_self (gen : CallExpr) :
  ruleNormal gen → mergeRule gen gen = Return gen.
Proof.
  intros Hn. pose proof Hn as (attrs & Hlist & Hkeys & Hnd & Hvalues).
  apply (mergeRule_fixed gen gen attrs); [done| |done].
  intros e He. eapply Forall_forall in Hkeys as [k Hk]; [|done].
  exists k. split; [done|].
  destruct (attrKey_Some_EBinary e k Hk) as [b ->].
  unfold attrPiece, Rule_Attr, Rule_AttrDefn.
  rewrite Hlist, attrDefnIn_unnamed, (attrDefnIn_NoDup attrs b k) by done.
  destruct (index_bool mergeableFields k) eqn:Hm; simpl; [|done].
  rewrite mergedAttrValue_self, setY_same; [done|].
  apply (Hvalues b k); [done..|]. by apply mergeable_iff.
Qed.

(** The attributes that [addNewAttrs] appends: one for each attribute of
    the generated rule that the rule does not have. *)
Lemma addNewAttrs_shape (gen c : CallExpr) :
  ∃ new,
    addNewAttrs gen c = setList c (CallExpr_List c ++ new) ∧
    NoDup (omap attrKey new) ∧
    (∀ e, e ∈ new →
       ∃ k v, e = attribute k v ∧ Rule_Attr gen k = Some v ∧
              k ∉ Rule_AttrKeys c) ∧
    (∀ k, k ∈ Rule_AttrKeys gen →
       k ∈ Rule_AttrKeys c ∨ k ∈ omap attrKey new).
Proof.
  unfold addNewAttrs.
  assert (∀ k, k ∈ Rule_AttrKeys gen → is_Some (Rule_Attr gen k)) as Hgen.
  { intros k Hk. apply not_eq_None_Some. intros Hnone.
    by apply Rule_Attr_None in Hnone. }
  revert Hgen. generalize (Rule_AttrKeys gen). intros ks Hgen. revert c.
  induction ks as [|k ks IH]; intros c.
  { exists []. rewrite app_nil_r, setList_same.
    split; [done|]. split; [constructor|].
    split; [by intros e ?%elem_of_nil|by intros k ?%elem_of_nil]. }
  cbn [foldl]. destruct (Rule_Attr c k) as [?|] eqn:Hk.
  - destruct (IH (λ k' Hk', Hgen k' (list_elem_of_further _ _ _ Hk')) c)
      as (new & Hfold & Hnd & Hnew & Hkeys).
    exists new. split; [done|]. split; [done|]. split; [done|].
    intros k' [->|Hk']%elem_of_cons; [|by apply Hkeys].
    left. destruct (decide (k ∈ Rule_AttrKeys c)) as [|Hnot]; [done|].
    apply Rule_Attr_None in Hnot. congruence.
  - destruct (Hgen k) as [v Hv]; [left|]. rewrite Hv.
    pose proof Hk as Hnot. apply Rule_Attr_None in Hnot.
    apply fmap_None in Hk.
    set (c' := setList c (CallExpr_List c ++ [attribute k v])).
    assert (Rule_SetAttr c k v = c') as ->
      by (unfold Rule_SetAttr; by rewrite Hk).
    assert (Rule_AttrKeys c' = Rule_AttrKeys c ++ [k]) as Hkeys'
      by (unfold Rule_AttrKeys, c'; simpl; by rewrite omap_app).
    destruct (IH (λ k' Hk', Hgen k' (list_elem_of_further _ _ _ Hk')) c')
      as (new & Hfold & Hnd & Hnew & Hkeys).
    exists (attribute k v :: new). split; [|split; [|split]].
    + rewrite Hfold. unfold c', setList. simpl.
      by rewrite <- (assoc_L (++)).
    + cbn [omap list_omap]. rewrite attrKey_attribute.
      fold (omap attrKey new). apply NoDup_cons. split; [|done].
      intros (e & He & Hkey)%list_elem_of_omap.
      destruct (Hnew e He) as (k' & v' & -> & _ & Hk').
      rewrite attrKey_attribute in Hkey. injection Hkey as ->.
      apply Hk'. rewrite Hkeys'. apply elem_of_app. right. left.
    + intros e [->|He]%elem_of_cons; [by exists k, v|].
      destruct (Hnew e He) as (k' & v' & -> & Hv' & Hk').
      exists k', v'. split; [done|]. split; [done|].
      intros Hin. apply Hk'. rewrite Hkeys'. apply elem_of_app. by left.
    + intros k' Hk'. cbn [omap list_omap]. rewrite attrKey_attribute.
      fold (omap attrKey new).
      apply elem_of_cons in Hk' as [->|Hk']; [right; left|].
      destruct (Hkeys k' Hk') as [Hin|Hin]; [|right; by right].
      rewrite Hkeys' in Hin. apply elem_of_app in Hin as [Hin|Hin];
        [by left|]. apply list_elem_of_singleton in Hin as ->. right. left.
Qed.

(** The merged rule: the existing rule with other arguments. *)
Lemma mergeRule_shape (gen old merged : CallExpr) :
  mergeRule gen old = Return merged →
  ∃ new,
    merged = setList old (mergedArguments gen old ++ new) ∧
    NoDup (omap attrKey new) ∧
    (∀ e, e ∈ new →
       ∃ k v, e = attribute k v ∧ Rule_Attr gen k = Some v ∧
              k ∉ omap attrKey (mergedArguments gen old)) ∧
    (∀ k, k ∈ Rule_AttrKeys gen →
       k ∈ omap attrKey (mergedArguments gen old) ∨ k ∈ omap attrKey new).
Proof.
  rewrite mergeRule_Return. intros [= <-].
  destruct (addNewAttrs_shape gen (setList old (mergedArguments gen old)))
    as (new & -> & Hnd & Hnew & Hkeys).
  by exists new.
Qed.

(** The piece of an attribute of the merged rule that comes from the
    existing rule is that attribute. *)
Lemma attrPiece_idem (gen old c : CallExpr) (k : string) (e : Expr) :
  genValueNormal (Rule_Attr gen k) →
  e ∈ attrPiece gen old k →
  Rule_AttrDefn c k = attrDefnIn (attrPiece gen old k) k →
  attrPiece gen c k = [e].
Proof.
  intros Hn He Hdef. pose proof (attrPiece_key gen old k e He) as Hk.
  unfold attrPiece in He, Hdef |- *.
  destruct (Rule_AttrDefn old k) as [oldAttr|] eqn:Hold;
    [|by apply elem_of_nil in He].
  destruct (index_bool mergeableFields k) eqn:Hm; cbn [negb] in *.
  - destruct (mergedAttrValue (Rule_Attr gen k) (BinaryExpr_Y oldAttr))
      as [mv|] eqn:Hmv; [|by apply elem_of_nil in He].
    apply list_elem_of_singleton in He as ->.
    cbn [attrDefnIn] in Hdef. rewrite decide_True in Hdef by done.
    rewrite Hdef. simpl.
    by rewrite (mergedAttrValue_idem _ _ _ Hn Hmv).
  - apply list_elem_of_singleton in He as ->.
    cbn [attrDefnIn] in Hdef. rewrite decide_True in Hdef by done.
    by rewrite Hdef.
Qed.

(** Merging the generated rule into the rule merged before changes
    nothing. *)
Lemma mergeRule_idem (gen old merged : CallExpr) :
  ruleNormal gen →
  mergeRule gen old = Return merged →
  mergeRule gen merged = Return merged.
Proof.
  intros Hn Hmerged.
  destruct (mergeRule_shape gen old merged Hmerged)
    as (new & -> & Hnd & Hnew & Hkeys).
  set (pieces := Rule_AttrKeys old ≫= attrPiece gen old).
  assert (∀ e, e ∈ pieces ++ new → is_Some (attrKey e)) as Hattr.
  { intros e [He|He]%elem_of_app.
    - apply list_elem_of_bind in He as (k & He & _).
      rewrite (attrPiece_key gen old k e He). by eexists.
    - destruct (Hnew e He) as (k & v & -> & _). by eexists. }
  assert (mergedArguments gen old ++ new =
          unnamedArguments (CallExpr_List old) ++ pieces ++ new) as Hlist
    by (unfold mergedArguments; by rewrite <- (assoc_L (++))).
  assert (∀ k, mergeable k → genValueNormal (Rule_Attr gen k)) as Hvalue
    by (intros k; by apply ruleNormal_value).
  apply (mergeRule_fixed _ _ (pieces ++ new)).
  - simpl. rewrite Hlist. rewrite unnamedArguments_app; [done|].
    intros e [k Hk]%Hattr. by eapply attrKey_Some_isAssignment.
  - intros e He. apply elem_of_app in He as [He|He].
    + apply list_elem_of_bind in He as (k & He & Hk).
      exists k. split; [by eapply attrPiece_key|].
      destruct (index_bool mergeableFields k) eqn:Hm.
      * apply (attrPiece_idem gen old); [|done|].
        -- by apply Hvalue, mergeable_iff.
        -- unfold Rule_AttrDefn. simpl. rewrite attrDefnIn_app.
           rewrite mergedArguments_AttrDefn, decide_True by done.
           destruct (attrDefnIn (attrPiece gen old k) k) eqn:Hdef; [done|].
           exfalso. unfold attrPiece in He, Hdef.
           destruct (Rule_AttrDefn old k) as [oldAttr|] eqn:Hold;
             [|by apply elem_of_nil in He].
           rewrite Hm in He, Hdef. cbn [negb] in He, Hdef.
           destruct (mergedAttrValue _ _); [|by apply elem_of_nil in He].
           cbn [attrDefnIn] in Hdef. rewrite decide_True in Hdef; [done|].
           rewrite attrKey_setY. by apply attrDefnIn_Some in Hold as [? _].
      * unfold attrPiece in He |- *. unfold Rule_AttrDefn at 1. simpl.
        rewrite attrDefnIn_app, mergedArguments_AttrDefn, decide_True by done.
        unfold attrPiece.
        destruct (Rule_AttrDefn old k) as [oldAttr|] eqn:Hold;
          [|by apply elem_of_nil in He].
        rewrite Hm in He |- *. cbn [negb] in He |- *.
        apply list_elem_of_singleton in He as ->.
        cbn [attrDefnIn]. rewrite decide_True; [done|].
        by apply attrDefnIn_Some in Hold as [? _].
    + destruct (Hnew e He) as (k & v & -> & Hv & Hk).
      exists k. split; [done|]. unfold attrPiece, Rule_AttrDefn. simpl.
      rewrite attrDefnIn_app.
      assert (attrDefnIn (mergedArguments gen old) k = None) as ->.
      { apply eq_None_not_Some. by rewrite attrDefnIn_is_Some. }
      unfold attribute in He |- *.
      rewrite (attrDefnIn_NoDup new _ k Hnd He) by done.
      destruct (index_bool mergeableFields k) eqn:Hm; simpl; [|done].
      rewrite Hv, mergedAttrValue_self; [done|].
      apply (Hvalue k); [by apply mergeable_iff|done].
  - intros k Hk. unfold Rule_AttrKeys. simpl. rewrite omap_app.
    apply elem_of_app. by apply Hkeys.
Qed.

(** *** Load statements *)

(** The two loops of [mergeLoad] that fill [vals]. *)
Definition genVals (genSymbols : list Expr) : gmap string Expr :=
  foldl (λ vals v, <[stringValue v := v]> vals) ∅ genSymbols.

Definition oldVals (f : File) (vals : gmap string Expr)
    (oldSymbols : list Expr) : gmap string Expr :=
  foldl (λ vals v,
           let rule := stringValue v in
           match vals !! rule with
           | None => if ruleUsed rule f then <[rule := v]> vals else vals
           | Some _ => vals
           end) vals oldSymbols.

(** The symbols that [mergeLoad] writes: the values of [vals] in the
    order of their sorted keys. *)
Definition symbolsOf (vals : gmap string Expr) : list Expr :=
  omap (λ k, vals !! k) (sort_Strings (map_to_list vals).*1).

Lemma mergeLoad_eq (gen old : CallExpr) (f : File) (genPath path : Expr)
    (genSymbols oldSymbols : list Expr) :
  CallExpr_List gen = genPath :: genSymbols →
  CallExpr_List old = path :: oldSymbols →
  mergeLoad gen old f =
    Return (setList old
              (path :: symbolsOf (oldVals f (genVals genSymbols) oldSymbols))).
Proof.
  intros Hgen Hold. unfold mergeLoad. rewrite Hgen, Hold.
  cbn zeta. by rewrite collect_keys, append_vals.
Qed.

Lemma oldVals_keeps (f : File) (l : list Expr) (m : gmap string Expr)
    (s : string) (v : Expr) :
  m !! s = Some v → oldVals f m l !! s = Some v.
Proof.
  unfold oldVals. revert m. induction l as [|x l IH]; intros m Hm; [done|].
  cbn [foldl]. apply IH. cbn zeta.
  destruct (m !! stringValue x) eqn:Hx; [done|].
  destruct (ruleUsed (stringValue x) f); [|done].
  rewrite lookup_insert_ne; [done|]. intros <-. congruence.
Qed.

Lemma oldVals_fixed (f : File) (l : list Expr) (m : gmap string Expr) :
  (∀ v, v ∈ l → is_Some (m !! stringValue v)) → oldVals f m l = m.
Proof.
  unfold oldVals. induction l as [|x l IH]; intros Hl; [done|].
  cbn [foldl]. cbn zeta. destruct (Hl x) as [v ->]; [left|].
  apply IH. intros v' Hv'. apply Hl. by right.
Qed.

Lemma symbolsOf_lookup (vals : gmap string Expr) (v : Expr) :
  v ∈ symbolsOf vals ↔ ∃ s, vals !! s = Some v.
Proof.
  unfold symbolsOf. rewrite list_elem_of_omap. split.
  - intros (k & _ & Hv). by exists k.
  - intros [s Hs]. exists s. split; [|done].
    apply sort_Strings_elem_of, list_elem_of_fmap. exists (s, v).
    split; [done|]. by apply elem_of_map_to_list.
Qed.

(** After the two loops every value of [vals] is filed under its own
    string value. *)
Lemma oldVals_names (f : File) (genSymbols oldSymbols : list Expr)
    (s : string) (v : Expr) :
  oldVals f (genVals genSymbols) oldSymbols !! s = Some v → stringValue v = s.
Proof.
  intros [Hv|(_ & Hs & _)]%oldVals_lookup; [|done].
  apply genVals_lookup in Hv as [Hv|[_ Hs]]; [|done].
  by rewrite lookup_empty in Hv.
Qed.

(** Merging the generated load statement into the load statement merged
    before, in a file that uses at least the rules of the file before,
    changes nothing. *)
Lemma mergeLoad_idem (gen old merged : CallExpr) (f f' : File) :
  (∀ s, ruleUsed s f = true → ruleUsed s f' = true) →
  mergeLoad gen old f = Return merged →
  mergeLoad gen merged f' = Return merged.
Proof.
  intros Hused Hmerged.
  destruct (CallExpr_List gen) as [|genPath genSymbols] eqn:Hgen;
    [by unfold mergeLoad in Hmerged; rewrite Hgen in Hmerged|].
  destruct (CallExpr_List old) as [|path oldSymbols] eqn:Hold;
    [by unfold mergeLoad in Hmerged; rewrite Hgen, Hold in Hmerged|].
  rewrite (mergeLoad_eq gen old f genPath path genSymbols oldSymbols)
    in Hmerged by done.
  injection Hmerged as <-.
  set (vals := oldVals f (genVals genSymbols) oldSymbols).
  rewrite (mergeLoad_eq gen _ f' genPath path genSymbols (symbolsOf vals))
    by done.
  assert (oldVals f' (genVals genSymbols) (symbolsOf vals) = vals) as ->;
    [|done].
  apply map_eq. intros s.
  destruct (genVals genSymbols !! s) as [v|] eqn:Hgens.
  { rewrite (oldVals_keeps f' _ _ s v Hgens). symmetry.
    by apply oldVals_keeps. }
  destruct (vals !! s) as [v|] eqn:Hv.
  - assert (is_Some (oldVals f' (genVals genSymbols) (symbolsOf vals) !! s))
      as [v' Hv'].
    { apply oldVals_dom. right. split.
      - apply list_elem_of_fmap. exists v.
        split; [symmetry; by eapply oldVals_names|].
        apply symbolsOf_lookup. by exists s.
      - apply Hused. assert (is_Some (vals !! s)) as Hs by (by eexists).
        apply oldVals_dom in Hs as [[? Hs]|[_ Hs]]; [congruence|done]. }
    rewrite Hv'. apply oldVals_lookup in Hv' as [Hv'|(Hin & Hs & _)];
      [congruence|].
    apply symbolsOf_lookup in Hin as [s' Hs'].
    pose proof (oldVals_names _ _ _ _ _ Hs') as Hname.
    rewrite Hs in Hname. subst s'. congruence.
  - apply eq_None_not_Some. intros Hs.
    apply oldVals_dom in Hs as [[? Hs]|[Hs _]]; [congruence|].
    apply list_elem_of_fmap in Hs as (v & -> & Hin).
    apply symbolsOf_lookup in Hin as [s' Hs'].
    pose proof (oldVals_names _ _ _ _ _ Hs') as Hname. subst s'.
    fold vals in Hs'. congruence.
Qed.

Lemma genVals_NoDup (l : list Expr) (m : gmap string Expr) (v : Expr) :
  NoDup (stringValue <$> l) → v ∈ l →
  foldl (λ vals v, <[stringValue v := v]> vals) m l !! stringValue v = Some v.
Proof.
  revert m. induction l as [|x l IH]; intros m Hnd Hin;
    [by apply elem_of_nil in Hin|].
  rewrite fmap_cons in Hnd. apply NoDup_cons in Hnd as [Hx Hnd].
  cbn [foldl]. apply elem_of_cons in Hin as [->|Hin]; [|by apply IH].
  destruct (foldl (λ vals v, <[stringValue v := v]> vals)
              (<[stringValue x := x]> m) l !! stringValue x) as [v|] eqn:Hv.
  - apply genVals_lookup in Hv as [Hv|[Hin Hs]].
    + by rewrite lookup_insert_eq in Hv.
    + destruct Hx. apply list_elem_of_fmap. by exists v.
  - assert (is_Some (foldl (λ vals v, <[stringValue v := v]> vals)
                       (<[stringValue x := x]> m) l !! stringValue x)) as Hs.
    { apply genVals_dom. left. rewrite lookup_insert_eq. by eexists. }
    rewrite Hv in Hs. by destruct Hs.
Qed.

(** A generated load statement in normal form merged into itself. *)
Lemma mergeLoad_self (gen : CallExpr) (f : File) :
  loadNormal gen → mergeLoad gen gen f = Return gen.
Proof.
  intros (path & symbols & Hlist & Hsorted).
  rewrite (mergeLoad_eq gen gen f path path symbols symbols) by done.
  f_equal. rewrite <- (setList_same gen) at 2. rewrite Hlist. f_equal. f_equal.
  pose proof (string_lt_NoDup _ Hsorted) as Hnd.
  assert (∀ v, v ∈ symbols → genVals symbols !! stringValue v = Some v)
    as Hvals by (intros v Hv; by apply genVals_NoDup).
  rewrite oldVals_fixed by (intros v Hv; rewrite Hvals by done; by eexists).
  unfold symbolsOf.
  assert (sort_Strings (map_to_list (genVals symbols)).*1 =
          stringValue <$> symbols) as ->.
  { rewrite <- (sort_Strings_sorted_id (stringValue <$> symbols))
      by (by apply string_lt_Sorted).
    apply sort_Strings_perm, NoDup_Permutation;
      [apply NoDup_fst_map_to_list|done|].
    intros s. rewrite list_elem_of_fmap. split.
    - intros ([s' v] & -> & Hin%elem_of_map_to_list). simpl.
      assert (is_Some (genVals symbols !! s')) as Hs by (by eexists).
      apply genVals_dom in Hs as [[? Hs]|Hs]; [by rewrite lookup_empty in Hs|].
      done.
    - intros (v & -> & Hin)%list_elem_of_fmap. exists (stringValue v, v).
      split; [done|].
      apply elem_of_map_to_list. by apply Hvals. }
  assert (∀ l : list Expr, (∀ x, x ∈ l → x ∈ symbols) →
            omap (λ k, genVals symbols !! k) (stringValue <$> l) = l) as Hall.
  { intros l Hl. induction l as [|x l IHl]; [done|].
    rewrite fmap_cons. cbn [omap list_omap]. rewrite Hvals by (apply Hl; left).
    f_equal. apply IHl. intros y Hy. apply Hl. by right. }
  by apply Hall.
Qed.

(** *** Statements *)

(** The matcher that [match] makes for a generated rule; none for a load
    statement without arguments. *)
Definition matcherOf (c : CallExpr) : option matcher :=
  if decide (kind c = "load") then
    match CallExpr_List c with
    | [] => None
    | p :: _ => Some (loadMatcher (stringValue p))
    end
  else Some (nameMatcher (kind c) (name c)).

Definition accepts (m : matcher) (s : Expr) : bool :=
  match s with
  | ECall c => matcher_match m c
  | _ => false
  end.

Lemma match_matcherOf (f : File) (c : CallExpr) :
  match_ f c = matcherOf c ≫= λ m, matchFrom m 0 (Stmt f).
Proof.
  unfold match_, matcherOf. case_decide; [|done].
  by destruct (CallExpr_List c).
Qed.

(** A name matcher made by [match] is not for load statements. *)
Definition validMatcher (m : matcher) : Prop :=
  match m with
  | nameMatcher k _ => k ≠ "load"
  | loadMatcher _ => True
  end.

Lemma matcherOf_valid (c : CallExpr) (m : matcher) :
  matcherOf c = Some m → validMatcher m.
Proof.
  unfold matcherOf. case_decide as Hk.
  - destruct (CallExpr_List c); [done|]. by intros [= <-].
  - by intros [= <-].
Qed.

Lemma matcherOf_self (c : CallExpr) (m : matcher) :
  matcherOf c = Some m → matcher_match m c = true.
Proof.
  unfold matcherOf. case_decide as Hk.
  - destruct (CallExpr_List c) as [|p l] eqn:Hl; [done|]. intros [= <-].
    simpl. rewrite Hl. rewrite !bool_decide_eq_true_2; done.
  - intros [= <-]. simpl. by rewrite !bool_decide_eq_true_2.
Qed.

(** Two matchers made by [match] that accept one rule: the second accepts
    the rule that the first was made for. *)
Lemma matcherOf_common (c c' r : CallExpr) (m m' : matcher) :
  matcherOf c = Some m → matcherOf c' = Some m' →
  matcher_match m r = true → matcher_match m' r = true →
  matcher_match m' c = true.
Proof.
  unfold matcherOf. intros Hm Hm'.
  destruct (decide (kind c = "load")) as [Hk|Hk];
    destruct (decide (kind c' = "load")) as [Hk'|Hk'].
  - destruct (CallExpr_List c) as [|p l] eqn:Hl; [done|].
    destruct (CallExpr_List c') as [|p' l'] eqn:Hl'; [done|].
    injection Hm as <-. injection Hm' as <-. simpl. rewrite Hl.
    intros [_ Hr]%andb_true_iff [_ Hr']%andb_true_iff.
    destruct (CallExpr_List r) as [|q ?]; [done|].
    apply bool_decide_eq_true in Hr, Hr'.
    rewrite !bool_decide_eq_true_2; [done|congruence|done].
  - destruct (CallExpr_List c) as [|p l] eqn:Hl; [done|].
    injection Hm as <-. injection Hm' as <-. simpl.
    intros [Hr _]%andb_true_iff [Hr' _]%andb_true_iff.
    apply bool_decide_eq_true in Hr, Hr'. congruence.
  - destruct (CallExpr_List c') as [|p' l'] eqn:Hl'; [done|].
    injection Hm as <-. injection Hm' as <-. simpl.
    intros [Hr _]%andb_true_iff [Hr' _]%andb_true_iff.
    apply bool_decide_eq_true in Hr, Hr'. congruence.
  - injection Hm as <-. injection Hm' as <-. simpl.
    intros [Hr Hn]%andb_true_iff [Hr' Hn']%andb_true_iff.
    apply bool_decide_eq_true in Hr, Hr', Hn, Hn'.
    rewrite !bool_decide_eq_true_2; [done|congruence..].
Qed.

(** The load path of a load statement. *)
Definition loadPath (c : CallExpr) : option string :=
  stringValue <$> head (CallExpr_List c).

(** What the merges keep of a rule: everything but its arguments, and of
    these the name of a rule and the path of a load statement. *)
Definition sameRule (c c' : CallExpr) : Prop :=
  (∃ l, c' = setList c l) ∧
  (kind c ≠ "load" → name c' = name c) ∧
  (kind c = "load" → loadPath c' = loadPath c).

Definition sameStmt (s s' : Expr) : Prop :=
  match s with
  | ECall c => ∃ c', s' = ECall c' ∧ sameRule c c'
  | _ => s' = s
  end.

Lemma sameRule_kind (c c' : CallExpr) : sameRule c c' → kind c' = kind c.
Proof. by intros [[l ->] _]. Qed.

Lemma sameRule_refl (c : CallExpr) : sameRule c c.
Proof. split; [|done]. exists (CallExpr_List c). by rewrite setList_same. Qed.

Lemma sameRule_trans (c1 c2 c3 : CallExpr) :
  sameRule c1 c2 → sameRule c2 c3 → sameRule c1 c3.
Proof.
  intros H12 H23. pose proof (sameRule_kind _ _ H12) as Hk.
  destruct H12 as ([l ->] & Hn & Hp), H23 as ([l' ->] & Hn' & Hp').
  split; [by exists l'|]. rewrite Hk in Hn', Hp'.
  split; intros H; [rewrite Hn'|rewrite Hp']; auto.
Qed.

Lemma sameStmt_refl (s : Expr) : sameStmt s s.
Proof.
  destruct s; try done. eexists. split; [done|]. apply sameRule_refl.
Qed.

Lemma sameStmt_trans (s1 s2 s3 : Expr) :
  sameStmt s1 s2 → sameStmt s2 s3 → sameStmt s1 s3.
Proof.
  destruct s1; simpl; try (by intros -> ->).
  intros (c2 & -> & H12) (c3 & -> & H23). exists c3. split; [done|].
  by eapply sameRule_trans.
Qed.

Lemma sameRule_match (m : matcher) (c c' : CallExpr) :
  validMatcher m → sameRule c c' → matcher_match m c' = matcher_match m c.
Proof.
  intros Hm Hsame. pose proof (sameRule_kind _ _ Hsame) as Hk.
  destruct Hsame as (_ & Hn & Hp). destruct m as [k n|p]; simpl in *.
  - rewrite Hk. destruct (bool_decide (k = kind c)) eqn:Hkc; [|done].
    apply bool_decide_eq_true in Hkc. rewrite Hn; [done|congruence].
  - rewrite Hk. destruct (bool_decide (kind c = "load")) eqn:Hkc; [|done].
    apply bool_decide_eq_true in Hkc. specialize (Hp Hkc).
    unfold loadPath in Hp.
    destruct (CallExpr_List c), (CallExpr_List c'); simpl in Hp; try done.
    by injection Hp as ->.
Qed.

Lemma sameStmt_accepts (m : matcher) (s s' : Expr) :
  validMatcher m → sameStmt s s' → accepts m s' = accepts m s.
Proof.
  intros Hm. destruct s; simpl; try (by intros ->).
  intros (c' & -> & Hsame). by apply sameRule_match.
Qed.

Lemma sameStmt_Comment (s s' : Expr) :
  sameStmt s s' → Comment_ s' = Comment_ s.
Proof.
  destruct s; simpl; try (by intros ->). by intros (c' & -> & [l ->] & _).
Qed.

(** The search of [match]. *)
Lemma matchFrom_Some (m : matcher) (stmts : list Expr) (i j : nat)
    (c : CallExpr) :
  matchFrom m i stmts = Some (j, c) →
  ∃ n, j = i + n ∧ stmts !! n = Some (ECall c) ∧ matcher_match m c = true.
Proof.
  revert i. induction stmts as [|s stmts IH]; intros i; [done|].
  cbn [matchFrom].
  assert (matchFrom m (S i) stmts = Some (j, c) →
          ∃ n, j = i + n ∧ (s :: stmts) !! n = Some (ECall c) ∧
               matcher_match m c = true) as Hrest.
  { intros (n & -> & Hn & Hc)%IH. exists (S n). split; [lia|done]. }
  destruct s as [| | | | |other| | |]; try done.
  destruct (matcher_match m other) eqn:Hother; [|done].
  intros [= <- <-]. exists 0. split; [lia|done].
Qed.

Lemma matchFrom_None (m : matcher) (stmts : list Expr) (i : nat) :
  matchFrom m i stmts = None ↔ ∀ s, s ∈ stmts → accepts m s = false.
Proof.
  revert i. induction stmts as [|s stmts IH]; intros i.
  { split; [by intros _ s ?%elem_of_nil|done]. }
  cbn [matchFrom].
  assert (accepts m s = false →
          (matchFrom m (S i) stmts = None ↔
           ∀ s', s' ∈ s :: stmts → accepts m s' = false)) as Hrest.
  { intros Hs. rewrite IH. split.
    - intros Hall s' [->|Hs']%elem_of_cons; auto.
    - intros Hall s' Hs'. apply Hall. by right. }
  destruct s as [| | | | |other| | |]; try by apply Hrest.
  destruct (matcher_match m other) eqn:Hother; [|by apply Hrest].
  split; [done|]. intros Hall. specialize (Hall (ECall other)). simpl in Hall.
  rewrite Hall in Hother; [done|left].
Qed.

Lemma matchFrom_app_l (m : matcher) (stmts more : list Expr) (i : nat)
    (r : nat * CallExpr) :
  matchFrom m i stmts = Some r → matchFrom m i (stmts ++ more) = Some r.
Proof.
  revert i. induction stmts as [|s stmts IH]; intros i; [done|].
  cbn [matchFrom app].
  destruct s as [| | | | |other| | |]; try by apply IH.
  destruct (matcher_match m other); [done|by apply IH].
Qed.

Lemma matchFrom_app_r (m : matcher) (stmts more : list Expr) (i : nat) :
  matchFrom m i stmts = None →
  matchFrom m i (stmts ++ more) = matchFrom m (i + length stmts) more.
Proof.
  revert i. induction stmts as [|s stmts IH]; intros i.
  { intros _. simpl. f_equal. lia. }
  cbn [matchFrom app length].
  replace (i + S (length stmts)) with (S i + length stmts) by lia.
  destruct s as [| | | | |other| | |]; try by apply IH.
  destruct (matcher_match m other); [done|by apply IH].
Qed.

(** The search finds the same position in statements that the merges
    made of the statements. *)
Lemma matchFrom_same (m : matcher) (stmts stmts' : list Expr) (i j : nat)
    (c : CallExpr) :
  validMatcher m → Forall2 sameStmt stmts stmts' →
  matchFrom m i stmts = Some (j, c) →
  ∃ c', matchFrom m i stmts' = Some (j, c') ∧
        stmts' !! (j - i) = Some (ECall c').
Proof.
  intros Hm Hsame. revert i. induction Hsame as [|s s' stmts stmts' Hs _ IH];
    intros i; [done|].
  cbn [matchFrom].
  assert (accepts m s = false →
          matchFrom m (S i) stmts = Some (j, c) →
          ∃ c', matchFrom m i (s' :: stmts') = Some (j, c') ∧
                (s' :: stmts') !! (j - i) = Some (ECall c')) as Hrest.
  { intros Hno Hfound.
    pose proof (matchFrom_Some _ _ _ _ _ Hfound) as (n & -> & _).
    destruct (IH _ Hfound) as (c' & Hfound' & Hlookup). exists c'.
    rewrite <- (sameStmt_accepts m s s' Hm Hs) in Hno. split.
    - cbn [matchFrom]. destruct s' as [| | | | |other'| | |]; try done.
      simpl in Hno. by rewrite Hno.
    - replace (S i + n - i) with (S (S i + n - S i)) by lia. done. }
  destruct s as [| | | | |other| | |]; try by apply Hrest.
  destruct (matcher_match m other) eqn:Hother; [|by apply Hrest].
  intros [= <- <-]. destruct Hs as (c' & -> & Hsame').
  exists c'. cbn [matchFrom]. rewrite (sameRule_match m other c') by done.
  rewrite Hother. split; [done|]. by rewrite Nat.sub_diag.
Qed.

Lemma matchFrom_same_None (m : matcher) (stmts stmts' : list Expr) (i : nat) :
  validMatcher m → Forall2 sameStmt stmts stmts' →
  matchFrom m i stmts = None → matchFrom m i stmts' = None.
Proof.
  intros Hm Hsame. rewrite !matchFrom_None. intros Hno s' Hs'.
  apply list_elem_of_lookup in Hs' as [n Hn].
  destruct (Forall2_lookup_r _ _ _ _ _ Hsame Hn) as (s & Hs & Hss).
  rewrite (sameStmt_accepts m s s') by done.
  apply Hno. by eapply list_elem_of_lookup_2.
Qed.

(** The merged rule has the name of the existing rule, when the generated
    rule has that name. *)
Lemma mergeRule_name (gen old merged : CallExpr) :
  name gen = name old →
  mergeRule gen old = Return merged →
  name merged = name old.
Proof.
  intros Hname Hmerged.
  destruct (mergeRule_shape gen old merged Hmerged)
    as (new & -> & Hnd & Hnew & _).
  assert (Rule_AttrDefn (setList old (mergedArguments gen old ++ new)) "name"
          = match Rule_AttrDefn old "name" with
            | Some b => Some b
            | None => attrDefnIn new "name"
            end) as Hdef.
  { unfold Rule_AttrDefn at 1. simpl.
    rewrite attrDefnIn_app, mergedArguments_AttrDefn.
    destruct (decide ("name" ∈ Rule_AttrKeys old)) as [Hin|Hnot].
    - apply attrDefnIn_is_Some in Hin as [b Hb].
      unfold attrPiece, Rule_AttrDefn. rewrite Hb.
      change (negb (index_bool mergeableFields "name")) with true.
      cbn [attrDefnIn]. rewrite decide_True; [done|].
      by apply attrDefnIn_Some in Hb as [? _].
    - apply Rule_Attr_None, fmap_None in Hnot.
      unfold Rule_AttrDefn in Hnot |- *. by rewrite Hnot. }
  unfold name, Rule_Name, Rule_AttrString, Rule_Attr in *. rewrite Hdef.
  destruct (Rule_AttrDefn old "name") as [b|] eqn:Hold; [done|].
  destruct (attrDefnIn new "name") as [b|] eqn:Hb; [|done].
  apply attrDefnIn_Some in Hb as [Hkey Hin].
  destruct (Hnew _ Hin) as (k & v & Hb & Hv & _).
  rewrite Hb, attrKey_attribute in Hkey. injection Hkey as ->.
  injection Hb as ->. rewrite Hv in Hname. done.
Qed.

Lemma mergeRule_sameRule (gen old merged : CallExpr) :
  name gen = name old → kind old ≠ "load" →
  mergeRule gen old = Return merged →
  sameRule old merged.
Proof.
  intros Hname Hkind Hmerged. split; [|split; [|done]].
  - destruct (mergeRule_shape gen old merged Hmerged) as (new & -> & _).
    by eexists.
  - intros _. by eapply mergeRule_name.
Qed.

Lemma mergeLoad_sameRule (gen old merged : CallExpr) (f : File) :
  kind old = "load" →
  mergeLoad gen old f = Return merged →
  sameRule old merged.
Proof.
  intros Hkind Hmerged.
  destruct (CallExpr_List gen) as [|genPath genSymbols] eqn:Hgen;
    [by unfold mergeLoad in Hmerged; rewrite Hgen in Hmerged|].
  destruct (CallExpr_List old) as [|path oldSymbols] eqn:Hold;
    [by unfold mergeLoad in Hmerged; rewrite Hgen, Hold in Hmerged|].
  rewrite (mergeLoad_eq gen old f genPath path genSymbols oldSymbols)
    in Hmerged by done.
  injection Hmerged as <-. split; [by eexists|]. split; [done|].
  intros _. unfold loadPath. simpl. by rewrite Hold.
Qed.

(** The step of [MergeWithExisting] for a generated rule that matches an
    existing one. *)
Definition mergeMatched (genRule oldRule : CallExpr) (oldStmt : list Expr)
    : outcome CallExpr :=
  if decide (kind oldRule = "load") then
    mergeLoad genRule oldRule (mkFile oldStmt)
  else mergeRule genRule oldRule.

Lemma mergeMatched_sameRule (m : matcher) (genRule oldRule merged : CallExpr)
    (oldStmt : list Expr) :
  matcherOf genRule = Some m → matcher_match m oldRule = true →
  mergeMatched genRule oldRule oldStmt = Return merged →
  sameRule oldRule merged.
Proof.
  unfold mergeMatched, matcherOf. intros Hm Haccept.
  destruct (decide (kind oldRule = "load")) as [Hk|Hk].
  - by apply mergeLoad_sameRule.
  - apply mergeRule_sameRule; [|done].
    destruct (decide (kind genRule = "load")) as [Hg|Hg].
    + destruct (CallExpr_List genRule); [done|]. injection Hm as <-.
      simpl in Haccept. apply andb_true_iff in Haccept as [Hload _].
      by apply bool_decide_eq_true in Hload.
    + injection Hm as <-. simpl in Haccept.
      apply andb_true_iff in Haccept as [_ Hn].
      by apply bool_decide_eq_true in Hn.
Qed.

(** A matcher made for a rule accepts rules of its kind only. *)
Lemma matcherOf_kind (c r : CallExpr) (m : matcher) :
  matcherOf c = Some m → matcher_match m r = true → kind r = kind c.
Proof.
  unfold matcherOf. destruct (decide (kind c = "load")) as [Hk|Hk].
  - destruct (CallExpr_List c); [done|]. intros [= <-]. simpl.
    intros [Hload _]%andb_true_iff. apply bool_decide_eq_true in Hload.
    congruence.
  - intros [= <-]. simpl. intros [Hkind _]%andb_true_iff.
    by apply bool_decide_eq_true in Hkind.
Qed.

Lemma mergeStmts_matched (genRule oldRule : CallExpr) (i : nat)
    (genStmt oldStmt newStmt : list Expr) :
  match_ (mkFile oldStmt) genRule = Some (i, oldRule) →
  mergeStmts (ECall genRule :: genStmt) oldStmt newStmt =
    mergedRule ← mergeMatched genRule oldRule oldStmt;
    mergeStmts genStmt (<[i := ECall mergedRule]> oldStmt) newStmt.
Proof. intros Hmatch. cbn [mergeStmts]. by rewrite Hmatch. Qed.

Lemma mergeStmts_unmatched (genRule : CallExpr)
    (genStmt oldStmt newStmt : list Expr) :
  match_ (mkFile oldStmt) genRule = None →
  mergeStmts (ECall genRule :: genStmt) oldStmt newStmt =
    mergeStmts genStmt oldStmt (newStmt ++ [ECall genRule]).
Proof. intros Hmatch. cbn [mergeStmts]. by rewrite Hmatch. Qed.

Lemma sameStmt_insert (stmts : list Expr) (i : nat) (c c' : CallExpr) :
  stmts !! i = Some (ECall c) → sameRule c c' →
  Forall2 sameStmt stmts (<[i := ECall c']> stmts).
Proof.
  intros Hi Hsame. apply Forall2_same_length_lookup_2.
  { by rewrite length_insert. }
  intros j s s' Hs Hs'. destruct (decide (i = j)) as [->|Hne].
  - rewrite list_lookup_insert_eq in Hs' by (by eapply lookup_lt_Some).
    injection Hs' as <-. rewrite Hi in Hs. injection Hs as <-.
    by exists c'.
  - rewrite list_lookup_insert_ne in Hs' by done.
    rewrite Hs in Hs'. injection Hs' as <-. apply sameStmt_refl.
Qed.

Lemma sameStmt_Forall2_trans (l1 l2 l3 : list Expr) :
  Forall2 sameStmt l1 l2 → Forall2 sameStmt l2 l3 → Forall2 sameStmt l1 l3.
Proof.
  intros H12. revert l3. induction H12 as [|s1 s2 l1 l2 Hs _ IH];
    intros l3 H23; [done|].
  apply Forall2_cons_inv_l in H23 as (s3 & l3' & Hs' & H23 & ->).
  constructor; [by eapply sameStmt_trans|by apply IH].
Qed.

(** What the loop of [MergeWithExisting] does to the existing statements
    and to the new ones: each existing statement keeps its place and what
    the merges keep of a rule; a statement that no generated rule matches
    stays as it is; the new statements are generated ones, added behind
    those that were there. *)
Lemma mergeStmts_slots (genStmt : list Expr) :
  ∀ oldStmt newStmt oldStmt' newStmt',
    mergeStmts genStmt oldStmt newStmt = Return (oldStmt', newStmt') →
    Forall2 sameStmt oldStmt oldStmt' ∧
    (∃ new, newStmt' = newStmt ++ new ∧ ∀ s, s ∈ new → s ∈ genStmt) ∧
    (∀ i s, oldStmt !! i = Some s →
       (∀ c m, ECall c ∈ genStmt → matcherOf c = Some m →
               accepts m s = false) →
       oldStmt' !! i = Some s).
Proof.
  induction genStmt as [|g genStmt IH];
    intros oldStmt newStmt oldStmt' newStmt' Hrun.
  { injection Hrun as <- <-. split; [apply Forall2_same_length_lookup_2;
      [done|intros i s s' Hs Hs'; rewrite Hs in Hs'; injection Hs' as <-;
            apply sameStmt_refl]|].
    split; [|done]. exists []. split; [by rewrite app_nil_r|].
    by intros s ?%elem_of_nil. }
  destruct g as [| | | | |genRule| | |]; try done.
  destruct (match_ (mkFile oldStmt) genRule) as [[i oldRule]|] eqn:Hmatch.
  - rewrite (mergeStmts_matched _ _ _ _ _ _ Hmatch) in Hrun.
    destruct (mergeMatched genRule oldRule oldStmt) as [merged| |] eqn:Hm;
      cbn [mbind outcome_bind obind] in Hrun; [|done..].
    rewrite match_matcherOf in Hmatch.
    destruct (matcherOf genRule) as [m|] eqn:Hmatcher; [|done].
    cbn [mbind option_bind] in Hmatch. simpl in Hmatch.
    apply matchFrom_Some in Hmatch as (n & -> & Hi & Haccept). simpl in Hrun.
    pose proof (mergeMatched_sameRule m _ _ _ _ Hmatcher Haccept Hm) as Hsame.
    destruct (IH _ _ _ _ Hrun) as (Hslots & (new & -> & Hnew) & Hkeep).
    split; [|split].
    + eapply sameStmt_Forall2_trans; [|done].
      by apply (sameStmt_insert _ _ oldRule).
    + exists new. split; [done|]. intros s Hs. right. by apply Hnew.
    + intros j s Hj Hno. apply Hkeep.
      * rewrite list_lookup_insert_ne; [done|]. intros <-.
        rewrite Hi in Hj. injection Hj as <-.
        specialize (Hno genRule m). simpl in Hno.
        rewrite Hno in Haccept; [done|left|done].
      * intros c m' Hc. apply Hno. by right.
  - rewrite (mergeStmts_unmatched _ _ _ _ Hmatch) in Hrun.
    destruct (IH _ _ _ _ Hrun) as (Hslots & (new & -> & Hnew) & Hkeep).
    split; [done|]. split.
    + exists (ECall genRule :: new). split; [by rewrite <- (assoc_L (++))|].
      intros s [->|Hs]%elem_of_cons; [left|right; by apply Hnew].
    + intros j s Hj Hno. apply Hkeep; [done|].
      intros c m' Hc. apply Hno. by right.
Qed.

Lemma match_lookup (f : File) (c r : CallExpr) (i : nat) :
  match_ f c = Some (i, r) →
  ∃ m, matcherOf c = Some m ∧ matchFrom m 0 (Stmt f) = Some (i, r) ∧
       Stmt f !! i = Some (ECall r) ∧ matcher_match m r = true.
Proof.
  rewrite match_matcherOf. destruct (matcherOf c) as [m|]; [|done].
  cbn [mbind option_bind]. intros Hfound. exists m.
  pose proof (matchFrom_Some _ _ _ _ _ Hfound) as (n & -> & Hn & Hr).
  done.
Qed.

(** A rule that is used in the existing statements is used in the
    statements that the merges made of them, whatever follows. *)
Lemma ruleUsed_same (rule : string) (stmts stmts' more : list Expr) :
  Forall2 sameStmt stmts stmts' →
  ruleUsed rule (mkFile stmts) = true →
  ruleUsed rule (mkFile (stmts' ++ more)) = true.
Proof.
  intros Hsame. rewrite !ruleUsed_iff. intros (call & Hin & Hkind).
  apply list_elem_of_lookup in Hin as [i Hi]. simpl in Hi.
  destruct (Forall2_lookup_l _ _ _ _ _ Hsame Hi)
    as (s' & Hs' & call' & -> & Hcall).
  exists call'. split.
  - simpl. apply elem_of_app. left. by eapply list_elem_of_lookup_2.
  - destruct Hkind as [?|Hkind]; [by left|right].
    rewrite <- Hkind. apply (sameRule_kind _ _ Hcall).
Qed.

(** A generated statement in normal form. *)
Definition normalStmt (s : Expr) : Prop :=
  ∃ c, s = ECall c ∧
       if decide (kind c = "load") then loadNormal c else ruleNormal c.

(** A later generated statement does not match an earlier one. *)
Definition laterDistinct (a b : Expr) : Prop :=
  ∀ ca cb, a = ECall ca → b = ECall cb →
           match_ (mkFile [ECall ca]) cb = None.

Lemma laterDistinct_accepts (ca cb : CallExpr) (m : matcher) :
  laterDistinct (ECall ca) (ECall cb) → matcherOf cb = Some m →
  matcher_match m ca = false.
Proof.
  intros Hd Hm. specialize (Hd ca cb eq_refl eq_refl).
  rewrite match_matcherOf, Hm in Hd. cbn [mbind option_bind] in Hd.
  simpl in Hd. by destruct (matcher_match m ca).
Qed.

Lemma normalStmt_matcherOf (c : CallExpr) :
  normalStmt (ECall c) → is_Some (matcherOf c).
Proof.
  intros (c' & [= <-] & Hn). unfold matcherOf.
  destruct (decide (kind c = "load")); [|by eexists].
  destruct Hn as (path & symbols & -> & _). by eexists.
Qed.

(** The second merge: every generated statement finds the statement that
    the first merge made for it, and merging it into that statement
    changes nothing. *)
Lemma mergeStmts_idem (genStmt : list Expr) :
  ∀ oldStmt newStmt oldStmt' newStmt',
    (∀ s, s ∈ genStmt → normalStmt s) →
    StronglySorted laterDistinct genStmt →
    (∀ s c m, s ∈ newStmt → ECall c ∈ genStmt → matcherOf c = Some m →
              accepts m s = false) →
    mergeStmts genStmt oldStmt newStmt = Return (oldStmt', newStmt') →
    mergeStmts genStmt (oldStmt' ++ newStmt') []
      = Return (oldStmt' ++ newStmt', []).
Proof.
  induction genStmt as [|g genStmt IH];
    intros oldStmt newStmt oldStmt' newStmt' Hnormal Hsorted Hnew Hrun;
    [done|].
  destruct (Hnormal g) as (genRule & -> & Hn); [left|].
  apply StronglySorted_inv in Hsorted as [Hsorted Hlater].
  rewrite Forall_forall in Hlater.
  assert (∀ s, s ∈ genStmt → normalStmt s) as Hnormal'
    by (intros s Hs; apply Hnormal; by right).
  destruct (match_ (mkFile oldStmt) genRule) as [[i oldRule]|] eqn:Hmatch.
  - (* the generated rule matched an existing one *)
    rewrite (mergeStmts_matched _ _ _ _ _ _ Hmatch) in Hrun.
    destruct (mergeMatched genRule oldRule oldStmt) as [merged| |] eqn:Hm;
      cbn [mbind outcome_bind obind] in Hrun; [|done..].
    destruct (match_lookup _ _ _ _ Hmatch)
      as (m & Hmatcher & Hfound & Hi & Haccept). simpl in Hfound, Hi.
    pose proof (matcherOf_valid _ _ Hmatcher) as Hvalid.
    pose proof (mergeMatched_sameRule m _ _ _ _ Hmatcher Haccept Hm) as Hsame.
    destruct (mergeStmts_slots _ _ _ _ _ Hrun)
      as (Hslots & (new & -> & _) & Hkeep).
    assert (Forall2 sameStmt oldStmt oldStmt') as Hslots'.
    { eapply sameStmt_Forall2_trans; [|done].
      by apply (sameStmt_insert _ _ oldRule). }
    assert (oldStmt' !! i = Some (ECall merged)) as Hi'.
    { apply Hkeep.
      - apply list_lookup_insert_eq. by eapply lookup_lt_Some.
      - intros c m' Hc Hm'. simpl.
        destruct (matcher_match m' merged) eqn:Hmerged; [exfalso|done].
        rewrite (sameRule_match m' oldRule merged) in Hmerged
          by (by eauto using matcherOf_valid).
        pose proof (matcherOf_common _ _ _ _ _ Hmatcher Hm' Haccept Hmerged)
          as Hboth.
        rewrite (laterDistinct_accepts genRule c m') in Hboth;
          [done|by apply Hlater|done]. }
    assert (match_ (mkFile (oldStmt' ++ newStmt ++ new)) genRule
            = Some (i, merged)) as Hmatch'.
    { rewrite match_matcherOf, Hmatcher. cbn [mbind option_bind]. simpl.
      apply matchFrom_app_l.
      destruct (matchFrom_same m _ _ _ _ _ Hvalid Hslots' Hfound)
        as (c' & -> & Hc'). rewrite Nat.sub_0_r, Hi' in Hc'.
      by injection Hc' as <-. }
    rewrite (mergeStmts_matched _ _ _ _ _ _ Hmatch').
    assert (mergeMatched genRule merged (oldStmt' ++ newStmt ++ new)
            = Return merged) as ->.
    { unfold mergeMatched in Hm |- *. rewrite (sameRule_kind _ _ Hsame).
      destruct (decide (kind oldRule = "load")) as [Hk|Hk].
      - eapply mergeLoad_idem; [|done]. intros s.
        by apply ruleUsed_same.
      - eapply mergeRule_idem; [|done].
        rewrite (matcherOf_kind _ _ _ Hmatcher Haccept) in Hk.
        by rewrite decide_False in Hn. }
    cbn [mbind outcome_bind obind].
    rewrite list_insert_id by (by apply lookup_app_l_Some).
    eapply IH; [done..| |done].
    intros s c m' Hs Hc. apply Hnew; [done|by right].
  - (* the generated rule is new *)
    rewrite (mergeStmts_unmatched _ _ _ _ Hmatch) in Hrun.
    destruct (normalStmt_matcherOf genRule) as [m Hmatcher];
      [by exists genRule|].
    pose proof (matcherOf_valid _ _ Hmatcher) as Hvalid.
    rewrite match_matcherOf, Hmatcher in Hmatch.
    cbn [mbind option_bind] in Hmatch. simpl in Hmatch.
    destruct (mergeStmts_slots _ _ _ _ _ Hrun)
      as (Hslots & (new & -> & _) & _).
    assert (match_ (mkFile (oldStmt' ++ (newStmt ++ [ECall genRule]) ++ new))
              genRule
            = Some (length oldStmt' + length newStmt, genRule)) as Hmatch'.
    { rewrite match_matcherOf, Hmatcher. cbn [mbind option_bind]. simpl.
      rewrite matchFrom_app_r by (by eapply matchFrom_same_None).
      rewrite <- (assoc_L (++)). rewrite matchFrom_app_r.
      - cbn [app matchFrom]. by rewrite (matcherOf_self _ _ Hmatcher).
      - apply matchFrom_None. intros s Hs.
        apply (Hnew s genRule m); [done|left|done]. }
    rewrite (mergeStmts_matched _ _ _ _ _ _ Hmatch').
    assert (mergeMatched genRule genRule
              (oldStmt' ++ (newStmt ++ [ECall genRule]) ++ new)
            = Return genRule) as ->.
    { unfold mergeMatched.
      destruct (decide (kind genRule = "load")).
      - by apply mergeLoad_self.
      - by apply mergeRule_self. }
    cbn [mbind outcome_bind obind].
    destruct (match_lookup _ _ _ _ Hmatch') as (_ & _ & _ & Hi & _).
    simpl in Hi. rewrite list_insert_id by done.
    eapply IH; [done..| |done].
    intros s c m' [Hs| ->%list_elem_of_singleton]%elem_of_app Hc Hm'.
    + apply (Hnew s c m'); [done|by right|done].
    + simpl. apply (laterDistinct_accepts genRule c m'); [|done].
      by apply Hlater.
Qed.

Lemma generatedNormal_sorted (stmts : list Expr) :
  (∀ i j ci cj, i < j → stmts !! i = Some (ECall ci) →
     stmts !! j = Some (ECall cj) → match_ (mkFile [ECall ci]) cj = None) →
  StronglySorted laterDistinct stmts.
Proof.
  induction stmts as [|a stmts IH]; intros Hd; constructor.
  - apply IH. intros i j ci cj Hij Hi Hj.
    apply (Hd (S i) (S j)); [lia|done..].
  - apply Forall_forall. intros b Hb ca cb -> ->.
    apply list_elem_of_lookup in Hb as [j Hj].
    apply (Hd 0 (S j)); [lia|done..].
Qed.

Definition stmtIgnored (s : Expr) : bool :=
  existsb isIgnoreComment (After (Comment_ s))
  || existsb isIgnoreComment (Before (Comment_ s)).

Lemma shouldIgnore_false (f : File) :
  shouldIgnore f = false ↔ ∀ s, s ∈ Stmt f → stmtIgnored s = false.
Proof.
  change (shouldIgnore f) with (existsb stmtIgnored (Stmt f)). split.
  - intros Hno s Hs. destruct (stmtIgnored s) eqn:Hi; [|done].
    rewrite <- Hno. symmetry. apply existsb_elem_of. by exists s.
  - intros Hall. destruct (existsb stmtIgnored (Stmt f)) eqn:Hi; [|done].
    apply existsb_elem_of in Hi as (s & Hs & Hi). by rewrite Hall in Hi.
Qed.


Definition exampleGenerated : File :=
  mkFile
    [ECall (mkCallExpr noComments (lit "load")
              [str "@io_bazel_rules_go//go:def.bzl"; str "go_library"]
              false false);
     ECall (mkCallExpr noComments (lit "go_library")
              [attribute "name" (str "go_default_library");
               attribute "srcs" (EList (list_of [str "a.go"; str "b.go"]))]
              false false)].

Definition exampleExisting : File :=
  mkFile
    [ECall (mkCallExpr noComments (lit "load")
              [str "@io_bazel_rules_go//go:def.bzl"; str "go_test";
               str "go_binary"]
              false false);
     ECall (mkCallExpr noComments (lit "go_library")
              [attribute "name" (str "go_default_library");
               attribute "srcs"
                 (EList (list_of [str "old.go"; str_suffix "gen.go" "# keep"]));
               attribute "visibility"
                 (EList (list_of [str "//visibility:public"]))]
              false false);
     ECall (mkCallExpr noComments (lit "go_test")
              [attribute "name" (str "go_default_test")] false false)].

Definition exampleMerged : File :=
  mkFile
    [ECall (mkCallExpr noComments (lit "load")
              [str "@io_bazel_rules_go//go:def.bzl"; str "go_library";
               str "go_test"]
              false false);
     ECall (mkCallExpr noComments (lit "go_library")
              [attribute "name" (str "go_default_library");
               attribute "srcs"
                 (EList (list_of [str_suffix "gen.go" "# keep"; str "a.go";
                                  str "b.go"]));
               attribute "visibility"
                 (EList (list_of [str "//visibility:public"]))]
              false false);
     ECall (mkCallExpr noComments (lit "go_test")
              [attribute "name" (str "go_default_test")] false false)].


End idempotence.

(** ** Further properties of the merger *)
Module merger_laws.
Import merger specified merger_facts idempotence.

(** *** Lists *)

(** [mergeList] is stable: when the generated list has no keep marker,
    merging it into the list that a merge with it gave returns that list
    again, whatever the existing list was. *)
Theorem mergeList_again (gen : option ListExpr) (old merged : ListExpr) :
  keepFree (elements_of gen) →
  mergeList gen (Some old) = Some merged →
  mergeList gen (Some merged) = Some merged.
Proof. apply mergeList_idem. Qed.

Lemma mergeList_again_witness :
  mergeList (Some (list_of [str "a.go"; str "b.go"]))
            (Some (list_of [str_suffix "b.go" "# keep"; str "a.go"]))
  = Some (list_of [str_suffix "b.go" "# keep"; str "a.go"]).
Proof.
  apply (mergeList_again _
           (list_of [str_suffix "b.go" "# keep"; str "c.go"])).
  - repeat constructor.
  - vm_compute. reflexivity.
Defined.

(** *** Dictionaries *)

Lemma oldEntries_Return_inv (l : list Expr) :
  ∀ entries entryMap O r,
    represents entries entryMap O [] →
    NoDup O.*1 →
    oldEntries l entries entryMap = Return r →
    Forall decodable l ∧ NoDup (O.*1 ++ (omap entryOfExpr l).*1).
Proof.
  induction l as [|kv l IH]; intros entries entryMap O r Hrep Hnd Hr.
  { split; [constructor|]. by rewrite app_nil_r. }
  cbn [oldEntries] in Hr.
  destruct (dictEntryKeyValue kv) as [[k v]| |] eqn:Hkv;
    cbn [mbind outcome_bind obind] in Hr; [|done..].
  destruct (entryMap !! k) as [i|] eqn:Hk; [done|].
  pose proof Hkv as Hkv'. apply dictEntryKeyValue_Return in Hkv'.
  assert (oldEntries [kv] entries entryMap =
          Return (entries ++ [mkDictEntry k (Some v) None None],
                  <[k := length entries]> entryMap)) as Hone.
  { cbn [oldEntries]. rewrite Hkv. cbn [mbind outcome_bind obind].
    by rewrite Hk. }
  pose proof (oldEntries_represents _ _ _ _ _ _ Hrep Hone) as Hrep'.
  cbn [omap list_omap] in Hrep'. rewrite Hkv' in Hrep'.
  assert (k ∉ O.*1) as Hfresh.
  { intros Hin.
    apply (proj1 (consistent_fresh _ _ k (rep_consistent _ _ _ _ Hrep)) Hk).
    apply (rep_keys _ _ _ _ Hrep). by left. }
  destruct (IH _ _ _ _ Hrep' ltac:(rewrite fmap_app; apply NoDup_app;
              split; [done|]; split;
              [by intros k' Hk' ->%list_elem_of_singleton
              |apply NoDup_singleton]) Hr)
    as [Hdec Hnd'].
  split; [constructor; [by eexists|done]|].
  cbn [omap list_omap]. rewrite Hkv'. fold (omap entryOfExpr l).
  rewrite fmap_app, <- (assoc_L (++)) in Hnd'. done.
Qed.

Lemma genEntries_Return_inv (l : list Expr) :
  ∀ entries entryMap r,
    genEntries l entries entryMap = Return r → Forall decodable l.
Proof.
  induction l as [|kv l IH]; intros entries entryMap r Hr; [constructor|].
  cbn [genEntries] in Hr.
  destruct (dictEntryKeyValue kv) as [[k v]| |] eqn:Hkv;
    cbn [mbind outcome_bind obind] in Hr; [|done..].
  apply dictEntryKeyValue_Return in Hkv.
  constructor; [by eexists|].
  destruct (entryMap !! k); by eapply IH.
Qed.

(** What [mergeDict] accepts: with an existing dictionary it returns a
    dictionary (or nil) exactly when every entry of the existing
    dictionary is a pair of a string key and a list, no key occurs twice
    in the existing dictionary, and every entry of the generated
    dictionary is such a pair; a key may occur twice in the generated
    dictionary. Otherwise it returns an error; it never crashes. *)
Theorem mergeDict_accepts (gen : option DictExpr) (old : DictExpr) :
  let accepted :=
    Forall decodable (DictExpr_List old) ∧
    NoDup (dictKeys (Some old)) ∧
    Forall decodable
      (DictExpr_List (default (mkDictExpr noComments [] false) gen)) in
  match mergeDict gen (Some old) with
  | Return _ => accepted
  | Error _ => ¬ accepted
  | Panic _ => False
  end.
Proof.
  intros accepted.
  destruct (mergeDict gen (Some old)) as [r|msg|msg] eqn:Hr.
  - destruct (oldEntries (DictExpr_List old) [] ∅) as [[es1 m1]| |] eqn:Hold;
      [|unfold mergeDict in Hr; by rewrite Hold in Hr..].
    destruct (genEntries
                (DictExpr_List (default (mkDictExpr noComments [] false) gen))
                es1 m1) as [[entries entryMap]| |] eqn:Hgen;
      [|unfold mergeDict in Hr; rewrite Hold in Hr;
        cbn [mbind outcome_bind obind] in Hr; by rewrite Hgen in Hr..].
    destruct (oldEntries_Return_inv _ _ _ [] _ represents_nil
                ltac:(constructor) Hold) as [Hdec Hnd].
    split; [done|]. split; [done|]. by eapply genEntries_Return_inv.
  - intros (Hold & Hnd & Hgen).
    rewrite mergeDict_success in Hr by done. discriminate Hr.
  - by apply mergeDict_not_Panic in Hr.
Qed.

(** *** Expressions *)

(** What [mergeExpr] returns for a generated expression that is not a
    string can be merged again: [exprListAndDict] accepts it and finds a
    list or a dictionary in it. *)
Theorem mergeExpr_recognised (gen old : option Expr) (v : Expr) :
  (∀ s, gen ≠ Some (EString s)) →
  mergeExpr gen old = Return (Some v) →
  ∃ l d, exprListAndDict (Some v) = Return (l, d) ∧
         (is_Some l ∨ is_Some d) ∧
         listElements v = elements_of l ++ dictElements d.
Proof.
  intros Hns. rewrite mergeExpr_parts by done.
  destruct (exprListAndDict gen) as [[gl gd]| |];
    cbn [mbind outcome_bind obind]; [|done..].
  destruct (exprListAndDict old) as [[ol od]| |];
    cbn [mbind outcome_bind obind]; [|done..].
  destruct (mergeDict gd od) as [md| |];
    cbn [mbind outcome_bind obind]; [|done..].
  intros [= Hv]. pose proof (exprListAndDict_recombine _ _ _ Hv) as Hparts.
  exists (if md is Some _ then forceMultiLine <$> mergeList gl ol
          else mergeList gl ol), md.
  split; [done|]. split.
  - unfold recombine in Hv.
    destruct (mergeList gl ol) as [m|], md as [d|]; simpl; [..|done];
      first [left; by eexists|right; by eexists].
  - unfold listElements. by rewrite Hparts.
Qed.

Lemma mergeExpr_recognised_witness :
  ∃ l d,
    exprListAndDict
      (Some (EList (list_of [str_suffix "b.go" "# keep"; str "a.go"])))
    = Return (l, d) ∧
    (is_Some l ∨ is_Some d) ∧
    listElements (EList (list_of [str_suffix "b.go" "# keep"; str "a.go"]))
    = elements_of l ++ dictElements d.
Proof.
  apply (mergeExpr_recognised
           (Some (EList (list_of [str "a.go"])))
           (Some (EList (list_of [str_suffix "b.go" "# keep"; str "c.go"])))).
  - intros s. discriminate.
  - vm_compute. reflexivity.
Defined.

(** *** Rules *)

(** The merged rule is the existing rule with other arguments: its
    unnamed arguments, followed by attributes only. What stands behind
    the first attribute of the existing rule and is not an attribute is
    left out. *)
Theorem mergeRule_arguments (gen old : CallExpr) :
  ∃ attrs,
    mergeRule gen old =
      Return (setList old (unnamedArguments (CallExpr_List old) ++ attrs)) ∧
    Forall (λ e, is_Some (attrKey e)) attrs ∧
    unnamedArguments (unnamedArguments (CallExpr_List old) ++ attrs)
      = unnamedArguments (CallExpr_List old).
Proof.
  destruct (mergeRule gen old) as [merged| |] eqn:Hmerged;
    [|by rewrite mergeRule_Return in Hmerged..].
  destruct (mergeRule_shape gen old merged Hmerged)
    as (new & -> & _ & Hnew & _).
  exists ((Rule_AttrKeys old ≫= attrPiece gen old) ++ new).
  assert (Forall (λ e, is_Some (attrKey e))
            ((Rule_AttrKeys old ≫= attrPiece gen old) ++ new)) as Hattrs.
  { apply Forall_forall. intros e [He|He]%elem_of_app.
    - apply list_elem_of_bind in He as (k & He & _).
      rewrite (attrPiece_key gen old k e He). by eexists.
    - destruct (Hnew e He) as (k & v & -> & _). by eexists. }
  split; [|split; [done|]].
  - unfold mergedArguments. by rewrite <- (assoc_L (++)).
  - apply unnamedArguments_app. intros e He.
    eapply Forall_forall in Hattrs as [k Hk]; [|done].
    by eapply attrKey_Some_isAssignment.
Qed.

(** An attribute of the existing rule that is not merged (any but srcs,
    deps and library) is in the merged rule as it was, whatever the
    generated rule says about it. *)
Theorem mergeRule_keeps_other_attributes (gen old : CallExpr) (k : string) :
  k ∈ Rule_AttrKeys old → ¬ mergeable k →
  ∃ merged, mergeRule gen old = Return merged ∧
            Rule_AttrDefn merged k = Rule_AttrDefn old k.
Proof.
  intros Hk Hm.
  destruct (mergeRule gen old) as [merged| |] eqn:Hmerged;
    [|by rewrite mergeRule_Return in Hmerged..].
  exists merged. split; [done|].
  destruct (mergeRule_shape gen old merged Hmerged) as (new & -> & _).
  unfold Rule_AttrDefn at 1. simpl.
  rewrite attrDefnIn_app, mergedArguments_AttrDefn, decide_True by done.
  pose proof Hk as [b Hb]%attrDefnIn_is_Some.
  unfold attrPiece, Rule_AttrDefn. rewrite Hb.
  destruct (index_bool mergeableFields k) eqn:Hi;
    [by apply mergeable_iff in Hi|].
  cbn [negb attrDefnIn]. rewrite decide_True; [done|].
  by apply attrDefnIn_Some in Hb as [? _].
Qed.

Lemma mergeRule_keeps_other_attributes_witness :
  ∃ merged,
    mergeRule
      (mkCallExpr noComments (lit "go_library")
         [attribute "name" (str "go_default_library");
          attribute "visibility" (EList (list_of [str "//visibility:public"]))]
         false false)
      (mkCallExpr noComments (lit "go_library")
         [attribute "name" (str "go_default_library");
          attribute "visibility" (EList (list_of [str "//visibility:private"]))]
         false false)
    = Return merged ∧
    Rule_AttrDefn merged "visibility" =
      Some (mkBinaryExpr noComments (lit "visibility") "="
              (EList (list_of [str "//visibility:private"]))).
Proof.
  apply (mergeRule_keeps_other_attributes _
           (mkCallExpr noComments (lit "go_library")
              [attribute "name" (str "go_default_library");
               attribute "visibility"
                 (EList (list_of [str "//visibility:private"]))]
              false false) "visibility").
  - vm_compute. right. left.
  - intros Hm. vm_compute in Hm.
    repeat (apply elem_of_cons in Hm as [Hm|Hm]; [discriminate Hm|]).
    by apply elem_of_nil in Hm.
Defined.

(** Every attribute of the generated rule is in the merged rule; one
    that the existing rule does not have is there with the generated
    value. *)
Theorem mergeRule_generated_attributes (gen old : CallExpr) (k : string) :
  k ∈ Rule_AttrKeys gen →
  ∃ merged, mergeRule gen old = Return merged ∧
            is_Some (Rule_Attr merged k) ∧
            (k ∉ Rule_AttrKeys old → Rule_Attr merged k = Rule_Attr gen k).
Proof.
  intros Hk.
  destruct (mergeRule gen old) as [merged| |] eqn:Hmerged;
    [|by rewrite mergeRule_Return in Hmerged..].
  exists merged. split; [done|].
  destruct (mergeRule_shape gen old merged Hmerged)
    as (new & -> & Hnd & Hnew & Hkeys).
  split.
  - apply not_eq_None_Some. intros Hnone. apply Rule_Attr_None in Hnone.
    apply Hnone. unfold Rule_AttrKeys. simpl. rewrite omap_app.
    apply elem_of_app. by apply Hkeys.
  - intros Hold. unfold Rule_Attr at 1. unfold Rule_AttrDefn. simpl.
    rewrite attrDefnIn_app, mergedArguments_AttrDefn, decide_False by done.
    destruct (Hkeys k Hk) as [Hin|Hin].
    { apply attrDefnIn_is_Some in Hin as [b Hb].
      by rewrite mergedArguments_AttrDefn, decide_False in Hb. }
    apply list_elem_of_omap in Hin as (e & He & Hkey).
    destruct (Hnew e He) as (k' & v & -> & Hv & _).
    rewrite attrKey_attribute in Hkey. injection Hkey as ->.
    unfold attribute in He.
    rewrite (attrDefnIn_NoDup new _ k Hnd He) by done.
    by rewrite Hv.
Qed.

Lemma mergeRule_generated_attributes_witness :
  ∃ merged,
    mergeRule
      (mkCallExpr noComments (lit "go_library")
         [attribute "name" (str "go_default_library");
          attribute "deps" (EList (list_of [str "//lib:go_default_library"]))]
         false false)
      (mkCallExpr noComments (lit "go_library")
         [attribute "name" (str "go_default_library")] false false)
    = Return merged ∧
    is_Some (Rule_Attr merged "deps") ∧
    ("deps" ∉ Rule_AttrKeys
                (mkCallExpr noComments (lit "go_library")
                   [attribute "name" (str "go_default_library")] false false) →
     Rule_Attr merged "deps" =
       Rule_Attr
         (mkCallExpr noComments (lit "go_library")
            [attribute "name" (str "go_default_library");
             attribute "deps"
               (EList (list_of [str "//lib:go_default_library"]))]
            false false) "deps").
Proof.
  apply (mergeRule_generated_attributes
           (mkCallExpr noComments (lit "go_library")
              [attribute "name" (str "go_default_library");
               attribute "deps"
                 (EList (list_of [str "//lib:go_default_library"]))]
              false false)).
  vm_compute. right. left.
Defined.

(** A merged attribute whose existing value [mergeExpr] cannot read (a
    call of glob, a name, ...) gets the generated value, when that is not
    a string: the existing value is lost. *)
Theorem mergeRule_unreadable_value (gen old : CallExpr) (k : string)
    (oldAttr : BinaryExpr) (g : Expr) (msg : string) :
  mergeable k →
  Rule_AttrDefn old k = Some oldAttr →
  exprListAndDict (Some (BinaryExpr_Y oldAttr)) = Error msg →
  Rule_Attr gen k = Some g → (∀ s, g ≠ EString s) →
  ∃ merged, mergeRule gen old = Return merged ∧ Rule_Attr merged k = Some g.
Proof.
  intros Hm Hold Herr Hgen Hns.
  destruct (mergeRule gen old) as [merged| |] eqn:Hmerged;
    [|by rewrite mergeRule_Return in Hmerged..].
  exists merged. split; [done|].
  destruct (mergeRule_shape gen old merged Hmerged) as (new & -> & _).
  assert (k ∈ Rule_AttrKeys old) as Hk
    by (apply attrDefnIn_is_Some; by eexists).
  unfold Rule_Attr at 1. unfold Rule_AttrDefn at 1. simpl.
  rewrite attrDefnIn_app, mergedArguments_AttrDefn, decide_True by done.
  unfold attrPiece. rewrite Hold.
  apply mergeable_iff in Hm. rewrite Hm. cbn [negb].
  assert (mergedAttrValue (Rule_Attr gen k) (BinaryExpr_Y oldAttr) = Some g)
    as ->.
  { unfold mergedAttrValue. rewrite Hgen.
    rewrite mergeExpr_parts by (intros s [= ->]; by eapply Hns).
    destruct (exprListAndDict (Some g)) as [[gl gd]|msg'|msg'] eqn:Hg;
      cbn [mbind outcome_bind obind]; [|done|].
    - rewrite Herr. done.
    - by destruct (exprListAndDict_not_Panic (Some g) msg'). }
  cbn [attrDefnIn]. rewrite decide_True; [done|].
  rewrite attrKey_setY. by apply attrDefnIn_Some in Hold as [? _].
Qed.

Lemma mergeRule_unreadable_value_witness :
  ∃ merged,
    mergeRule
      (mkCallExpr noComments (lit "go_library")
         [attribute "srcs" (EList (list_of [str "a.go"]))] false false)
      (mkCallExpr noComments (lit "go_library")
         [attribute "srcs"
            (ECall (mkCallExpr noComments (lit "glob")
                      [EList (list_of [str "*.go"])] false false))]
         false false)
    = Return merged ∧
    Rule_Attr merged "srcs" = Some (EList (list_of [str "a.go"])).
Proof.
  eapply (mergeRule_unreadable_value _ _ "srcs").
  - left.
  - vm_compute. reflexivity.
  - vm_compute. reflexivity.
  - vm_compute. reflexivity.
  - intros s. discriminate.
Defined.

(** A merged attribute that is a list in both rules is the existing
    attribute, with its comments, holding the list that [mergeList] makes
    of the two lists, when that list is not nil. *)
Theorem mergeRule_merges_lists (gen old : CallExpr) (k : string)
    (oldAttr : BinaryExpr) (gl ol m : ListExpr) :
  mergeable k →
  Rule_AttrDefn old k = Some oldAttr →
  BinaryExpr_Y oldAttr = EList ol →
  Rule_Attr gen k = Some (EList gl) →
  mergeList (Some gl) (Some ol) = Some m →
  ∃ merged, mergeRule gen old = Return merged ∧
            Rule_AttrDefn merged k = Some (setY oldAttr (EList m)).
Proof.
  intros Hm Hold Hol Hgen Hmerge.
  destruct (mergeRule gen old) as [merged| |] eqn:Hmerged;
    [|by rewrite mergeRule_Return in Hmerged..].
  exists merged. split; [done|].
  destruct (mergeRule_shape gen old merged Hmerged) as (new & -> & _).
  assert (k ∈ Rule_AttrKeys old) as Hk
    by (apply attrDefnIn_is_Some; by eexists).
  unfold Rule_AttrDefn at 1. simpl.
  rewrite attrDefnIn_app, mergedArguments_AttrDefn, decide_True by done.
  unfold attrPiece. rewrite Hold.
  apply mergeable_iff in Hm. rewrite Hm. cbn [negb].
  assert (mergedAttrValue (Rule_Attr gen k) (BinaryExpr_Y oldAttr)
          = Some (EList m)) as ->.
  { unfold mergedAttrValue. rewrite Hgen, Hol, mergeExpr_parts by done.
    change (exprListAndDict (Some (EList gl))) with
      (Return (Some gl, None : option DictExpr)).
    change (exprListAndDict (Some (EList ol))) with
      (Return (Some ol, None : option DictExpr)).
    cbn [mbind outcome_bind obind]. rewrite Hmerge.
    change (mergeDict None None) with (Return (None : option DictExpr)).
    done. }
  cbn [attrDefnIn]. rewrite decide_True; [done|].
  rewrite attrKey_setY. by apply attrDefnIn_Some in Hold as [? _].
Qed.

Lemma mergeRule_merges_lists_witness :
  ∃ merged,
    mergeRule
      (mkCallExpr noComments (lit "go_library")
         [attribute "srcs" (EList (list_of [str "a.go"]))] false false)
      (mkCallExpr noComments (lit "go_library")
         [attribute "srcs"
            (EList (list_of [str_suffix "b.go" "# keep"; str "c.go"]))]
         false false)
    = Return merged ∧
    Rule_AttrDefn merged "srcs" =
      Some (setY (mkBinaryExpr noComments (lit "srcs") "="
                    (EList (list_of [str_suffix "b.go" "# keep"; str "c.go"])))
                 (EList (list_of [str_suffix "b.go" "# keep"; str "a.go"]))).
Proof.
  eapply (mergeRule_merges_lists _ _ "srcs").
  - left.
  - vm_compute. reflexivity.
  - reflexivity.
  - vm_compute. reflexivity.
  - vm_compute. reflexivity.
Defined.

(** *** Load statements *)

(** [mergeLoad] is stable: merging the generated load statement into the
    load statement that a merge with it gave returns that statement
    again, in every file that uses the rules that the file of the first
    merge used. *)
Theorem mergeLoad_again (gen old merged : CallExpr) (f f' : File) :
  (∀ rule, ruleUsed rule f = true → ruleUsed rule f' = true) →
  mergeLoad gen old f = Return merged →
  mergeLoad gen merged f' = Return merged.
Proof. apply mergeLoad_idem. Qed.

Lemma mergeLoad_again_witness :
  mergeLoad
    (mkCallExpr noComments (lit "load")
       [str "@io_bazel_rules_go//go:def.bzl"; str "go_library"] false false)
    (mkCallExpr noComments (lit "load")
       [str "@io_bazel_rules_go//go:def.bzl"; str "go_library"; str "go_test"]
       false false)
    exampleExisting
  = Return
      (mkCallExpr noComments (lit "load")
         [str "@io_bazel_rules_go//go:def.bzl"; str "go_library";
          str "go_test"] false false).
Proof.
  apply (mergeLoad_again _
           (mkCallExpr noComments (lit "load")
              [str "@io_bazel_rules_go//go:def.bzl"; str "go_test";
               str "go_binary"] false false)
           _ exampleExisting exampleExisting).
  - intros rule Hrule. exact Hrule.
  - vm_compute. reflexivity.
Defined.

(** *** Matching *)

Lemma matchFrom_first (m : matcher) (stmts : list Expr) (i j : nat)
    (c : CallExpr) :
  matchFrom m i stmts = Some (j, c) →
  ∃ n, j = i + n ∧ stmts !! n = Some (ECall c) ∧ matcher_match m c = true ∧
       ∀ n' s, n' < n → stmts !! n' = Some s → accepts m s = false.
Proof.
  revert i. induction stmts as [|s stmts IH]; intros i; [done|].
  cbn [matchFrom].
  assert (accepts m s = false →
          matchFrom m (S i) stmts = Some (j, c) →
          ∃ n, j = i + n ∧ (s :: stmts) !! n = Some (ECall c) ∧
               matcher_match m c = true ∧
               ∀ n' s', n' < n → (s :: stmts) !! n' = Some s' →
                        accepts m s' = false) as Hrest.
  { intros Hs (n & -> & Hn & Hc & Hbefore)%IH. exists (S n).
    split; [lia|]. split; [done|]. split; [done|].
    intros [|n'] s' Hlt Hs'; [by injection Hs' as <-|].
    apply (Hbefore n'); [lia|done]. }
  destruct s as [| | | | |other| | |]; try by apply Hrest.
  destruct (matcher_match m other) eqn:Hother; [|by apply Hrest].
  intros [= <- <-]. exists 0. split; [lia|]. split; [done|].
  split; [done|]. intros n' s' Hlt. lia.
Qed.

Lemma match_single (s : Expr) (c : CallExpr) :
  match_ (mkFile [s]) c = None ↔
  ∀ m, matcherOf c = Some m → accepts m s = false.
Proof.
  rewrite match_matcherOf. destruct (matcherOf c) as [m|]; [|done].
  cbn [mbind option_bind Stmt]. rewrite matchFrom_None. split.
  - intros Hs m' [= <-]. apply Hs. left.
  - intros Hs s' ->%list_elem_of_singleton. by apply Hs.
Qed.


(** *** Files *)

(** The merge of a generated statement with the statement that [match]
    found for it returns: it does not run into the bounds of the
    arguments of a load statement. *)
Lemma mergeMatched_returns (f : File) (g r : CallExpr) (i : nat) :
  match_ f g = Some (i, r) →
  ∃ merged, mergeMatched g r (Stmt f) = Return merged.
Proof.
  intros (m & Hm & _ & _ & Hr)%match_lookup. unfold mergeMatched.
  destruct (decide (kind r = "load")) as [Hk|Hk];
    [|rewrite mergeRule_Return; by eexists].
  rewrite (matcherOf_kind _ _ _ Hm Hr) in Hk. unfold matcherOf in Hm.
  rewrite decide_True in Hm by done.
  destruct (CallExpr_List g) as [|gp gs] eqn:Hg; [done|].
  injection Hm as <-. simpl in Hr. apply andb_true_iff in Hr as [_ Hr].
  destruct (CallExpr_List r) as [|p rs] eqn:Hrl; [done|].
  rewrite (mergeLoad_eq g r _ gp p gs rs) by done. by eexists.
Qed.

Lemma mergeStmts_outcome (genStmt : list Expr) :
  ∀ oldStmt newStmt,
    match mergeStmts genStmt oldStmt newStmt with
    | Return _ => ∀ s, s ∈ genStmt → ∃ c, s = ECall c
    | Error _ => False
    | Panic _ => ∃ s, s ∈ genStmt ∧ ∀ c, s ≠ ECall c
    end.
Proof.
  induction genStmt as [|g genStmt IH]; intros oldStmt newStmt.
  { by intros s ?%elem_of_nil. }
  assert (∀ oldStmt' newStmt' c, g = ECall c →
    match mergeStmts genStmt oldStmt' newStmt' with
    | Return _ => ∀ s, s ∈ g :: genStmt → ∃ c, s = ECall c
    | Error _ => False
    | Panic _ => ∃ s, s ∈ g :: genStmt ∧ ∀ c, s ≠ ECall c
    end) as Hrest.
  { intros oldStmt' newStmt' c ->. specialize (IH oldStmt' newStmt').
    destruct (mergeStmts genStmt oldStmt' newStmt'); [|done|].
    - intros s [->|Hs]%elem_of_cons; [by eexists|by apply IH].
    - destruct IH as (s & Hs & Hc). exists s. split; [by right|done]. }
  destruct g as [| | | | |genRule| | |];
    try (cbn [mergeStmts]; eexists; split; [left|done]).
  destruct (match_ (mkFile oldStmt) genRule) as [[i oldRule]|] eqn:Hmatch.
  - rewrite (mergeStmts_matched _ _ _ _ _ _ Hmatch).
    destruct (mergeMatched_returns _ _ _ _ Hmatch) as [merged Hmerged].
    simpl in Hmerged. rewrite Hmerged. cbn [mbind outcome_bind obind].
    by eapply Hrest.
  - rewrite (mergeStmts_unmatched _ _ _ _ Hmatch). by eapply Hrest.
Qed.

(** When the existing file has no ignore comment, the merge returns a
    file if every generated statement is a call, and crashes if one is
    not; it never returns an error. In particular the slices of the
    arguments of load statements are never out of bounds. *)
Theorem mergeFile_outcome (genFile oldFile : File) :
  shouldIgnore oldFile = false →
  match mergeFile genFile oldFile with
  | Return merged =>
    is_Some merged ∧ ∀ s, s ∈ Stmt genFile → ∃ c, s = ECall c
  | Error _ => False
  | Panic _ => ∃ s, s ∈ Stmt genFile ∧ ∀ c, s ≠ ECall c
  end.
Proof.
  intros Hignore. unfold mergeFile. rewrite Hignore.
  pose proof (mergeStmts_outcome (Stmt genFile) (Stmt oldFile) []) as Hrun.
  destruct (mergeStmts (Stmt genFile) (Stmt oldFile) []) as [[o n]| |];
    cbn [mbind outcome_bind obind]; [|done..].
  split; [by eexists|done].
Qed.

Lemma mergeFile_outcome_witness :
  match mergeFile exampleGenerated exampleExisting with
  | Return merged =>
    is_Some merged ∧ ∀ s, s ∈ Stmt exampleGenerated → ∃ c, s = ECall c
  | Error _ => False
  | Panic _ => ∃ s, s ∈ Stmt exampleGenerated ∧ ∀ c, s ≠ ECall c
  end.
Proof. apply mergeFile_outcome. reflexivity. Defined.

(** A statement of the existing file that no generated statement matches
    is in the merged file, unchanged and at its place: the merge deletes
    nothing. *)
Theorem mergeFile_keeps_unmatched (genFile oldFile merged : File) (i : nat)
    (s : Expr) :
  mergeFile genFile oldFile = Return (Some merged) →
  Stmt oldFile !! i = Some s →
  (∀ c, ECall c ∈ Stmt genFile → match_ (mkFile [s]) c = None) →
  Stmt merged !! i = Some s.
Proof.
  unfold mergeFile. destruct (shouldIgnore oldFile); [done|].
  destruct (mergeStmts (Stmt genFile) (Stmt oldFile) [])
    as [[oldStmt newStmt]| |] eqn:Hrun;
    cbn [mbind outcome_bind obind]; [|done..].
  intros [= <-] Hi Hno. simpl. apply lookup_app_l_Some.
  destruct (mergeStmts_slots _ _ _ _ _ Hrun) as (_ & _ & Hkeep).
  apply Hkeep; [done|]. intros c m Hc Hm.
  by apply (proj1 (match_single s c) (Hno c Hc)).
Qed.

Lemma mergeFile_keeps_unmatched_witness :
  Stmt exampleMerged !! 2 =
    Some (ECall (mkCallExpr noComments (lit "go_test")
                   [attribute "name" (str "go_default_test")] false false)).
Proof.
  apply (mergeFile_keeps_unmatched exampleGenerated exampleExisting).
  - vm_compute. reflexivity.
  - reflexivity.
  - intros c Hc. simpl in Hc.
    apply elem_of_cons in Hc as [[= ->]|Hc];
      [|apply elem_of_cons in Hc as [[= ->]|Hc];
        [|by apply elem_of_nil in Hc]];
      vm_compute; reflexivity.
Defined.

(** Whether a generated statement finds a statement in the file. *)
Definition unmatched (f : File) (s : Expr) : bool :=
  match s with
  | ECall c => bool_decide (match_ f c = None)
  | _ => false
  end.

Lemma match_same_None (stmts stmts' : list Expr) (c : CallExpr) :
  Forall2 sameStmt stmts stmts' →
  match_ (mkFile stmts) c = None ↔ match_ (mkFile stmts') c = None.
Proof.
  intros Hsame. rewrite !match_matcherOf.
  destruct (matcherOf c) as [m|] eqn:Hm; [|done].
  cbn [mbind option_bind]. simpl.
  pose proof (matcherOf_valid _ _ Hm) as Hvalid. split.
  - by apply matchFrom_same_None.
  - intros Hnone.
    destruct (matchFrom m 0 stmts) as [[i r]|] eqn:Hfound; [|done].
    destruct (matchFrom_same m _ _ _ _ _ Hvalid Hsame Hfound) as (c' & Hc' & _).
    congruence.
Qed.

Lemma mergeStmts_new (genStmt : list Expr) :
  ∀ stmts oldStmt newStmt oldStmt' newStmt',
    Forall2 sameStmt stmts oldStmt →
    mergeStmts genStmt oldStmt newStmt = Return (oldStmt', newStmt') →
    newStmt' = newStmt ++ filter (unmatched (mkFile stmts)) genStmt.
Proof.
  induction genStmt as [|g genStmt IH];
    intros stmts oldStmt newStmt oldStmt' newStmt' Hsame Hrun.
  { injection Hrun as <- <-. by rewrite app_nil_r. }
  destruct g as [| | | | |genRule| | |]; try done.
  destruct (match_ (mkFile oldStmt) genRule) as [[i oldRule]|] eqn:Hmatch.
  - rewrite (mergeStmts_matched _ _ _ _ _ _ Hmatch) in Hrun.
    destruct (mergeMatched genRule oldRule oldStmt) as [merged| |] eqn:Hm;
      cbn [mbind outcome_bind obind] in Hrun; [|done..].
    rewrite filter_cons_False.
    2: { intros Hu. simpl in Hu. apply bool_decide_unpack in Hu.
         apply (match_same_None _ _ _ Hsame) in Hu. congruence. }
    eapply IH; [|done].
    destruct (match_lookup _ _ _ _ Hmatch) as (m & Hmatcher & _ & Hi & Hr).
    eapply sameStmt_Forall2_trans; [done|].
    apply (sameStmt_insert _ _ oldRule); [done|].
    by eapply mergeMatched_sameRule.
  - rewrite (mergeStmts_unmatched _ _ _ _ Hmatch) in Hrun.
    rewrite filter_cons_True.
    2: { simpl. apply bool_decide_pack.
         by apply (match_same_None _ _ _ Hsame). }
    rewrite cons_middle, (assoc_L (++)). by eapply IH.
Qed.

Lemma sameStmt_Forall2_refl (stmts : list Expr) : Forall2 sameStmt stmts stmts.
Proof. induction stmts; constructor; [apply sameStmt_refl|done]. Qed.

(** The merged file: the statements of the existing file, each at its
    place and, when it is a call, with its callee, its comments and its
    name (a rule) or load path (a load statement), followed by the
    generated statements that match nothing in the existing file, in the
    order of the generated file. *)
Theorem mergeFile_layout (genFile oldFile merged : File) :
  mergeFile genFile oldFile = Return (Some merged) →
  ∃ oldStmt,
    Stmt merged = oldStmt ++ filter (unmatched oldFile) (Stmt genFile) ∧
    Forall2 sameStmt (Stmt oldFile) oldStmt.
Proof.
  unfold mergeFile. destruct (shouldIgnore oldFile); [done|].
  destruct (mergeStmts (Stmt genFile) (Stmt oldFile) [])
    as [[oldStmt newStmt]| |] eqn:Hrun;
    cbn [mbind outcome_bind obind]; [|done..].
  intros [= <-]. exists oldStmt. simpl.
  destruct (mergeStmts_slots _ _ _ _ _ Hrun) as (Hslots & _ & _).
  split; [|done]. f_equal.
  rewrite (mergeStmts_new _ (Stmt oldFile) _ _ _ _
             (sameStmt_Forall2_refl _) Hrun).
  by destruct oldFile.
Qed.

Lemma mergeFile_layout_witness :
  ∃ oldStmt,
    Stmt exampleMerged =
      oldStmt ++ filter (unmatched exampleExisting) (Stmt exampleGenerated) ∧
    Forall2 sameStmt (Stmt exampleExisting) oldStmt.
Proof.
  apply (mergeFile_layout exampleGenerated exampleExisting).
  vm_compute. reflexivity.
Defined.

(** The statement that a merge puts in the place of the statement that
    [match] found is found by [match] again, at that place: a merge
    changes neither kind nor name of a rule, nor the path of a load
    statement. *)
Theorem merged_statement_matches (f : File) (g old merged : CallExpr)
    (i : nat) :
  match_ f g = Some (i, old) →
  mergeMatched g old (Stmt f) = Return merged →
  match_ (mkFile (<[i := ECall merged]> (Stmt f))) g = Some (i, merged).
Proof.
  intros Hmatch Hmerged.
  destruct (match_lookup _ _ _ _ Hmatch) as (m & Hm & Hfound & Hi & Hr).
  pose proof (mergeMatched_sameRule m _ _ _ _ Hm Hr Hmerged) as Hsame.
  rewrite match_matcherOf, Hm. cbn [mbind option_bind]. simpl.
  destruct (matchFrom_same m (Stmt f) (<[i := ECall merged]> (Stmt f)) 0 i old
              (matcherOf_valid _ _ Hm)
              (sameStmt_insert _ _ _ _ Hi Hsame) Hfound)
    as (c' & -> & Hc').
  rewrite Nat.sub_0_r, list_lookup_insert_eq in Hc'
    by (by eapply lookup_lt_Some).
  by injection Hc' as <-.
Qed.

Lemma merged_statement_matches_witness :
  match_
    (mkFile
       (<[1 := ECall (mkCallExpr noComments (lit "go_library")
                        [attribute "name" (str "go_default_library");
                         attribute "srcs"
                           (EList (list_of [str_suffix "gen.go" "# keep";
                                            str "a.go"; str "b.go"]));
                         attribute "visibility"
                           (EList (list_of [str "//visibility:public"]))]
                        false false)]> (Stmt exampleExisting)))
    (mkCallExpr noComments (lit "go_library")
       [attribute "name" (str "go_default_library");
        attribute "srcs" (EList (list_of [str "a.go"; str "b.go"]))]
       false false)
  = Some (1, mkCallExpr noComments (lit "go_library")
               [attribute "name" (str "go_default_library");
                attribute "srcs"
                  (EList (list_of [str_suffix "gen.go" "# keep";
                                   str "a.go"; str "b.go"]));
                attribute "visibility"
                  (EList (list_of [str "//visibility:public"]))]
               false false).
Proof.
  eapply (merged_statement_matches exampleExisting).
  - vm_compute. reflexivity.
  - vm_compute. reflexivity.
Defined.

End merger_laws.


Module packages_facts.
Import packages walker_specified.

(** ** Paths *)

Fixpoint slashFree (s : string) : bool :=
  match s with
  | EmptyString => true
  | String c s => bool_decide (c ≠ slash) && slashFree s
  end.

Lemma slashFree_snoc (s : string) (c : ascii) :
  slashFree (s +:+ String c EmptyString) = slashFree s && bool_decide (c ≠ slash).
Proof.
  induction s as [|c' s IH]; simpl.
  - by rewrite andb_true_r.
  - by rewrite IH, andb_assoc.
Qed.

Lemma afterLastSlash_slashFree (p cur : string) :
  slashFree cur = true → slashFree (afterLastSlash cur p) = true.
Proof.
  revert cur. induction p as [|c p IH]; intros cur Hcur; simpl; [done|].
  case_decide as Hc; apply IH; [done|].
  rewrite slashFree_snoc, Hcur. by apply bool_decide_eq_true.
Qed.

Lemma lastSegment_slashFree (p : string) : slashFree (lastSegment p) = true.
Proof. by apply afterLastSlash_slashFree. Qed.

Lemma slashFree_onlySlashes (s : string) :
  slashFree s = true → onlySlashes s = true ↔ s = "".
Proof.
  destruct s as [|c s]; [done|]. simpl.
  intros [Hc _]%andb_true_iff. apply bool_decide_eq_true in Hc.
  split; [|done]. intros [Hc' _]%andb_true_iff.
  by apply bool_decide_eq_true in Hc'.
Qed.

(** [path.Base] in terms of the last segment. *)
Lemma path_Base_lastSegment (p : string) :
  path_Base p =
    if decide (p = "") then "."
    else if decide (lastSegment p = "") then "/" else lastSegment p.
Proof. reflexivity. Qed.

(** The prefixes without a last segment are the empty one and those made
    of slashes only. *)
Lemma stripTrailingSlashes_empty (p : string) :
  stripTrailingSlashes p = "" ↔ onlySlashes p = true.
Proof.
  induction p as [|c p IH]; simpl; [done|].
  destruct (stripTrailingSlashes p) eqn:Hs.
  - case_decide as Hc.
    + subst c. rewrite bool_decide_eq_true_2 by done. simpl.
      split; intros _; [by apply IH|done].
    + rewrite bool_decide_eq_false_2 by done. done.
  - split; [done|]. intros [_ Hp]%andb_true_iff. by apply IH in Hp.
Qed.

Fixpoint endsWithSlash (s : string) : bool :=
  match s with
  | EmptyString => false
  | String c EmptyString => bool_decide (c = slash)
  | String _ s => endsWithSlash s
  end.

Lemma endsWithSlash_cons (c : ascii) (s : string) :
  s ≠ "" → endsWithSlash (String c s) = endsWithSlash s.
Proof. by destruct s. Qed.

Lemma stripTrailingSlashes_end (p : string) :
  endsWithSlash (stripTrailingSlashes p) = false.
Proof.
  induction p as [|c p IH]; simpl; [done|].
  destruct (stripTrailingSlashes p) as [|c' r] eqn:Hs.
  - case_decide as Hc; [done|]. simpl. by apply bool_decide_eq_false.
  - by rewrite endsWithSlash_cons.
Qed.

Lemma afterLastSlash_empty (s cur : string) :
  afterLastSlash cur s = "" → (cur = "" ∧ s = "") ∨ endsWithSlash s = true.
Proof.
  revert cur. induction s as [|c s IH]; intros cur; [by left|].
  cbn [afterLastSlash]. intros Hs. right. case_decide as Hc.
  - apply IH in Hs as [[_ ->]|Hs]; [by apply bool_decide_eq_true|].
    rewrite endsWithSlash_cons; [done|]. by intros ->.
  - apply IH in Hs as [[Hcur _]|Hs]; [by destruct cur|].
    rewrite endsWithSlash_cons; [done|]. by intros ->.
Qed.

(** The last segment is empty exactly for the empty prefix and for the
    prefixes made of slashes. *)
Lemma lastSegment_empty (p : string) :
  lastSegment p = "" ↔ onlySlashes p = true.
Proof.
  unfold lastSegment. rewrite <- stripTrailingSlashes_empty. split.
  - intros [[_ ?]|Hs]%afterLastSlash_empty; [done|].
    by rewrite stripTrailingSlashes_end in Hs.
  - by intros ->.
Qed.

Section facts.

Context `{api : PackageAPI}.

(** ** The default package name *)

Lemma defaultPackageName_eq (pr : packageReader PlatformConstraints) :
  defaultPackageName pr =
    if decide (dir pr ≠ repoRoot pr) then filepath_Base (dir pr)
    else
      let segment := lastSegment (goPrefix pr) in
      if decide (segment = "" ∨ segment = ".") then "unnamed" else segment.
Proof.
  unfold defaultPackageName. case_decide as Hdir; [done|].
  rewrite path_Base_lastSegment. simpl.
  pose proof (lastSegment_slashFree (goPrefix pr)) as Hfree.
  destruct (decide (goPrefix pr = "")) as [Hp|Hp].
  { rewrite Hp. by rewrite decide_True by (by left). }
  destruct (decide (lastSegment (goPrefix pr) = "")) as [Hs|Hs].
  { rewrite Hs. rewrite (decide_True (P := "/" = "." ∨ "/" = "/")) by (by right).
    by rewrite decide_True by (by left). }
  apply decide_ext. split; [|tauto].
  intros [?|Hslash]; [by right|]. rewrite Hslash in Hfree. done.
Qed.

(** ** Selecting a package *)

Lemma withGo_fold (l : list (string * Package)) :
  ∀ (m : gmap string Package) (name : string) (pkg : Package),
    NoDup l.*1 → (∀ k, k ∈ l.*1 → m !! k = None) →
    foldl (λ m '(name, pkg), if HasGo pkg then <[name := pkg]> m else m) m l
      !! name = Some pkg
    ↔ m !! name = Some pkg ∨ ((name, pkg) ∈ l ∧ HasGo pkg = true).
Proof.
  induction l as [|[k p] l IH]; intros m name pkg Hnd Hfresh; simpl.
  - rewrite elem_of_nil. tauto.
  - apply NoDup_cons in Hnd as [Hk Hnd]. simpl in Hk.
    assert (m !! k = None) as Hmk by (apply Hfresh; left).
    rewrite IH; [|done|].
    + rewrite elem_of_cons. destruct (HasGo p) eqn:Hp.
      * rewrite lookup_insert_Some. split.
        -- intros [[[-> ->]|[? ?]]|[? ?]]; eauto.
        -- intros [Hm|[[[= -> ->]|?] ?]]; eauto.
           left. right. split; [|done]. intros ->. congruence.
      * split; [tauto|]. intros [?|[[[= -> ->]|?] ?]]; eauto. congruence.
    + intros k' Hk'. destruct (HasGo p).
      * rewrite lookup_insert_ne; [apply Hfresh; by right|].
        intros ->. done.
      * apply Hfresh. by right.
Qed.

Lemma rangeMap_elem_of (m : gmap string Package) (name : string) (pkg : Package) :
  (name, pkg) ∈ rangeMap m ↔ m !! name = Some pkg.
Proof. by rewrite rangeMap_perm, elem_of_map_to_list. Qed.

Lemma rangeMap_NoDup (m : gmap string Package) : NoDup (rangeMap m).*1.
Proof. rewrite rangeMap_perm. apply NoDup_fst_map_to_list. Qed.

(** The first loop of [selectPackage] keeps the packages with Go files. *)
Lemma packagesWithGoOf_eq (packageMap : gmap string Package) :
  packagesWithGoOf packageMap = packagesWithGo packageMap.
Proof.
  apply map_eq. intros name. apply option_eq. intros pkg.
  unfold packagesWithGoOf, packagesWithGo.
  rewrite withGo_fold; [|apply rangeMap_NoDup|done].
  rewrite lookup_empty, rangeMap_elem_of, map_lookup_filter_Some. simpl.
  split; [by intros [?|?]|by right].
Qed.

Lemma conflictLists_acc (l : list (string * Package)) (ps fs : list string) :
  foldl (λ '(ps, fs) '(name, pkg), (ps ++ [name], fs ++ [firstGoFile pkg]))
        (ps, fs) l
  = (ps ++ l.*1, fs ++ (firstGoFile <$> l.*2)).
Proof.
  revert ps fs. induction l as [|[k p] l IH]; intros ps fs; simpl.
  - by rewrite !app_nil_r.
  - rewrite IH. by rewrite <- !(assoc_L (++)).
Qed.

Lemma zip_names_files (l : list (string * Package)) :
  zip l.*1 (firstGoFile <$> l.*2) = (λ kv, (kv.1, firstGoFile kv.2)) <$> l.
Proof. induction l as [|[k p] l IH]; simpl; [done|]. f_equal. apply IH. Qed.

(** [selectPackage] follows the selection policy, with the default package
    name that the code computes. *)
Lemma selectPackage_selection (pr : packageReader PlatformConstraints)
    (packageMap : gmap string Package) :
  selection (defaultPackageName pr) (dir pr) packageMap
            (selectPackage pr packageMap).
Proof.
  unfold selection, selectPackage. rewrite packagesWithGoOf_eq.
  set (withGo := packagesWithGo packageMap).
  split; [|split].
  - intros Hsize. by rewrite decide_True.
  - intros Hsize. rewrite decide_False by lia. rewrite decide_True by done.
    pose proof (rangeMap_perm withGo) as Hperm.
    assert (length (rangeMap withGo) = 1) as Hlen.
    { rewrite Hperm, length_map_to_list. done. }
    destruct (rangeMap withGo) as [|[name pkg] [|? ?]] eqn:Hrange; try done.
    simpl. exists name, pkg. split; [|done].
    apply rangeMap_elem_of. rewrite Hrange. left.
  - intros Hsize. rewrite !decide_False by lia.
    destruct (withGo !! defaultPackageName pr) as [pkg|]; [done|].
    unfold conflictLists. rewrite conflictLists_acc. simpl.
    eexists _, _. split; [done|]. split.
    + by rewrite !length_fmap.
    + rewrite zip_names_files. by rewrite rangeMap_perm.
Qed.

(** C3, with the default package name as the code has it: without a
    package that has Go files the selection fails with [NoGoError]; one
    such package is selected; among several the one whose name is the
    default package name is selected, and without it the selection fails
    with [MultiplePackageError], which carries every name with one Go
    file of that package. The default package name is the base name of
    the directory, or, in the repository root, the last segment of the
    prefix, replaced by "unnamed" when that segment is empty (an empty
    prefix, a prefix of slashes) or is the single dot. *)
Theorem selectPackage_policy (pr : packageReader PlatformConstraints)
    (packageMap : gmap string Package) :
  selection (defaultPackageName pr) (dir pr) packageMap
            (selectPackage pr packageMap) ∧
  defaultPackageName pr =
    (if decide (dir pr ≠ repoRoot pr) then filepath_Base (dir pr)
     else
       let segment := lastSegment (goPrefix pr) in
       if decide (segment = "" ∨ segment = ".") then "unnamed" else segment) ∧
  (lastSegment (goPrefix pr) = "" ↔ onlySlashes (goPrefix pr) = true).
Proof.
  split; [apply selectPackage_selection|].
  split; [apply defaultPackageName_eq|apply lastSegment_empty].
Qed.

(** ** Walking a tree *)

Lemma fsnode_ind' (P : fsnode → Prop) :
  (∀ name, P (FsFile name)) →
  (∀ name err, P (FsBroken name err)) →
  (∀ name readErr entries, Forall P entries → P (FsDir name readErr entries)) →
  ∀ n, P n.
Proof.
  intros Hfile Hbroken Hdir. fix IH 1.
  intros [name|name readErr entries|name err];
    [apply Hfile| |apply Hbroken].
  apply Hdir. revert entries. fix IHentries 1.
  intros [|c entries]; constructor; [apply IH|apply IHentries].
Qed.

Section walking.

Variable buildTags : gmap string bool.
Variable platforms : PlatformConstraints.
Variables repoRoot goPrefix : string.

Let walkFn : WalkFunc := walkFunc buildTags platforms repoRoot goPrefix.
Let visited (path : string) : list event :=
  visit buildTags platforms repoRoot goPrefix path.

(** What the walk returns for a tree without errors of the walk. *)
Definition walkResult (n : fsnode) : walkErr :=
  match n with
  | FsDir name _ _ => if skippedName name then SkipDir else WalkNil
  | _ => WalkNil
  end.

Lemma walkFunc_dir (path name : string) :
  walkFn path (Some (mkDirEntry name true)) None =
    if skippedName name then ([], SkipDir) else (visited path, WalkNil).
Proof.
  unfold walkFn, walkFunc, visited, visit. simpl.
  destruct (skippedName name); [done|].
  by destruct (FindPackage path buildTags platforms repoRoot goPrefix).
Qed.

Lemma walkEntries_walkable (path : string) (entries : list fsnode) :
  Forall (λ c, ∀ path, filepath_walk walkFn path c
                       = (directories path c ≫= visited, walkResult c))
         entries →
  walkEntries (filepath_walk walkFn) path entries
  = (entries ≫= (λ c, directories (Join path (nodeName c)) c ≫= visited),
     WalkNil).
Proof.
  induction 1 as [|c entries Hc _ IH]; [done|].
  cbn [walkEntries]. fold (walkEntries (filepath_walk walkFn) path).
  rewrite Hc, IH. rewrite bind_cons.
  by destruct c as [?|name ? ?|? ?]; simpl; [|destruct (skippedName name)|].
Qed.

Lemma filepath_walk_walkable (n : fsnode) :
  ∀ path, walkable n = true →
  filepath_walk walkFn path n = (directories path n ≫= visited, walkResult n).
Proof.
  induction n as [name|name err|name readErr entries IH] using fsnode_ind';
    intros path Hw; [done|done|].
  simpl in Hw. apply andb_true_iff in Hw as [Hr Hw].
  apply bool_decide_eq_true in Hr. subst readErr.
  cbn [filepath_walk directories walkResult]. rewrite walkFunc_dir.
  destruct (skippedName name); [done|].
  rewrite walkEntries_walkable.
  - rewrite bind_cons. f_equal. f_equal. clear.
    induction entries as [|c entries IHe]; [done|].
    by rewrite !bind_cons, bind_app, IHe.
  - apply Is_true_true_2, forallb_True in Hw.
    rewrite Forall_forall in IH, Hw. apply Forall_forall.
    intros c Hc path'. apply IH; [done|]. apply Is_true_true_1. by apply Hw.
Qed.

(** On a tree where the walk itself meets no error, [Walk] shows the
    visits of the directories, in order. *)
Lemma Walk_walkable (dir : string) (tree : fsnode) :
  walkable tree = true →
  Walk buildTags platforms repoRoot goPrefix dir tree
  = directories dir tree ≫= visited.
Proof.
  intros Hw. unfold Walk, filepath_Walk.
  fold walkFn. rewrite filepath_walk_walkable by done.
  by destruct tree as [?|name ? ?|? ?]; simpl; [|destruct (skippedName name)|].
Qed.

(** C4, as the code has it: when package resolution fails in a directory
    the walk goes on. On a tree where the walk itself meets no error (every
    directory can be listed, every entry examined), [Walk] shows, for
    each directory that is not skipped and in the order of the walk, the
    lines that [FindPackage] logs there and then the call of the callback
    with its package, if there is one; so every package found is passed
    to the callback. *)
Theorem Walk_resolution_errors_continue (dir : string) (tree : fsnode) :
  walkable tree = true →
  Walk buildTags platforms repoRoot goPrefix dir tree
  = (directories dir tree ≫= visit buildTags platforms repoRoot goPrefix) ∧
  Walk_continues buildTags platforms repoRoot goPrefix dir tree.
Proof.
  intros Hw. split; [by apply Walk_walkable|].
  intros path pkg Hpath Hpkg. rewrite Walk_walkable by done.
  apply list_elem_of_bind. exists path. split; [|done].
  unfold visited, visit.
  destruct (FindPackage path buildTags platforms repoRoot goPrefix)
    as [log pkg'].
  simpl in Hpkg. subst pkg'. apply elem_of_app. right. left.
Qed.

End walking.

(** What [findPackage] logs when it returns nil: the error of reading the
    directory, or what the Go files logged followed by the error of the
    selection unless that is [NoGoError]. *)
Lemma findPackage_failure_logged (pr : packageReader PlatformConstraints) :
  (findPackage pr).2 = None →
  (∃ err, ReadDir (dir pr) = inl err ∧ (findPackage pr).1 = [err]) ∨
  (∃ files err,
     ReadDir (dir pr) = inr files ∧
     selectPackage pr (addGoFiles pr (splitFiles files).1).1.2 = inl err ∧
     (findPackage pr).1 =
       (addGoFiles pr (splitFiles files).1).1.1 ++
       match err with
       | NoGoError _ => []
       | _ => [Error_ err]
       end).
Proof.
  unfold findPackage. destruct (ReadDir (dir pr)) as [err|files]; [by eauto|].
  intros Hnone. right. exists files.
  destruct (splitFiles files) as [goFiles otherFiles]. simpl.
  destruct (addGoFiles pr goFiles) as [[log packageMap] cgo]. simpl.
  destruct (selectPackage pr packageMap) as [err|pkg].
  - exists err. split; [done|]. split; [done|]. simpl.
    destruct err; [by rewrite app_nil_r|done].
  - by destruct (addOtherFiles pr cgo otherFiles log pkg).
Qed.

End facts.

(** ** Examples *)

Definition goPackage (name file : string) : examplePackage :=
  mkExamplePackage name "/repo" [file].

(** The scenario of the specification: packages "foo" and "bar" in a
    directory named "bar". *)
Example selectPackage_directory_name :
  selectPackage (api := exampleAPI ∅ ∅)
    (mkPackageReader ∅ () "/repo" "example.com/repo" "/repo/bar")
    {[ "foo" := goPackage "foo" "foo.go"; "bar" := goPackage "bar" "bar.go" ]}
  = inr (goPackage "bar" "bar.go").
Proof. vm_compute. reflexivity. Qed.

(** The same packages in a directory named "baz". *)
Example selectPackage_no_match :
  ∃ names files,
    selectPackage (api := exampleAPI ∅ ∅)
      (mkPackageReader ∅ () "/repo" "example.com/repo" "/repo/baz")
      {[ "foo" := goPackage "foo" "foo.go"; "bar" := goPackage "bar" "bar.go" ]}
    = inl (MultiplePackageError "/repo/baz" names files) ∧
    names ≡ₚ ["foo"; "bar"].
Proof.
  eexists _, _. split; [vm_compute; reflexivity|].
  apply NoDup_Permutation.
  - repeat (constructor; [set_solver|]). constructor.
  - repeat (constructor; [set_solver|]). constructor.
  - set_solver.
Qed.

(** C3 as worded fails in the repository root for a prefix whose last
    segment is the single dot: the code takes "unnamed" for the default
    package name and selects the package of that name, where the last
    segment would select none. *)
Lemma selection_specified_fails :
  let pr := mkPackageReader ∅ () "/repo" "example.com/." "/repo" in
  let packageMap : gmap string examplePackage :=
    {[ "unnamed" := goPackage "unnamed" "u.go";
       "foo" := goPackage "foo" "foo.go" ]} in
  ¬ selection (api := exampleAPI ∅ ∅)
      (defaultPackageName_specified (api := exampleAPI ∅ ∅) pr) (dir pr)
      packageMap
      (selectPackage (api := exampleAPI ∅ ∅) pr packageMap).
Proof.
  intros pr packageMap (_ & _ & Hmany).
  assert (1 < size (packagesWithGo (api := exampleAPI ∅ ∅) packageMap))
    as Hsize by (vm_compute; lia).
  specialize (Hmany Hsize).
  assert (packagesWithGo (api := exampleAPI ∅ ∅) packageMap
            !! defaultPackageName_specified (api := exampleAPI ∅ ∅) pr = None)
    as Hnone by (vm_compute; reflexivity).
  rewrite Hnone in Hmany. destruct Hmany as (names & files & Hresult & _).
  assert (selectPackage (api := exampleAPI ∅ ∅) pr packageMap
          = inr (goPackage "unnamed" "u.go")) as Hcode
    by (vm_compute; reflexivity).
  rewrite Hcode in Hresult. discriminate Hresult.
Qed.

(** A repository with two directories. In "a" two Go files declare two
    packages, neither named "a"; in "b" one Go file declares "b". *)
Definition exampleTable : gmap string string :=
  {[ "x.go" := "x"; "y.go" := "y"; "b.go" := "b" ]}.

Definition exampleListing : gmap string (list DirEntry) :=
  {[ "/repo" := [mkDirEntry "a" true; mkDirEntry "b" true];
     "/repo/a" := [mkDirEntry "x.go" false; mkDirEntry "y.go" false];
     "/repo/b" := [mkDirEntry "b.go" false] ]}.

Definition exampleTree (readErrA : option string) : fsnode :=
  FsDir "repo" None
    [FsDir "a" readErrA [FsFile "x.go"; FsFile "y.go"];
     FsDir "b" None [FsFile "b.go"]].

Definition packageB : examplePackage :=
  mkExamplePackage "b" "/repo/b" ["b.go"].

(** The failure of the resolution in "a" is logged and "b" is visited. *)
Lemma Walk_resolution_errors_continue_witness :
  Walk (api := exampleAPI exampleTable exampleListing)
       ∅ () "/repo" "example.com/repo" "/repo" (exampleTree None)
  = (directories (api := exampleAPI exampleTable exampleListing)
       "/repo" (exampleTree None)
     ≫= visit (api := exampleAPI exampleTable exampleListing)
          ∅ () "/repo" "example.com/repo") ∧
  Walk_continues (api := exampleAPI exampleTable exampleListing)
    ∅ () "/repo" "example.com/repo" "/repo" (exampleTree None).
Proof.
  apply (Walk_resolution_errors_continue
           (api := exampleAPI exampleTable exampleListing)).
  reflexivity.
Defined.

Example Walk_example :
  ∃ msg,
    Walk (api := exampleAPI exampleTable exampleListing)
         ∅ () "/repo" "example.com/repo" "/repo" (exampleTree None)
    = [Logged msg;
       Called (api := exampleAPI exampleTable exampleListing) packageB].
Proof. eexists. vm_compute. reflexivity. Qed.

(** C4 as worded fails when a directory cannot be listed: the callback
    returns the error of the walk, the walk stops, and the sibling "b" is
    not visited. *)
Lemma Walk_stops_on_walk_error :
  ¬ Walk_continues (api := exampleAPI exampleTable exampleListing)
      ∅ () "/repo" "example.com/repo" "/repo"
      (exampleTree (Some "open /repo/a: permission denied")).
Proof.
  intros Hcontinues. specialize (Hcontinues "/repo/b" packageB).
  assert (directories (api := exampleAPI exampleTable exampleListing)
            "/repo" (exampleTree (Some "open /repo/a: permission denied"))
          = ["/repo"; "/repo/a"; "/repo/b"]) as Hdirs
    by (vm_compute; reflexivity).
  assert (Walk (api := exampleAPI exampleTable exampleListing)
            ∅ () "/repo" "example.com/repo" "/repo"
            (exampleTree (Some "open /repo/a: permission denied"))
          = [Logged "open /repo/a: permission denied"]) as Hwalk
    by (vm_compute; reflexivity).
  rewrite Hdirs, Hwalk in Hcontinues.
  assert (Called (api := exampleAPI exampleTable exampleListing) packageB
            ∈ [Logged "open /repo/a: permission denied"])
    as Hin.
  { apply Hcontinues.
    - do 2 apply list_elem_of_further. apply list_elem_of_here.
    - vm_compute. reflexivity. }
  apply list_elem_of_singleton in Hin. discriminate Hin.
Qed.

End packages_facts.

(** ** Further properties of the package walker *)
Module packages_laws.
Import packages walker_specified packages_facts.

(** A directory entry that [findPackage] looks at: not a directory, with
    a name that is not empty and starts neither with a dot nor with an
    underscore. *)
Definition regularName (file : DirEntry) : bool :=
  negb (IsDir file) &&
  negb (bool_decide (Name file = "") || firstByteIs "." (Name file)
        || firstByteIs "_" (Name file)).

Section laws.

Context `{api : PackageAPI}.

(** ** Reading a directory *)

Lemma splitFiles_acc (files : list DirEntry) :
  ∀ goFiles otherFiles,
    foldl (λ '(goFiles, otherFiles) file,
             if IsDir file then (goFiles, otherFiles)
             else
               let name := Name file in
               if bool_decide (name = "") || firstByteIs "." name
                  || firstByteIs "_" name
               then (goFiles, otherFiles)
               else if HasSuffix name ".go"
                    then (goFiles ++ [name], otherFiles)
                    else (goFiles, otherFiles ++ [name]))
          (goFiles, otherFiles) files
    = (goFiles ++ filter (λ n, HasSuffix n ".go")
                    (Name <$> filter regularName files),
       otherFiles ++ filter (λ n, ¬ HasSuffix n ".go")
                       (Name <$> filter regularName files)).
Proof.
  induction files as [|file files IH]; intros goFiles otherFiles.
  { by rewrite !app_nil_r. }
  cbn [foldl].
  destruct (IsDir file) eqn:Hdir.
  { rewrite filter_cons_False
      by (unfold regularName; rewrite Hdir; simpl; tauto).
    apply IH. }
  cbn zeta.
  destruct (bool_decide (Name file = "") || firstByteIs "." (Name file)
            || firstByteIs "_" (Name file)) eqn:Hhidden.
  { rewrite filter_cons_False
      by (unfold regularName; rewrite Hdir, Hhidden; simpl; tauto).
    apply IH. }
  rewrite (filter_cons_True _ file)
    by (unfold regularName; rewrite Hdir, Hhidden; simpl; tauto).
  rewrite fmap_cons. destruct (HasSuffix (Name file) ".go") eqn:Hgo.
  - rewrite filter_cons_True by (rewrite Hgo; simpl; tauto).
    rewrite filter_cons_False by (rewrite Hgo; simpl; tauto).
    rewrite IH. by rewrite <- (assoc_L (++)).
  - rewrite filter_cons_False by (rewrite Hgo; simpl; tauto).
    rewrite filter_cons_True by (rewrite Hgo; simpl; tauto).
    rewrite IH. by rewrite <- (assoc_L (++)).
Qed.

(** The first loop of [findPackage] keeps the order of the listing and
    looks at regular entries only: the Go files are the regular names
    that end in ".go", the other files the remaining regular names.
    Directories, entries without a name and names that start with a dot
    or an underscore are in neither list. *)
Theorem splitFiles_regular (files : list DirEntry) :
  splitFiles files =
    (filter (λ n, HasSuffix n ".go") (Name <$> filter regularName files),
     filter (λ n, ¬ HasSuffix n ".go") (Name <$> filter regularName files)).
Proof. unfold splitFiles. by rewrite splitFiles_acc. Qed.

(** The log that the loop over the Go files leaves when no file gives a
    package. *)
Definition unreadable (pr : packageReader PlatformConstraints)
    (goFiles : list string) : list string :=
  omap (λ f, match goFileInfo pr f with
             | inl err => Some err
             | inr _ => None
             end) goFiles.

Lemma addGoFiles_nothing (pr : packageReader PlatformConstraints)
    (goFiles : list string) :
  (∀ f, f ∈ goFiles →
     match goFileInfo pr f with
     | inl _ => True
     | inr info => packageName info = "documentation"
     end) →
  addGoFiles pr goFiles = (unreadable pr goFiles, ∅, false).
Proof.
  unfold addGoFiles.
  assert (∀ log : list string,
    (∀ f, f ∈ goFiles →
       match goFileInfo pr f with
       | inl _ => True
       | inr info => packageName info = "documentation"
       end) →
    foldl (λ '(log, packageMap, cgo) goFile,
             match goFileInfo pr goFile with
             | inl err => (log ++ [err], packageMap, cgo)
             | inr info =>
               if decide (packageName info = "documentation")
               then (log, packageMap, cgo)
               else
                 let cgo := cgo || isCgo info in
                 let pkg := default (newPackage (packageName info) (dir pr))
                              (packageMap !! packageName info) in
                 let '(pkg, err) :=
                   addFile pkg info false (buildTags pr) (platforms pr) in
                 (log ++ option_list err,
                  <[packageName info := pkg]> packageMap, cgo)
             end)
          (log, (∅ : gmap string Package), false) goFiles
    = (log ++ unreadable pr goFiles, (∅ : gmap string Package), false))
    as Hloop.
  { induction goFiles as [|f goFiles IH]; intros log Hall.
    { unfold unreadable. simpl. by rewrite app_nil_r. }
    cbn [foldl]. unfold unreadable. cbn [omap list_omap].
    fold (unreadable pr goFiles).
    pose proof (Hall f ltac:(left)) as Hf.
    destruct (goFileInfo pr f) as [err|info].
    - rewrite IH by (intros f' Hf'; apply Hall; by right).
      by rewrite <- (assoc_L (++)).
    - rewrite decide_True by done.
      apply IH. intros f' Hf'. apply Hall. by right. }
  intros Hall. exact (Hloop [] Hall).
Qed.

Lemma selectPackage_empty (pr : packageReader PlatformConstraints) :
  selectPackage pr ∅ = inl (NoGoError (dir pr)).
Proof.
  pose proof (selectPackage_selection pr ∅) as (Hnone & _).
  apply Hnone. unfold packagesWithGo. by rewrite map_filter_empty.
Qed.

(** A directory in which no Go file gives a package (there is none, or
    each cannot be read or belongs to the package "documentation") has no
    package: [findPackage] returns nil, looks at no other file, and logs
    the errors of reading the Go files and nothing else. *)
Theorem findPackage_without_package (pr : packageReader PlatformConstraints)
    (files : list DirEntry) :
  ReadDir (dir pr) = inr files →
  (∀ f, f ∈ (splitFiles files).1 →
     match goFileInfo pr f with
     | inl _ => True
     | inr info => packageName info = "documentation"
     end) →
  findPackage pr = (unreadable pr (splitFiles files).1, None).
Proof.
  intros Hread Hall. unfold findPackage. rewrite Hread.
  destruct (splitFiles files) as [goFiles otherFiles]. simpl in Hall |- *.
  rewrite (addGoFiles_nothing pr goFiles Hall).
  by rewrite selectPackage_empty.
Qed.

(** ** Selecting a package *)

(** A package that [selectPackage] returns is one of the packages of the
    map and has Go files. *)
Theorem selectPackage_has_go (pr : packageReader PlatformConstraints)
    (packageMap : gmap string Package) (pkg : Package) :
  selectPackage pr packageMap = inr pkg →
  HasGo pkg = true ∧ ∃ name, packageMap !! name = Some pkg.
Proof.
  intros Hsel.
  pose proof (selectPackage_selection pr packageMap) as (Hnone & Hone & Hmany).
  rewrite Hsel in Hnone, Hone, Hmany.
  assert (∀ name, packagesWithGo packageMap !! name = Some pkg →
            HasGo pkg = true ∧ ∃ name, packageMap !! name = Some pkg) as Hin.
  { intros name [Hname Hgo]%map_lookup_filter_Some. split; [done|].
    by exists name. }
  destruct (decide (size (packagesWithGo packageMap) = 0)) as [H0|H0];
    [by specialize (Hnone H0)|].
  destruct (decide (size (packagesWithGo packageMap) = 1)) as [H1|H1].
  - destruct (Hone H1) as (name & pkg' & Hname & [= <-]). by eapply Hin.
  - specialize (Hmany ltac:(lia)).
    destruct (packagesWithGo packageMap !! defaultPackageName pr)
      as [pkg'|] eqn:Hdefault.
    + injection Hmany as <-. by eapply Hin.
    + by destruct Hmany as (names & fs & ? & _).
Qed.

(** In the repository root the default package name is one path segment:
    it is not empty, it is not the dot and it contains no slash. *)
Theorem defaultPackageName_root (pr : packageReader PlatformConstraints) :
  dir pr = repoRoot pr →
  defaultPackageName pr ≠ "" ∧ defaultPackageName pr ≠ "." ∧
  slashFree (defaultPackageName pr) = true.
Proof.
  intros Hroot. rewrite defaultPackageName_eq.
  rewrite decide_False by (by intros Hne). cbn zeta.
  destruct (decide (lastSegment (goPrefix pr) = "" ∨
                    lastSegment (goPrefix pr) = ".")) as [Hs|Hs]; [done|].
  split; [tauto|]. split; [tauto|]. apply lastSegment_slashFree.
Qed.

(** ** Walking a tree *)

Section walking.

Variable buildTags : gmap string bool.
Variable platforms : PlatformConstraints.
Variables repoRoot goPrefix : string.

#[local] Abbreviation walkFn :=
  (walkFunc buildTags platforms repoRoot goPrefix).
#[local] Abbreviation visited :=
  (visit buildTags platforms repoRoot goPrefix).

(** What the walk of a tree that may have errors shows and returns: all
    the visits when it returns no error, some of the first visits when it
    does. *)
Definition walkShows (path : string) (n : fsnode)
    (r : list event * walkErr) : Prop :=
  match r.2 with
  | WalkError _ => r.1 `prefix_of` (directories path n ≫= visited)
  | _ => r.1 = directories path n ≫= visited ∧ r.2 = walkResult n
  end.

Lemma walkEntries_shows (path : string) (entries : list fsnode) :
  Forall (λ c, ∀ path, walkShows path c (filepath_walk walkFn path c))
         entries →
  match (walkEntries (filepath_walk walkFn) path entries).2 with
  | WalkError _ =>
    (walkEntries (filepath_walk walkFn) path entries).1 `prefix_of`
      (entries ≫= λ c, directories (Join path (nodeName c)) c ≫= visited)
  | _ =>
    walkEntries (filepath_walk walkFn) path entries =
      (entries ≫= (λ c, directories (Join path (nodeName c)) c ≫= visited),
       WalkNil)
  end.
Proof.
  induction 1 as [|c entries Hc _ IH]; [done|].
  cbn [walkEntries]. fold (walkEntries (filepath_walk walkFn) path).
  specialize (Hc (Join path (nodeName c))). unfold walkShows in Hc.
  rewrite bind_cons.
  destruct (filepath_walk walkFn (Join path (nodeName c)) c) as [evc errc].
  simpl in Hc.
  destruct errc as [| |msg].
  - destruct Hc as [-> _].
    destruct (walkEntries (filepath_walk walkFn) path entries) as [evs err].
    simpl in IH |- *. destruct err as [| |msg].
    + by injection IH as ->.
    + by injection IH as ->.
    + by apply prefix_app.
  - destruct Hc as [-> Hskip].
    destruct c as [?|name ? ?|? ?]; [done| |done].
    destruct (walkEntries (filepath_walk walkFn) path entries) as [evs err].
    simpl in IH |- *. destruct err as [| |msg].
    + by injection IH as ->.
    + by injection IH as ->.
    + by apply prefix_app.
  - simpl. by apply prefix_app_r.
Qed.

Lemma walkFunc_error (path : string) (info : option DirEntry) (err : string) :
  walkFn path info (Some err) = ([], WalkError err).
Proof. done. Qed.

Lemma filepath_walk_shows (n : fsnode) :
  ∀ path, walkShows path n (filepath_walk walkFn path n).
Proof.
  induction n as [name|name err|name readErr entries IH] using fsnode_ind';
    intros path.
  - by split.
  - unfold walkShows. cbn [filepath_walk]. rewrite walkFunc_error. simpl.
    apply prefix_nil.
  - unfold walkShows. cbn [filepath_walk directories walkResult].
    destruct readErr as [err|].
    { rewrite walkFunc_error. simpl. apply prefix_nil. }
    rewrite walkFunc_dir.
    destruct (skippedName name); [done|].
    pose proof (walkEntries_shows path entries IH) as Hentries.
    destruct (walkEntries (filepath_walk walkFn) path entries) as [evs err].
    assert ((entries ≫= λ c, directories (Join path (nodeName c)) c ≫= visited)
            = (entries ≫= λ c, directories (Join path (nodeName c)) c)
                ≫= visited) as Hbind.
    { clear. induction entries as [|c entries IHe]; [done|].
      by rewrite !bind_cons, bind_app, IHe. }
    rewrite bind_cons, <- Hbind. simpl in Hentries |- *.
    destruct err as [| |msg].
    + by injection Hentries as ->.
    + by injection Hentries as ->.
    + by apply prefix_app.
Qed.

(** On every tree, with or without errors, [Walk] shows the visits of the
    directories that are not skipped, in the order of the walk, up to the
    first error of the walk itself, and then that error: it shows all the
    visits, or some of the first visits followed by one logged error.
    Nothing is shown for a file, for a skipped directory or for what is
    below one. *)
Theorem Walk_shows_first_visits (dir : string) (tree : fsnode) :
  Walk buildTags platforms repoRoot goPrefix dir tree
    = directories dir tree ≫= visit buildTags platforms repoRoot goPrefix ∨
  ∃ evs err,
    evs `prefix_of`
      (directories dir tree ≫= visit buildTags platforms repoRoot goPrefix) ∧
    Walk buildTags platforms repoRoot goPrefix dir tree = evs ++ [Logged err].
Proof.
  unfold Walk, filepath_Walk.
  pose proof (filepath_walk_shows tree dir) as Hshows. unfold walkShows in Hshows.
  destruct (filepath_walk walkFn dir tree) as [evs err]. simpl in Hshows.
  destruct err as [| |msg].
  - left. by destruct Hshows as [-> _].
  - left. by destruct Hshows as [-> _].
  - right. by exists evs, msg.
Qed.

End walking.

End laws.

Lemma findPackage_without_package_witness :
  findPackage (api := exampleAPI ∅ exampleListing)
    (mkPackageReader ∅ () "/repo" "example.com/repo" "/repo/b")
  = (["cannot read b.go"], None).
Proof.
  refine (findPackage_without_package (api := exampleAPI ∅ exampleListing)
            (mkPackageReader ∅ () "/repo" "example.com/repo" "/repo/b")
            [mkDirEntry "b.go" false] _ _).
  - vm_compute. reflexivity.
  - intros f Hf. vm_compute in Hf.
    apply list_elem_of_singleton in Hf as ->. vm_compute. exact I.
Defined.

Lemma selectPackage_has_go_witness :
  HasGo (PackageAPI := exampleAPI ∅ ∅) (goPackage "bar" "bar.go") = true ∧
  ∃ name,
    ({[ "foo" := goPackage "foo" "foo.go";
        "bar" := goPackage "bar" "bar.go" ]} : gmap string examplePackage)
      !! name = Some (goPackage "bar" "bar.go").
Proof.
  apply (selectPackage_has_go (api := exampleAPI ∅ ∅)
           (mkPackageReader ∅ () "/repo" "example.com/repo" "/repo/bar")).
  vm_compute. reflexivity.
Defined.

Lemma defaultPackageName_root_witness :
  defaultPackageName (api := exampleAPI ∅ ∅)
    (mkPackageReader ∅ () "/repo" "example.com/repo/" "/repo") ≠ "" ∧
  defaultPackageName (api := exampleAPI ∅ ∅)
    (mkPackageReader ∅ () "/repo" "example.com/repo/" "/repo") ≠ "." ∧
  slashFree
    (defaultPackageName (api := exampleAPI ∅ ∅)
       (mkPackageReader ∅ () "/repo" "example.com/repo/" "/repo")) = true.
Proof.
  apply (defaultPackageName_root (api := exampleAPI ∅ ∅)). reflexivity.
Defined.

End packages_laws.
